(** * OpenSurgSim: narrow-phase contacts, constraint factory, push-results,
      modified explicit Euler solvers and the mass-spring representation.

    The C++ sources are embedded shallowly.  A [double] is read as a real
    number; the one IEEE effect that the contact calculators can trigger, the
    division of a vector by a zero norm, is kept explicit through
    [FVector3d].  Fixed-size Eigen vectors are records, dynamic ones are
    lists, assertions ([SURGSIM_ASSERT]) are a result type of their own. *)

From Stdlib Require Import Reals Lra ZArith String.
From stdpp Require Import base list.

Local Open Scope R_scope.

(** ** Fixed-size vectors and rigid transforms (Eigen) *)

Module Math.

Record Vector3d := mkVector3d { vx : R; vy : R; vz : R }.

Definition Zero : Vector3d := mkVector3d 0 0 0.

Definition vadd (a b : Vector3d) : Vector3d :=
  mkVector3d (vx a + vx b) (vy a + vy b) (vz a + vz b).

Definition vsub (a b : Vector3d) : Vector3d :=
  mkVector3d (vx a - vx b) (vy a - vy b) (vz a - vz b).

Definition vopp (a : Vector3d) : Vector3d :=
  mkVector3d (- vx a) (- vy a) (- vz a).

(** [v * s] *)
Definition vscale (v : Vector3d) (s : R) : Vector3d :=
  mkVector3d (vx v * s) (vy v * s) (vz v * s).

Definition squaredNorm (v : Vector3d) : R :=
  vx v * vx v + vy v * vy v + vz v * vz v.

Definition norm (v : Vector3d) : R := sqrt (squaredNorm v).

(** [v[i]] and [v[i] = a]; Eigen asserts [i < 3]. *)
Definition coeff (v : Vector3d) (i : nat) : R :=
  match i with O => vx v | S O => vy v | _ => vz v end.

Definition setCoeff (v : Vector3d) (i : nat) (a : R) : Vector3d :=
  match i with
  | O => mkVector3d a (vy v) (vz v)
  | S O => mkVector3d (vx v) a (vz v)
  | _ => mkVector3d (vx v) (vy v) a
  end.

(** A vector of doubles after a division.  Dividing by a zero scalar has no
    real result: IEEE arithmetic answers NaN for 0/0 (and an infinity for a
    non-zero numerator), and every later operation on it stays non-finite. *)
Inductive FVector3d :=
| Finite (v : Vector3d)
| NotANumber.

Definition fmap3 (f : Vector3d -> Vector3d) (v : FVector3d) : FVector3d :=
  match v with Finite u => Finite (f u) | NotANumber => NotANumber end.

(** [v /= d] *)
Definition vdiv (v : Vector3d) (d : R) : FVector3d :=
  if Req_dec_T d 0 then NotANumber
  else Finite (mkVector3d (vx v / d) (vy v / d) (vz v / d)).

(** Eigen's [normalize()]: [*this /= norm()]. *)
Definition normalize (v : Vector3d) : FVector3d := vdiv v (norm v).

(** Row-major 3x3 matrix. *)
Record Matrix33d := mkMatrix33d { row0 : Vector3d; row1 : Vector3d; row2 : Vector3d }.

Definition dot (a b : Vector3d) : R := vx a * vx b + vy a * vy b + vz a * vz b.

Definition mulMV (m : Matrix33d) (v : Vector3d) : Vector3d :=
  mkVector3d (dot (row0 m) v) (dot (row1 m) v) (dot (row2 m) v).

Definition transpose (m : Matrix33d) : Matrix33d :=
  mkMatrix33d (mkVector3d (vx (row0 m)) (vx (row1 m)) (vx (row2 m)))
              (mkVector3d (vy (row0 m)) (vy (row1 m)) (vy (row2 m)))
              (mkVector3d (vz (row0 m)) (vz (row1 m)) (vz (row2 m))).

Definition Identity33 : Matrix33d :=
  mkMatrix33d (mkVector3d 1 0 0) (mkVector3d 0 1 0) (mkVector3d 0 0 1).

(** [RigidTransform3d] is [Eigen::Transform<double, 3, Eigen::Isometry>]. *)
Record RigidTransform3d := mkRigidTransform3d
  { linear : Matrix33d; translation : Vector3d }.

(** [pose * point] *)
Definition transformPoint (t : RigidTransform3d) (p : Vector3d) : Vector3d :=
  vadd (mulMV (linear t) p) (translation t).

(** [pose.inverse()]: for an isometry Eigen transposes the linear part. *)
Definition inverse (t : RigidTransform3d) : RigidTransform3d :=
  mkRigidTransform3d (transpose (linear t))
                     (vopp (mulMV (transpose (linear t)) (translation t))).

Definition makeTranslation (p : Vector3d) : RigidTransform3d :=
  mkRigidTransform3d Identity33 p.

(** Modelled from the spec: [SurgSim::Math::indexOfMinimum] (Geometry.h) is
    not among the sources.  The spec asks for the axis with the minimum
    value, ties resolved by axis order (x, y, z). *)
Definition indexOfMinimum (a b c : R) : nat :=
  if Rle_dec a b then (if Rle_dec a c then 0%nat else 2%nat)
  else (if Rle_dec b c then 1%nat else 2%nat).

End Math.

(** ** Collision pairs and contacts *)

Module Collision.
Import Math.

(** The shape type tags ([int] in the signatures of the calculators). *)
Inductive ShapeType :=
| RIGID_SHAPE_TYPE_NONE
| RIGID_SHAPE_TYPE_BOX
| RIGID_SHAPE_TYPE_CAPSULE
| RIGID_SHAPE_TYPE_DOUBLESIDEDPLANE
| RIGID_SHAPE_TYPE_MESH
| RIGID_SHAPE_TYPE_PLANE
| RIGID_SHAPE_TYPE_SPHERE.

(** BoxSphereDcdContact.cpp and MeshShape.cpp name the same tags without the
    prefix. *)
Definition SHAPE_TYPE_BOX := RIGID_SHAPE_TYPE_BOX.
Definition SHAPE_TYPE_SPHERE := RIGID_SHAPE_TYPE_SPHERE.
Definition SHAPE_TYPE_MESH := RIGID_SHAPE_TYPE_MESH.

Definition ShapeType_eqb (a b : ShapeType) : bool :=
  match a, b with
  | RIGID_SHAPE_TYPE_NONE, RIGID_SHAPE_TYPE_NONE
  | RIGID_SHAPE_TYPE_BOX, RIGID_SHAPE_TYPE_BOX
  | RIGID_SHAPE_TYPE_CAPSULE, RIGID_SHAPE_TYPE_CAPSULE
  | RIGID_SHAPE_TYPE_DOUBLESIDEDPLANE, RIGID_SHAPE_TYPE_DOUBLESIDEDPLANE
  | RIGID_SHAPE_TYPE_MESH, RIGID_SHAPE_TYPE_MESH
  | RIGID_SHAPE_TYPE_PLANE, RIGID_SHAPE_TYPE_PLANE
  | RIGID_SHAPE_TYPE_SPHERE, RIGID_SHAPE_TYPE_SPHERE => true
  | _, _ => false
  end.

Inductive Shape :=
| SphereShape (radius : R)
| BoxShape (sizeX sizeY sizeZ : R)
| CapsuleShape (length radius : R)
| PlaneShape
| DoubleSidedPlaneShape
| MeshShape.

Definition getType (s : Shape) : ShapeType :=
  match s with
  | SphereShape _ => RIGID_SHAPE_TYPE_SPHERE
  | BoxShape _ _ _ => RIGID_SHAPE_TYPE_BOX
  | CapsuleShape _ _ => RIGID_SHAPE_TYPE_CAPSULE
  | PlaneShape => RIGID_SHAPE_TYPE_PLANE
  | DoubleSidedPlaneShape => RIGID_SHAPE_TYPE_DOUBLESIDEDPLANE
  | MeshShape => SHAPE_TYPE_MESH
  end.

Record Representation := mkRepresentation
  { getShape : Shape; getPose : RigidTransform3d }.

Definition getShapeType (r : Representation) : ShapeType := getType (getShape r).

(** [Location::globalPosition] is an [OptionalValue<Vector3d>]. *)
Record Location := mkLocation { globalPosition : option FVector3d }.

Record Contact := mkContact
  { depth : R;
    normal : FVector3d;
    penetrationPoints : Location * Location }.

Record CollisionPair := mkCollisionPair
  { getFirst : Representation;
    getSecond : Representation;
    getContacts : list Contact }.

Definition shapeTypesOf (pair : CollisionPair) : ShapeType * ShapeType :=
  (getShapeType (getFirst pair), getShapeType (getSecond pair)).

(** A pair of two spheres, and a pair of a box and a sphere. *)
Definition spherePair (r1 r2 : R) (pose1 pose2 : RigidTransform3d)
    (contacts : list Contact) : CollisionPair :=
  mkCollisionPair (mkRepresentation (SphereShape r1) pose1)
                  (mkRepresentation (SphereShape r2) pose2) contacts.

Definition boxSpherePair (sizeX sizeY sizeZ radius : R)
    (boxPose spherePose : RigidTransform3d) (contacts : list Contact) : CollisionPair :=
  mkCollisionPair (mkRepresentation (BoxShape sizeX sizeY sizeZ) boxPose)
                  (mkRepresentation (SphereShape radius) spherePose) contacts.

Definition hasContacts (p : CollisionPair) : bool :=
  match getContacts p with [] => false | _ => true end.

(** [pair->addContact(depth, normal, penetrationPoints)] *)
Definition addContact (p : CollisionPair) (d : R) (n : FVector3d)
    (pts : Location * Location) : CollisionPair :=
  mkCollisionPair (getFirst p) (getSecond p) (getContacts p ++ [mkContact d n pts]).

(** Modelled from the spec: [CollisionPair::swapRepresentations] is not among
    the sources; it exchanges the two representations of the pair. *)
Definition swapRepresentations (p : CollisionPair) : CollisionPair :=
  mkCollisionPair (getSecond p) (getFirst p) (getContacts p).

(** What a calculation can answer: the pair, or the failure of a
    [static_pointer_cast] to a shape class the representation does not hold
    (and of the assertion of the placeholder calculation). *)
Inductive Outcome :=
| Done (p : CollisionPair)
| Failed.

(** The virtual interface of [ContactCalculation]. *)
Record ContactCalculation := mkContactCalculation
  { getShapeTypes : ShapeType * ShapeType;
    doCalculateContact : CollisionPair -> Outcome }.

Definition needsSwap (calc : ContactCalculation)
    (firstShapeType secondShapeType : ShapeType) : bool :=
  let shapeTypes := getShapeTypes calc in
  negb (ShapeType_eqb firstShapeType secondShapeType)
  && ShapeType_eqb firstShapeType (snd shapeTypes)
  && ShapeType_eqb secondShapeType (fst shapeTypes).

(** The pair as [calculateContact] hands it to [doCalculateContact]. *)
Definition delegatedPair (calc : ContactCalculation) (pair : CollisionPair)
    : CollisionPair :=
  if needsSwap calc (getShapeType (getFirst pair)) (getShapeType (getSecond pair))
  then swapRepresentations pair
  else pair.

Definition calculateContact (calc : ContactCalculation) (pair : CollisionPair)
    : Outcome :=
  doCalculateContact calc (delegatedPair calc pair).

(** Modelled from the spec: the body of
    [DefaultContactCalculation::doCalculateContact] is not among the sources;
    the header describes it as a placeholder that does nothing, or fails when
    built with [doAssert]. *)
Definition DefaultContactCalculation (doAssert : bool) : ContactCalculation :=
  mkContactCalculation (RIGID_SHAPE_TYPE_NONE, RIGID_SHAPE_TYPE_NONE)
    (fun pair => if doAssert then Failed else Done pair).

(** *** SphereSphereDcdContact.cpp *)

Module SphereSphere.

Definition doCalculateContact (pair : CollisionPair) : Outcome :=
  match getShape (getFirst pair), getShape (getSecond pair) with
  | SphereShape firstRadius, SphereShape secondRadius =>
      let firstCenter := translation (getPose (getFirst pair)) in
      let secondCenter := translation (getPose (getSecond pair)) in
      let normal := vsub firstCenter secondCenter in
      let dist := norm normal in
      let maxDist := firstRadius + secondRadius in
      if Rlt_dec dist maxDist then
        let normal := normalize normal in
        let first := fmap3 (fun n => vsub firstCenter (vscale n firstRadius)) normal in
        let second := fmap3 (fun n => vadd secondCenter (vscale n secondRadius)) normal in
        Done (addContact pair (maxDist - dist) normal
                (mkLocation (Some first), mkLocation (Some second)))
      else Done pair
  | _, _ => Failed
  end.

End SphereSphere.

Definition SphereSphereDcdContact : ContactCalculation :=
  mkContactCalculation (RIGID_SHAPE_TYPE_SPHERE, RIGID_SHAPE_TYPE_SPHERE)
    SphereSphere.doCalculateContact.

(** *** BoxSphereDcdContact.cpp *)

Module BoxSphere.
Section Epsilons.

(** [SurgSim::Math::Geometry::DistanceEpsilon] and [SquaredDistanceEpsilon]
    are declared in Geometry.h, which is not among the sources. *)
Variable DistanceEpsilon : R.
Variable SquaredDistanceEpsilon : R.

Definition doCalculateContact (pair : CollisionPair) : Outcome :=
  let representationBox := getFirst pair in
  let representationSphere := getSecond pair in
  match getShape representationBox, getShape representationSphere with
  | BoxShape sizeX sizeY sizeZ, SphereShape radius =>
      let sphereCenter := translation (getPose representationSphere) in
      let boxLocalSphereCenter :=
        transformPoint (inverse (getPose representationBox)) sphereCenter in
      let boxSize := mkVector3d (sizeX * 0.5) (sizeY * 0.5) (sizeZ * 0.5) in
      let closestPoint :=
        mkVector3d
          (Rmax (- vx boxSize) (Rmin (vx boxSize) (vx boxLocalSphereCenter)))
          (Rmax (- vy boxSize) (Rmin (vy boxSize) (vy boxLocalSphereCenter)))
          (Rmax (- vz boxSize) (Rmin (vz boxSize) (vz boxLocalSphereCenter))) in
      let normal := vsub closestPoint boxLocalSphereCenter in
      let distanceSquared := squaredNorm normal in
      if Rgt_dec (distanceSquared - radius * radius) SquaredDistanceEpsilon then
        Done pair
      else
        let '(distance, normal, closestPoint) :=
          if Rle_dec distanceSquared SquaredDistanceEpsilon then
            let distancesFromFaces :=
              mkVector3d (vx boxSize - Rabs (vx closestPoint))
                         (vy boxSize - Rabs (vy closestPoint))
                         (vz boxSize - Rabs (vz closestPoint)) in
            let minimumDistanceId :=
              indexOfMinimum (vx distancesFromFaces) (vy distancesFromFaces)
                             (vz distancesFromFaces) in
            let direction :=
              if Rgt_dec (coeff closestPoint minimumDistanceId) (- DistanceEpsilon)
              then 1 else -1 in
            (- Rabs (coeff distancesFromFaces minimumDistanceId),
             Finite (setCoeff Zero minimumDistanceId direction),
             setCoeff closestPoint minimumDistanceId
               (coeff boxSize minimumDistanceId * direction))
          else
            (norm normal, vdiv normal (norm normal), closestPoint) in
        let normal := fmap3 (mulMV (linear (getPose representationBox))) normal in
        let first := Finite (transformPoint (getPose representationBox) closestPoint) in
        let second := fmap3 (fun n => vadd sphereCenter (vscale n radius)) normal in
        Done (addContact pair (Rabs (distance - radius)) normal
                (mkLocation (Some first), mkLocation (Some second)))
  | _, _ => Failed
  end.

Definition getShapeTypes : ShapeType * ShapeType :=
  (SHAPE_TYPE_BOX, SHAPE_TYPE_SPHERE).

End Epsilons.
End BoxSphere.

Definition BoxSphereDcdContact (DistanceEpsilon SquaredDistanceEpsilon : R)
    : ContactCalculation :=
  mkContactCalculation BoxSphere.getShapeTypes
    (BoxSphere.doCalculateContact DistanceEpsilon SquaredDistanceEpsilon).

End Collision.

(** ** Dynamic vectors and matrices (Eigen::VectorXd, Eigen::MatrixXd) *)

Module Eigen.
Import Math.

Abbreviation Vector := (list R).

(** Row-major dense matrix. *)
Abbreviation Matrix := (list (list R)).

(** [v.setZero()] on a vector of size [n] *)
Definition setZero (n : nat) : Vector := replicate n 0.

(** [a + b]; Eigen asserts that the sizes agree. *)
Definition plus (a b : Vector) : Vector := zip_with Rplus a b.

(** [v * s] *)
Definition times (v : Vector) (s : R) : Vector := (fun a => a * s) <$> v.

(** [s * v] *)
Definition scale (s : R) (v : Vector) : Vector := (fun a => s * a) <$> v.

(** [v / s] *)
Definition divide (v : Vector) (s : R) : Vector := (fun a => a / s) <$> v.

Definition dot (a b : Vector) : R := foldr Rplus 0 (zip_with Rmult a b).

(** [m * v] *)
Definition mulMV (m : Matrix) (v : Vector) : Vector := (fun row => dot row v) <$> m.

(** [v.block(start, 0, n, 1)] *)
Definition block (v : Vector) (start n : nat) : Vector := take n (drop start v).

(** [v[i]]; Eigen asserts that [i] is in range. *)
Definition coeff (v : Vector) (i : nat) : R := default 0 (v !! i).

(** [v.segment(i, 3)] read as a [Vector3d] *)
Definition segment3 (v : Vector) (i : nat) : Vector3d :=
  mkVector3d (coeff v i) (coeff v (i + 1)) (coeff v (i + 2)).

(** [v.segment(i, 3) = a]; outside the vector Eigen asserts, the list is
    left as it is. *)
Definition setSegment3 (v : Vector) (i : nat) (a : Vector3d) : Vector :=
  <[(i + 2)%nat := vz a]> (<[(i + 1)%nat := vy a]> (<[i := vx a]> v)).

(** [v[i] = a] for an [int] index *)
Definition setCoeff (v : Vector) (i : Z) (a : R) : Vector :=
  if (i <? 0)%Z then v else <[Z.to_nat i := a]> v.

End Eigen.

(** ** Assertions and the log *)

Module Framework.

Inductive LogLevel := DEBUG | INFO | WARNING | SEVERE | CRITICAL.

Record LogEntry := mkLogEntry
  { level : LogLevel; message : string; arguments : list Z }.

(** A call either returns, with what it logged, or fails an assertion
    ([SURGSIM_ASSERT] throws). *)
Inductive Asserted (A : Type) :=
| Returns (a : A) (log : list LogEntry)
| AssertionFailure (msg : string).

Arguments Returns {A} a log.
Arguments AssertionFailure {A} msg.

End Framework.

(** ** ConstraintImplementationFactory.cpp *)

Module Factory.
Import Framework.

Record ConstraintImplementation := mkConstraintImplementation
  { address : nat;
    getRepresentationType : Z;
    getMlcpConstraintType : Z }.

(** [std::shared_ptr<ConstraintImplementation>]; [None] is [nullptr]. *)
Abbreviation shared_ptr := (option ConstraintImplementation).

Record ConstraintImplementationFactory := mkFactory
  { m_implementations : list (list shared_ptr) }.

Definition typesOf (i : ConstraintImplementation) : Z * Z :=
  (getRepresentationType i, getMlcpConstraintType i).

Section Counts.

(** The enumerations' last members; their headers are not among the sources. *)
Variable REPRESENTATION_TYPE_COUNT : Z.
Variable MLCP_NUM_CONSTRAINT_TYPES : Z.

Definition inRange (i count : Z) : bool := (0 <=? i)%Z && (i <? count)%Z.

(** The array [m_implementations[REPRESENTATION_TYPE_COUNT][MLCP_NUM_CONSTRAINT_TYPES]]
    of null pointers. *)
Definition emptyFactory : ConstraintImplementationFactory :=
  mkFactory (replicate (Z.to_nat REPRESENTATION_TYPE_COUNT)
               (replicate (Z.to_nat MLCP_NUM_CONSTRAINT_TYPES) None)).

(** The array keeps its dimensions. *)
Definition dimensioned (f : ConstraintImplementationFactory) : Prop :=
  length (m_implementations f) = Z.to_nat REPRESENTATION_TYPE_COUNT
  /\ Forall (fun row => length row = Z.to_nat MLCP_NUM_CONSTRAINT_TYPES)
            (m_implementations f).

Definition at2 (f : ConstraintImplementationFactory) (i j : Z) : shared_ptr :=
  match m_implementations f !! Z.to_nat i with
  | Some row => default None (row !! Z.to_nat j)
  | None => None
  end.

Definition getImplementation (f : ConstraintImplementationFactory)
    (representationType constraintType : Z) : Asserted shared_ptr :=
  if negb (inRange representationType REPRESENTATION_TYPE_COUNT) then
    AssertionFailure "Invalid representation type"
  else if negb (inRange constraintType MLCP_NUM_CONSTRAINT_TYPES) then
    AssertionFailure "Invalid constraint type"
  else
    let implementation := at2 f representationType constraintType in
    Returns implementation
      (match implementation with
       | None => [mkLogEntry WARNING "No constraint implementation for representation type and constraint type"
                    [representationType; constraintType]]
       | Some _ => []
       end).

(** The source writes [m_implementations[r][c]] unchecked; a write outside
    the array has no defined result ([None]). *)
Definition addImplementation (implementation : ConstraintImplementation)
    (f : ConstraintImplementationFactory) : option ConstraintImplementationFactory :=
  let r := getRepresentationType implementation in
  let c := getMlcpConstraintType implementation in
  if inRange r REPRESENTATION_TYPE_COUNT && inRange c MLCP_NUM_CONSTRAINT_TYPES then
    Some (mkFactory (alter (fun row => <[Z.to_nat c := Some implementation]> row)
                       (Z.to_nat r) (m_implementations f)))
  else None.

(** Several registrations in a row. *)
Fixpoint addImplementations (impls : list ConstraintImplementation)
    (f : ConstraintImplementationFactory) : option ConstraintImplementationFactory :=
  match impls with
  | [] => Some f
  | i :: rest =>
      match addImplementation i f with
      | Some f' => addImplementations rest f'
      | None => None
      end
  end.

(** The constructor registers the contact implementations of the fixed, rigid
    and Fem3D representations (their classes are not among the sources). *)
Definition newFactory (fixedContact rigidContact fem3DContact : ConstraintImplementation)
    : option ConstraintImplementationFactory :=
  addImplementations [fixedContact; rigidContact; fem3DContact] emptyFactory.

End Counts.
End Factory.

(** ** Representations and PushResults.cpp *)

Module Physics.
Import Framework Eigen.

(** The part of the virtual interface of [Physics::Representation] that the
    push-results step calls. *)
Class Representation (Rep : Type) := mkRepresentationClass
  { getName : Rep -> string;
    getNumDof : Rep -> nat;
    applyDofCorrection : R -> Vector -> Rep -> Rep }.

Record MlcpProblem := mkMlcpProblem
  { A : Matrix; b : Vector; H : Matrix; CHt : Matrix }.

Record MlcpSolution := mkMlcpSolution
  { x : Vector; dofCorrection : Vector }.

(** [MlcpMapping<Representation>]: keyed by the address of a representation,
    here its position in the vector of representations; [getValue] answers
    -1 for an unknown key. *)
Record MlcpMapping := mkMlcpMapping { getValue : nat -> Z }.

Record PhysicsManagerState (Rep : Type) := mkPhysicsManagerState
  { getRepresentations : list Rep;
    getRepresentationsMapping : MlcpMapping;
    getMlcpProblem : MlcpProblem;
    getMlcpSolution : MlcpSolution }.

Arguments mkPhysicsManagerState {Rep} _ _ _ _.
Arguments getRepresentations {Rep} _.
Arguments getRepresentationsMapping {Rep} _.
Arguments getMlcpProblem {Rep} _.
Arguments getMlcpSolution {Rep} _.

Section PushResults.
Context {Rep : Type} `{Representation Rep}.

(** The loop over the representations, from position [pos] on. *)
Fixpoint pushToRepresentations (dt : R) (dofCorrection : Vector)
    (mapping : MlcpMapping) (pos : nat) (representations : list Rep)
    : Asserted (list Rep) :=
  match representations with
  | [] => Returns [] []
  | it :: rest =>
      let index := getValue mapping pos in
      if (index <? 0)%Z then
        AssertionFailure "Bad index found for representation"
      else
        let it' := applyDofCorrection dt
                     (block dofCorrection (Z.to_nat index) (getNumDof it)) it in
        match pushToRepresentations dt dofCorrection mapping (S pos) rest with
        | Returns rest' log => Returns (it' :: rest') log
        | AssertionFailure msg => AssertionFailure msg
        end
  end.

Definition doUpdate (dt : R) (state : PhysicsManagerState Rep)
    : Asserted (PhysicsManagerState Rep) :=
  let result := state in
  let lambda := x (getMlcpSolution result) in
  if (length lambda =? 0)%nat then Returns state []
  else
    let dofCorrection := mulMV (CHt (getMlcpProblem result)) lambda in
    match pushToRepresentations dt dofCorrection (getRepresentationsMapping result)
            0 (getRepresentations result) with
    | Returns representations log =>
        Returns (mkPhysicsManagerState representations
                   (getRepresentationsMapping result)
                   (getMlcpProblem result)
                   (mkMlcpSolution lambda dofCorrection)) log
    | AssertionFailure msg => AssertionFailure msg
    end.

End PushResults.
End Physics.

(** ** OdeSolverEulerExplicitModified-inl.h and
       OdeSolverLinearEulerExplicitModified-inl.h *)

Module Ode.
Import Eigen.

Record OdeState := mkOdeState
  { getPositions : Vector;
    getVelocities : Vector;
    getAccelerations : Vector }.

Section Solvers.

(** The template parameter [MT] and what the solver asks of its equation
    ([m_equation.computeF], [m_equation.computeM]), of the matrix type
    ([M * (1.0 / dt)]) and of its linear solver ([m_solveAndInverse], which
    answers the solution and the inverse matrix). *)
Variable MT : Type.
Variable computeF : OdeState -> Vector.
Variable computeM : OdeState -> MT.
Variable scaleM : MT -> R -> MT.
Variable solveAndInverse : MT -> Vector -> Vector * Matrix.

(** The members of the solver object. *)
Record OdeSolver := mkOdeSolver
  { m_MsystemMatrix : option MT;
    m_compliance : Matrix;
    m_initialized : bool }.

Definition ModifiedExplicitEuler_solve (this : OdeSolver) (dt : R)
    (currentState newState : OdeState) : OdeSolver * OdeState :=
  let f := computeF currentState in
  let M := computeM currentState in
  let MsystemMatrix := scaleM M (1 / dt) in
  let '(deltaV, compliance) := solveAndInverse MsystemMatrix f in
  let velocities := plus (getVelocities currentState) deltaV in
  let positions := plus (getPositions currentState) (scale dt velocities) in
  let accelerations := divide deltaV dt in
  (mkOdeSolver (Some MsystemMatrix) compliance (m_initialized this),
   mkOdeState positions velocities accelerations).

Definition LinearModifiedExplicitEuler_solve (this : OdeSolver) (dt : R)
    (currentState newState : OdeState) : OdeSolver * OdeState :=
  if negb (m_initialized this) then
    let '(this', newState') :=
      ModifiedExplicitEuler_solve this dt currentState newState in
    (mkOdeSolver (m_MsystemMatrix this') (m_compliance this') true, newState')
  else
    let f := computeF currentState in
    let deltaV := mulMV (m_compliance this) f in
    let velocities := plus (getVelocities currentState) deltaV in
    let positions := plus (getPositions currentState) (scale dt velocities) in
    let accelerations := divide (getAccelerations newState) dt in
    (this, mkOdeState positions velocities accelerations).

(** A sequence of calls: each one is given its time step and the buffer
    [newState] points to, and integrates the state the previous call wrote. *)
Fixpoint run
    (solve : OdeSolver -> R -> OdeState -> OdeState -> OdeSolver * OdeState)
    (calls : list (R * OdeState)) (this : OdeSolver) (currentState : OdeState)
    : OdeSolver * OdeState :=
  match calls with
  | [] => (this, currentState)
  | (dt, newState) :: rest =>
      let '(this', newState') := solve this dt currentState newState in
      run solve rest this' newState'
  end.

(** The contract of [LinearSolveAndInverse] (LinearSolveAndInverseTests.cpp
    compares [x] with [inverse * b]): the solution is the inverse applied to
    the right-hand side, and the inverse is square. *)
Definition SolvesByInverse : Prop :=
  forall A b x C, solveAndInverse A b = (x, C) ->
                  x = mulMV C b /\ length C = length b.

(** The inverse depends on the matrix only. *)
Definition InverseOfMatrixOnly : Prop :=
  forall A b b', length b = length b' ->
                 snd (solveAndInverse A b) = snd (solveAndInverse A b').

Definition samePositionsVelocities (s s' : OdeState) : Prop :=
  getPositions s = getPositions s' /\ getVelocities s = getVelocities s'.

(** The equation is linear with constant matrices: M does not depend on the
    state, F depends on positions and velocities only. *)
Definition ConstantMass (M0 : MT) : Prop := forall s, computeM s = M0.

Definition ForceOfPositionsVelocities : Prop :=
  (forall s s', samePositionsVelocities s s' -> computeF s = computeF s')
  /\ (forall s s', length (computeF s) = length (computeF s')).

End Solvers.

Arguments mkOdeSolver {MT} _ _ _.
Arguments m_MsystemMatrix {MT} _.
Arguments m_compliance {MT} _.
Arguments m_initialized {MT} _.

(** The constructor of [LinearModifiedExplicitEuler]. *)
Definition newSolver {MT : Type} : OdeSolver MT := mkOdeSolver None [] false.

End Ode.

(** ** MassSpringRepresentation.cpp *)

Module MassSpring.
Import Framework Math Eigen.

Record MassParameter := mkMassParameter
  { getMass : R; getVelocity : Vector3d }.

Record LinearSpringParameter := mkLinearSpringParameter
  { getStiffness : R; getDamping : R; getInitialLength : R }.

Record Vertex := mkVertex { position : Vector3d; data : MassParameter }.

(** [MeshElement<2, LinearSpringParameter>] *)
Record Edge := mkEdge { vertices : nat * nat; edgeData : LinearSpringParameter }.

Record Mesh := mkMesh { getVertices : list Vertex; getEdges : list Edge }.

Definition addVertex (m : Mesh) (v : Vertex) : Mesh :=
  mkMesh (getVertices m ++ [v]) (getEdges m).

Definition addEdge (m : Mesh) (e : Edge) : Mesh :=
  mkMesh (getVertices m) (getEdges m ++ [e]).

Definition getVertexPosition (m : Mesh) (i : nat) : Vector3d :=
  match getVertices m !! i with Some v => position v | None => Zero end.

Inductive IntegrationScheme :=
| INTEGRATIONSCHEME_EXPLICIT_EULER
| INTEGRATIONSCHEME_MODIFIED_EXPLICIT_EULER.

Record RayleighDamping := mkRayleighDamping
  { massCoefficient : R; stiffnessCoefficient : R }.

Record MassSpringRepresentation := mkMassSpringRepresentation
  { getName : string;
    isActive : bool;
    isGravityEnabled : bool;
    getGravity : Vector3d;
    getNumDof : nat;
    m_initialPose : RigidTransform3d;
    m_integrationScheme : IntegrationScheme;
    m_rayleighDamping : RayleighDamping;
    m_boundaryConditions : list Z;
    m_initialState : Mesh;
    m_finalState : Mesh;
    m_x : Vector;
    m_xPrevious : Vector;
    m_v : Vector;
    m_f : Vector }.

Definition getNumMasses (s : MassSpringRepresentation) : nat :=
  length (getVertices (m_finalState s)).

Definition getNumSprings (s : MassSpringRepresentation) : nat :=
  length (getEdges (m_finalState s)).

(** [getMassParameter(nodeId).getMass()]; the assertion on [nodeId] holds in
    every loop below. *)
Definition massOf (s : MassSpringRepresentation) (nodeId : nat) : R :=
  match getVertices (m_finalState s) !! nodeId with
  | Some v => getMass (data v)
  | None => 0
  end.

Definition with_state (s : MassSpringRepresentation) (x xPrevious v f : Vector)
    : MassSpringRepresentation :=
  mkMassSpringRepresentation (getName s) (isActive s) (isGravityEnabled s)
    (getGravity s) (getNumDof s) (m_initialPose s) (m_integrationScheme s)
    (m_rayleighDamping s) (m_boundaryConditions s) (m_initialState s)
    (m_finalState s) x xPrevious v f.

Definition addBoundaryCondition (nodeId : Z) (s : MassSpringRepresentation)
    : MassSpringRepresentation :=
  mkMassSpringRepresentation (getName s) (isActive s) (isGravityEnabled s)
    (getGravity s) (getNumDof s) (m_initialPose s) (m_integrationScheme s)
    (m_rayleighDamping s) (m_boundaryConditions s ++ [nodeId]) (m_initialState s)
    (m_finalState s) (m_x s) (m_xPrevious s) (m_v s) (m_f s).

(** Several calls of [addBoundaryCondition]. *)
Definition addBoundaryConditions (nodeIds : list Z) (s : MassSpringRepresentation)
    : MassSpringRepresentation :=
  foldl (fun s nodeId => addBoundaryCondition nodeId s) s nodeIds.

Definition beforeUpdate (dt : R) (s : MassSpringRepresentation)
    : MassSpringRepresentation :=
  if negb (isActive s) then s
  else with_state s (m_x s) (m_x s) (m_v s) (m_f s).

Definition applyDofCorrection (dt : R) (block : Vector)
    (s : MassSpringRepresentation) : MassSpringRepresentation :=
  if negb (isActive s) then s else s.

(** [f[3 * nodeId + k] -= a], [k = 0, 1, 2] *)
Definition subSegment3 (f : Vector) (nodeId : nat) (a : Vector3d) : Vector :=
  setSegment3 f (3 * nodeId) (vsub (segment3 f (3 * nodeId)) a).

Definition addSegment3 (f : Vector) (nodeId : nat) (a : Vector3d) : Vector :=
  setSegment3 f (3 * nodeId) (vadd (segment3 f (3 * nodeId)) a).

(** The mass part of the Rayleigh damping; the stiffness part is commented
    out in the source. *)
Definition addRayleighDampingForce (s : MassSpringRepresentation)
    (f v : Vector) (scale : R) : Vector :=
  if Req_dec_T (massCoefficient (m_rayleighDamping s)) 0 then f
  else
    foldl (fun f nodeID =>
             subSegment3 f nodeID
               (vscale (segment3 v (3 * nodeID))
                  (scale * massCoefficient (m_rayleighDamping s) * massOf s nodeID)))
          f (seq 0 (getNumMasses s)).

(** [v[3 * bc + 0] = 0; v[3 * bc + 1] = 0; v[3 * bc + 2] = 0] *)
Definition zeroNode (v : Vector) (bc : Z) : Vector :=
  setCoeff (setCoeff (setCoeff v (3 * bc + 0) 0) (3 * bc + 1) 0) (3 * bc + 2) 0.

(** The boundary-condition loop over one state vector (the explicit scheme
    runs it over [m_f] and [m_v] in one loop). *)
Definition zeroBoundaryConditions (bcs : list Z) (v : Vector) : Vector :=
  foldl zeroNode v bcs.

(** The index of component [k] of node [nodeId] in a state vector. *)
Definition dofIndex (nodeId k : Z) : nat := Z.to_nat (3 * nodeId + k).

(** The state vectors have one size, as [allocate] leaves them. *)
Definition allocated (s : MassSpringRepresentation) : Prop :=
  length (m_x s) = length (m_v s) /\ length (m_f s) = length (m_v s).


(** Every vertex of the mesh has a zero velocity. *)
Definition atRest (m : Mesh) : Prop :=
  Forall (fun v => getVelocity (data v) = Zero) (getVertices m).

Section Update.

(** [LinearSpringParameter::getF(x0, x1, v0, v1)]; its class is not among the
    sources. *)
Variable getF : LinearSpringParameter -> Vector3d -> Vector3d -> Vector3d -> Vector3d -> Vector3d.

(** Steps 1 to 3 of [updateEulerExplicit]: the forces F(t) gathered in [m_f]. *)
Definition forces (s : MassSpringRepresentation) : Vector :=
  let f := setZero (length (m_f s)) in
  (* 1) gravity *)
  let f :=
    if isGravityEnabled s then
      foldl (fun f nodeId =>
               setSegment3 f (3 * nodeId) (vscale (getGravity s) (massOf s nodeId)))
            f (seq 0 (getNumMasses s))
    else f in
  (* 2) Rayleigh damping *)
  let f := addRayleighDampingForce s f (m_v s) 1.0 in
  (* 3) spring forces *)
  foldl (fun f e =>
           let nodeId0 := fst (vertices e) in
           let nodeId1 := snd (vertices e) in
           let force :=
             getF (edgeData e)
                  (segment3 (m_x s) (3 * nodeId0)) (segment3 (m_x s) (3 * nodeId1))
                  (segment3 (m_v s) (3 * nodeId0)) (segment3 (m_v s) (3 * nodeId1)) in
           subSegment3 (addSegment3 f nodeId0 force) nodeId1 force)
        f (getEdges (m_finalState s)).

(** Step 4: the accelerations a(t) = F(t)/m, node by node. *)
Definition accelerations (s : MassSpringRepresentation) : Vector :=
  foldl (fun f nodeId =>
           setSegment3 f (3 * nodeId)
             (vscale (segment3 f (3 * nodeId)) (/ massOf s nodeId)))
        (forces s) (seq 0 (getNumMasses s)).

Definition updateEulerExplicit (dt : R) (useModifiedEuler : bool)
    (s : MassSpringRepresentation) : MassSpringRepresentation :=
  let f := accelerations s in
  (* 5) numerical integration scheme *)
  if useModifiedEuler then
    let v := plus (m_v s) (times f dt) in
    let v := zeroBoundaryConditions (m_boundaryConditions s) v in
    let x := plus (m_x s) (times v dt) in
    with_state s x (m_xPrevious s) v f
  else
    let f := zeroBoundaryConditions (m_boundaryConditions s) f in
    let v := zeroBoundaryConditions (m_boundaryConditions s) (m_v s) in
    let x := plus (m_x s) (times v dt) in
    let v := plus v (times f dt) in
    with_state s x (m_xPrevious s) v f.

Definition update (dt : R) (s : MassSpringRepresentation)
    : MassSpringRepresentation :=
  if negb (isActive s) then s
  else
    match m_integrationScheme s with
    | INTEGRATIONSCHEME_EXPLICIT_EULER => updateEulerExplicit dt false s
    | INTEGRATIONSCHEME_MODIFIED_EXPLICIT_EULER => updateEulerExplicit dt true s
    end.

End Update.

(** [afterUpdate]: the positions and velocities written back into the mesh. *)
Definition afterUpdate (dt : R) (s : MassSpringRepresentation)
    : MassSpringRepresentation :=
  if negb (isActive s) then s
  else
    let vertices' :=
      imap (fun vertexId v =>
              mkVertex (segment3 (m_x s) (3 * vertexId))
                       (mkMassParameter (getMass (data v))
                                        (segment3 (m_v s) (3 * vertexId))))
           (getVertices (m_finalState s)) in
    mkMassSpringRepresentation (getName s) (isActive s) (isGravityEnabled s)
      (getGravity s) (getNumDof s) (m_initialPose s) (m_integrationScheme s)
      (m_rayleighDamping s) (m_boundaryConditions s) (m_initialState s)
      (mkMesh vertices' (getEdges (m_finalState s)))
      (m_x s) (m_xPrevious s) (m_v s) (m_f s).

(** [init1D]: [numNodesPerDim[0]] nodes on the segment between the two
    extremities, chained by springs. *)
Definition init1D (extremities : Vector3d * Vector3d) (numNodes : Z)
    (totalMass springStiffness springDamping : R)
    (s : MassSpringRepresentation) : Asserted MassSpringRepresentation :=
  if negb (0 <? numNodes)%Z then AssertionFailure "Number of nodes incorrect"
  else
    let n := Z.to_nat numNodes in
    let delta := vscale (vsub (snd extremities) (fst extremities))
                        (/ IZR (numNodes - 1)) in
    let initialState :=
      foldl (fun m massId =>
               addVertex m
                 (mkVertex (transformPoint (m_initialPose s)
                              (vadd (fst extremities) (vscale delta (INR massId))))
                           (mkMassParameter (totalMass / IZR numNodes) Zero)))
            (m_initialState s) (seq 0 n) in
    let initialState :=
      foldl (fun m massId =>
               let A := getVertexPosition m massId in
               let B := getVertexPosition m (massId + 1) in
               addEdge m (mkEdge (massId, (massId + 1)%nat)
                            (mkLinearSpringParameter springStiffness springDamping
                               (norm (vsub B A)))))
            initialState (seq 0 (n - 1)) in
    let fill (get : nat -> Vector3d) (v : Vector) :=
      foldl (fun v nodeId => setSegment3 v (3 * nodeId) (get nodeId)) v (seq 0 n) in
    let velocityOf nodeId :=
      match getVertices initialState !! nodeId with
      | Some v => getVelocity (data v)
      | None => Zero
      end in
    Returns
      (mkMassSpringRepresentation (getName s) (isActive s) (isGravityEnabled s)
         (getGravity s) (3 * n) (m_initialPose s) (m_integrationScheme s)
         (m_rayleighDamping s) (m_boundaryConditions s) initialState initialState
         (fill (getVertexPosition initialState) (setZero (3 * n)))
         (fill (getVertexPosition initialState) (setZero (3 * n)))
         (fill velocityOf (setZero (3 * n)))
         (setZero (3 * n)))
      [].

(** The calls the physics manager makes on a representation during a tick. *)
Inductive Call :=
| BeforeUpdate (dt : R)
| Update (dt : R)
| ApplyDofCorrection (dt : R) (block : Vector)
| AfterUpdate (dt : R).

Section Calls.
Variable getF : LinearSpringParameter -> Vector3d -> Vector3d -> Vector3d -> Vector3d -> Vector3d.

Definition call (c : Call) (s : MassSpringRepresentation) : MassSpringRepresentation :=
  match c with
  | BeforeUpdate dt => beforeUpdate dt s
  | Update dt => update getF dt s
  | ApplyDofCorrection dt block => applyDofCorrection dt block s
  | AfterUpdate dt => afterUpdate dt s
  end.

Definition calls (cs : list Call) (s : MassSpringRepresentation)
    : MassSpringRepresentation :=
  foldl (fun s c => call c s) s cs.

End Calls.

End MassSpring.

(** A mass-spring representation is a [Physics::Representation]. *)
#[export] Instance MassSpringRepresentation_Representation
    : Physics.Representation MassSpring.MassSpringRepresentation :=
  Physics.mkRepresentationClass MassSpring.MassSpringRepresentation
    MassSpring.getName MassSpring.getNumDof MassSpring.applyDofCorrection.

(** ** Concrete systems *)

Module PointMass.
Import Eigen Ode.

(** Rows [before .. before + after) of the matrix [a I] of size [before + after]. *)
Fixpoint scalarRows (before after : nat) (a : R) : Matrix :=
  match after with
  | O => []
  | S k => (replicate before 0 ++ a :: replicate k 0) :: scalarRows (S before) k a
  end.

Definition scalarMatrix (n : nat) (a : R) : Matrix := scalarRows 0 n a.

(** The linear solver for equal point masses, whose system matrix is [A I]:
    the solution is [b / A], the inverse is [(1 / A) I]. *)
Definition solveAndInverse (A : R) (b : Vector) : Vector * Matrix :=
  (divide b A, scalarMatrix (length b) (/ A)).

(** One degree of freedom, mass 2, under the constant force 4. *)
Definition computeF (s : OdeState) : Vector := [4].
Definition computeM (s : OdeState) : R := 2.


Definition atOrigin : OdeState := mkOdeState [0] [0] [0].
Definition drifting : OdeState := mkOdeState [0] [3] [0].

(** Two calls with dt = 0.5, each given a buffer that holds the state at
    rest at the origin. *)
Definition twoCalls : list (R * OdeState) := [(0.5, atOrigin); (0.5, atOrigin)].

End PointMass.

Module Chain.
Import Framework Math Eigen MassSpring.

(** A spring of rest length zero: F = k (x1 - x0). *)
Definition linearSpring (p : LinearSpringParameter) (x0 x1 v0 v1 : Vector3d)
    : Vector3d :=
  vscale (vsub x1 x0) (getStiffness p).

Definition freeNodes : Mesh :=
  mkMesh [mkVertex (mkVector3d 0 0 0) (mkMassParameter 1 (mkVector3d 1 0 0));
          mkVertex (mkVector3d 1 0 0) (mkMassParameter 1 Zero)] [].

(** Two free unit masses, the first one moving along x, without gravity. *)
Definition freeParticles : MassSpringRepresentation :=
  mkMassSpringRepresentation "free" true false (mkVector3d 0 (-9.81) 0) 6
    (makeTranslation Zero) INTEGRATIONSCHEME_MODIFIED_EXPLICIT_EULER
    (mkRayleighDamping 0 0) [] freeNodes freeNodes
    [0; 0; 0; 1; 0; 0] [0; 0; 0; 1; 0; 0] [1; 0; 0; 0; 0; 0] [0; 0; 0; 0; 0; 0].

(** A representation as constructed, set to the modified scheme, before
    [init1D]. *)
Definition blank : MassSpringRepresentation :=
  mkMassSpringRepresentation "chain" true true (mkVector3d 0 (-9.81) 0) 0
    (makeTranslation Zero) INTEGRATIONSCHEME_MODIFIED_EXPLICIT_EULER
    (mkRayleighDamping 0 0) [] (mkMesh [] []) (mkMesh [] [])
    [] [] [] [].

(** [init1D] with two nodes between (0,0,0) and (1,0,0), total mass 2, then
    [addBoundaryCondition(0)]. *)
Definition initialisedChain : MassSpringRepresentation :=
  match init1D (mkVector3d 0 0 0, mkVector3d 1 0 0) 2 2 2 0 blank with
  | Returns s _ => addBoundaryConditions [0%Z] s
  | AssertionFailure _ => blank
  end.

(** One tick of the physics manager, with a correction from the solver. *)
Definition oneTick : list Call :=
  [BeforeUpdate 0.001; Update 0.001;
   ApplyDofCorrection 0.001 [1; 1; 1; 1; 1; 1]; AfterUpdate 0.001].

End Chain.

Module Scene.
Import Math Collision Factory Physics.

Definition atOrigin : RigidTransform3d := makeTranslation (mkVector3d 0 0 0).
Definition alongX : RigidTransform3d := makeTranslation (mkVector3d 1.5 0 0).

Definition unitSphere (pose : RigidTransform3d) : Collision.Representation :=
  mkRepresentation (SphereShape 1) pose.

Definition box246 (pose : RigidTransform3d) : Collision.Representation :=
  mkRepresentation (BoxShape 2 4 6) pose.

(** A sphere first and a box second: the reverse of what
    [BoxSphereDcdContact] declares. *)
Definition sphereThenBox : CollisionPair :=
  mkCollisionPair (unitSphere atOrigin) (box246 alongX) [].

(** A small positive value for both epsilons. *)
Definition epsilon : R := 0.0000000001.

Definition rigidContact : ConstraintImplementation :=
  mkConstraintImplementation 1 1 3.
Definition fixedContact : ConstraintImplementation :=
  mkConstraintImplementation 2 0 3.

(** A tick without constraints: the solver's [x] is empty. *)
Definition noConstraints : PhysicsManagerState MassSpring.MassSpringRepresentation :=
  mkPhysicsManagerState [Chain.initialisedChain; Chain.freeParticles]
    (mkMlcpMapping (fun i => (6 * Z.of_nat i)%Z))
    (mkMlcpProblem [] [] [] [])
    (mkMlcpSolution [] []).

End Scene.

(** ** More of ConstraintImplementationFactory.cpp *)

Module FactoryRanges.
Import Factory.

(** Both types of an implementation index the array of the factory. *)
Definition typesInRange (REPRESENTATION_TYPE_COUNT MLCP_NUM_CONSTRAINT_TYPES : Z)
    (impl : ConstraintImplementation) : Prop :=
  inRange (getRepresentationType impl) REPRESENTATION_TYPE_COUNT = true
  /\ inRange (getMlcpConstraintType impl) MLCP_NUM_CONSTRAINT_TYPES = true.

End FactoryRanges.

(** ** More of MassSpringRepresentation.cpp *)

Module MassSpringAccessors.
Import Framework Math Eigen MassSpring.

(** [getTotalMass]: the loop over the vertices of [m_finalState]. *)
Definition getTotalMass (s : MassSpringRepresentation) : R :=
  foldl (fun mass v => mass + getMass (data v)) 0 (getVertices (m_finalState s)).

Definition getMassParameter (nodeId : nat) (s : MassSpringRepresentation)
    : Asserted MassParameter :=
  if (nodeId <? getNumMasses s)%nat then
    Returns (default (mkMassParameter 0 Zero)
               (data <$> getVertices (m_finalState s) !! nodeId)) []
  else AssertionFailure "Invalid node id to request a mass from".

Definition getSpringParameter (springId : nat) (s : MassSpringRepresentation)
    : Asserted LinearSpringParameter :=
  if (springId <? getNumSprings s)%nat then
    Returns (default (mkLinearSpringParameter 0 0 0)
               (edgeData <$> getEdges (m_finalState s) !! springId)) []
  else AssertionFailure "Invalid spring id".

Definition getNumBoundaryConditions (s : MassSpringRepresentation) : nat :=
  length (m_boundaryConditions s).

Definition getBoundaryCondition (bcId : nat) (s : MassSpringRepresentation)
    : Asserted Z :=
  if (bcId <? length (m_boundaryConditions s))%nat then
    Returns (default 0%Z (m_boundaryConditions s !! bcId)) []
  else AssertionFailure "Invalid boundary condition".

(** The sum over the nodes of component [k] of a state vector. *)
Definition axisSum (k n : nat) (f : Vector) : R :=
  foldr Rplus 0 ((fun i => coeff f (3 * i + k)) <$> seq 0 n).

(** The vertices named by every spring exist. *)
Definition springsInRange (s : MassSpringRepresentation) : Prop :=
  Forall (fun e => (fst (vertices e) < getNumMasses s)%nat
                   /\ (snd (vertices e) < getNumMasses s)%nat)
         (getEdges (m_finalState s)).

(** The masses of the vertices of a mesh, in order. *)
Definition masses (m : Mesh) : list R := (fun v => getMass (data v)) <$> getVertices m.

End MassSpringAccessors.

(** ** MlcpConstraintTypeName.h *)

Module MlcpNames.
Import Framework.
Local Open Scope string_scope.

(** The members of [MlcpConstraintType] that the sources name; the header
    of the enumeration is not among them, so every other value it can hold
    is kept as [MLCP_OTHER_VALUE]. *)
Inductive MlcpConstraintType :=
| MLCP_INVALID_CONSTRAINT
| MLCP_BILATERAL_1D_CONSTRAINT
| MLCP_BILATERAL_2D_CONSTRAINT
| MLCP_BILATERAL_3D_CONSTRAINT
| MLCP_UNILATERAL_3D_FRICTIONLESS_CONSTRAINT
| MLCP_UNILATERAL_3D_FRICTIONAL_CONSTRAINT
| MLCP_BILATERAL_FRICTIONLESS_SLIDING_CONSTRAINT
| MLCP_BILATERAL_FRICTIONAL_SLIDING_CONSTRAINT
| MLCP_NUM_CONSTRAINT_TYPES
| MLCP_OTHER_VALUE (value : Z).

(** The cases of the [switch] in [getMlcpConstraintTypeName]. *)
Definition named : list MlcpConstraintType :=
  [MLCP_BILATERAL_1D_CONSTRAINT; MLCP_BILATERAL_2D_CONSTRAINT;
   MLCP_BILATERAL_3D_CONSTRAINT; MLCP_UNILATERAL_3D_FRICTIONLESS_CONSTRAINT;
   MLCP_UNILATERAL_3D_FRICTIONAL_CONSTRAINT;
   MLCP_BILATERAL_FRICTIONLESS_SLIDING_CONSTRAINT;
   MLCP_BILATERAL_FRICTIONAL_SLIDING_CONSTRAINT].

Definition getMlcpConstraintTypeName (constraintType : MlcpConstraintType)
    : string * list LogEntry :=
  match constraintType with
  | MLCP_BILATERAL_1D_CONSTRAINT => ("MLCP_BILATERAL_1D_CONSTRAINT", [])
  | MLCP_BILATERAL_2D_CONSTRAINT => ("MLCP_BILATERAL_2D_CONSTRAINT", [])
  | MLCP_BILATERAL_3D_CONSTRAINT => ("MLCP_BILATERAL_3D_CONSTRAINT", [])
  | MLCP_UNILATERAL_3D_FRICTIONLESS_CONSTRAINT =>
      ("MLCP_UNILATERAL_3D_FRICTIONLESS_CONSTRAINT", [])
  | MLCP_UNILATERAL_3D_FRICTIONAL_CONSTRAINT =>
      ("MLCP_UNILATERAL_3D_FRICTIONAL_CONSTRAINT", [])
  | MLCP_BILATERAL_FRICTIONLESS_SLIDING_CONSTRAINT =>
      ("MLCP_BILATERAL_FRICTIONLESS_SLIDING_CONSTRAINT", [])
  | MLCP_BILATERAL_FRICTIONAL_SLIDING_CONSTRAINT =>
      ("MLCP_BILATERAL_FRICTIONAL_SLIDING_CONSTRAINT", [])
  | _ => (EmptyString, [mkLogEntry SEVERE "bad MLCP constraint type value" []])
  end.

Definition getMlcpConstraintTypeValue (typeName : string)
    : MlcpConstraintType * list LogEntry :=
  if String.eqb typeName "MLCP_BILATERAL_1D_CONSTRAINT" then
    (MLCP_BILATERAL_1D_CONSTRAINT, [])
  else if String.eqb typeName "MLCP_BILATERAL_2D_CONSTRAINT" then
    (MLCP_BILATERAL_2D_CONSTRAINT, [])
  else if String.eqb typeName "MLCP_BILATERAL_3D_CONSTRAINT" then
    (MLCP_BILATERAL_3D_CONSTRAINT, [])
  else if String.eqb typeName "MLCP_UNILATERAL_3D_FRICTIONLESS_CONSTRAINT" then
    (MLCP_UNILATERAL_3D_FRICTIONLESS_CONSTRAINT, [])
  else if String.eqb typeName "MLCP_UNILATERAL_3D_FRICTIONAL_CONSTRAINT" then
    (MLCP_UNILATERAL_3D_FRICTIONAL_CONSTRAINT, [])
  else if String.eqb typeName "MLCP_BILATERAL_FRICTIONLESS_SLIDING_CONSTRAINT" then
    (MLCP_BILATERAL_FRICTIONLESS_SLIDING_CONSTRAINT, [])
  else if String.eqb typeName "MLCP_BILATERAL_FRICTIONAL_SLIDING_CONSTRAINT" then
    (MLCP_BILATERAL_FRICTIONAL_SLIDING_CONSTRAINT, [])
  else
    (MLCP_INVALID_CONSTRAINT,
     [mkLogEntry WARNING "bad MLCP constraint type name" []]).

End MlcpNames.

(** ** Fem1DRepresentation.cpp *)

Module Fem1D.
Import Framework Math Eigen Ode.

Definition transformVectorByBlockOf3 (transform : RigidTransform3d) (x : Vector)
    (rotationOnly : bool) : Asserted Vector :=
  let numNodes := (length x / 6)%nat in
  if negb (numNodes * 6 =? length x)%nat then
    AssertionFailure "Unexpected number of dof in a Fem1D state vector (not a multiple of 6)"
  else
    Returns
      (foldl (fun x nodeId =>
                let xi := segment3 x (6 * nodeId) in
                setSegment3 x (6 * nodeId)
                  (if rotationOnly then Math.mulMV (linear transform) xi
                   else transformPoint transform xi))
             x (seq 0 numNodes))
      [].

(** [transformState]: positions by the transform, velocities and
    accelerations by its rotation. *)
Definition transformState (state : OdeState) (transform : RigidTransform3d)
    : Asserted OdeState :=
  match transformVectorByBlockOf3 transform (getPositions state) false with
  | AssertionFailure msg => AssertionFailure msg
  | Returns positions log1 =>
      match transformVectorByBlockOf3 transform (getVelocities state) true with
      | AssertionFailure msg => AssertionFailure msg
      | Returns velocities log2 =>
          match transformVectorByBlockOf3 transform (getAccelerations state) true with
          | AssertionFailure msg => AssertionFailure msg
          | Returns accelerations log3 =>
              Returns (mkOdeState positions velocities accelerations)
                      (log1 ++ log2 ++ log3)
          end
      end
  end.

End Fem1D.

(** ** More concrete systems *)

Module Examples.
Import Math Eigen Physics.

(** A tick with one constraint: the solver found [x = (2)], and [CHt] spreads
    it over the twelve degrees of freedom of the two representations. *)
Definition oneConstraint : PhysicsManagerState MassSpring.MassSpringRepresentation :=
  mkPhysicsManagerState [Chain.initialisedChain; Chain.freeParticles]
    (mkMlcpMapping (fun i => (6 * Z.of_nat i)%Z))
    (mkMlcpProblem [] [] [] (replicate 12 [0.5]))
    (mkMlcpSolution [2] []).

(** The same tick with a mapping that knows no representation. *)
Definition unmapped : PhysicsManagerState MassSpring.MassSpringRepresentation :=
  mkPhysicsManagerState [Chain.initialisedChain; Chain.freeParticles]
    (mkMlcpMapping (fun i => (-1)%Z))
    (mkMlcpProblem [] [] [] (replicate 12 [0.5]))
    (mkMlcpSolution [2] []).

(** Two free unit masses as in [Chain.freeParticles], in a representation
    that is not active. *)
Definition asleep : MassSpring.MassSpringRepresentation :=
  MassSpring.mkMassSpringRepresentation "asleep" false true (mkVector3d 0 (-9.81) 0) 6
    (makeTranslation Zero) MassSpring.INTEGRATIONSCHEME_EXPLICIT_EULER
    (MassSpring.mkRayleighDamping 0 0) [] Chain.freeNodes Chain.freeNodes
    [0; 0; 0; 1; 0; 0] [0; 0; 0; 1; 0; 0] [1; 0; 0; 0; 0; 0] [0; 0; 0; 0; 0; 0].

(** The two masses under gravity and a mass damping of 0.5, without springs. *)
Definition falling : MassSpring.MassSpringRepresentation :=
  MassSpring.mkMassSpringRepresentation "falling" true true (mkVector3d 0 (-9.81) 0) 6
    (makeTranslation Zero) MassSpring.INTEGRATIONSCHEME_EXPLICIT_EULER
    (MassSpring.mkRayleighDamping 0.5 0) [] Chain.freeNodes Chain.freeNodes
    [0; 0; 0; 1; 0; 0] [0; 0; 0; 1; 0; 0] [1; 0; 0; 0; 0; 0] [0; 0; 0; 0; 0; 0].

Definition springNodes : MassSpring.Mesh :=
  MassSpring.mkMesh (MassSpring.getVertices Chain.freeNodes)
    [MassSpring.mkEdge (0%nat, 1%nat) (MassSpring.mkLinearSpringParameter 3 0 0)].

(** The two masses joined by one spring, without gravity and damping. *)
Definition springPair : MassSpring.MassSpringRepresentation :=
  MassSpring.mkMassSpringRepresentation "pair" true false (mkVector3d 0 (-9.81) 0) 6
    (makeTranslation Zero) MassSpring.INTEGRATIONSCHEME_EXPLICIT_EULER
    (MassSpring.mkRayleighDamping 0 0) [] springNodes springNodes
    [0; 0; 0; 1; 0; 0] [0; 0; 0; 1; 0; 0] [1; 0; 0; 0; 0; 0] [0; 0; 0; 0; 0; 0].

(** The state of one Fem1D node: three translational and three rotational
    degrees of freedom. *)
Definition beamNode : Ode.OdeState :=
  Ode.mkOdeState [1; 2; 3; 0; 0; 0] [1; 0; 0; 0; 0; 1] [0; 0; 0; 0; 0; 0].

End Examples.

(** ** What the solvers ask of the matrix type and of the linear solver *)

Module OdeContract.
Import Eigen Ode.

Section Contract.

(** The template parameter [MT] with its product by a vector ([M * x]) and by
    a scalar ([M * (1.0 / dt)]), and the linear solver [m_solveAndInverse];
    their classes are not among the sources. *)
Variable MT : Type.
Variable mulM : MT -> Vector -> Vector.
Variable scaleM : MT -> R -> MT.
Variable solveAndInverse : MT -> Vector -> Vector * Matrix.



End Contract.
End OdeContract.

(** * Properties *)

(** ** Vectors *)

Module MathFacts.
Import Math.

Lemma squaredNorm_nonneg v : 0 <= squaredNorm v.
Proof. unfold squaredNorm. nra. Qed.

Lemma norm_square v : norm v * norm v = squaredNorm v.
Proof. apply sqrt_sqrt, squaredNorm_nonneg. Qed.

Lemma squaredNorm_zero v : squaredNorm v = 0 -> v = Zero.
Proof.
  destruct v as [a b c]. unfold squaredNorm, Zero. simpl. intros Hs.
  assert (a = 0) by nra. assert (b = 0) by nra. assert (c = 0) by nra.
  congruence.
Qed.

Lemma norm_zero v : norm v = 0 -> v = Zero.
Proof.
  intros Hn. apply squaredNorm_zero. rewrite <- norm_square, Hn. lra.
Qed.

Lemma norm_Zero : norm Zero = 0.
Proof.
  unfold norm, squaredNorm, Zero. simpl.
  replace (0 * 0 + 0 * 0 + 0 * 0) with 0 by lra. apply sqrt_0.
Qed.

Lemma norm_eq v d : 0 <= d -> squaredNorm v = d * d -> norm v = d.
Proof. intros Hd E. unfold norm. rewrite E. now apply sqrt_square. Qed.

Lemma vsub_eq_Zero a b : vsub a b = Zero -> a = b.
Proof.
  destruct a, b. unfold vsub, Zero. simpl. intros [= H1 H2 H3].
  f_equal; lra.
Qed.

Lemma vsub_diag a : vsub a a = Zero.
Proof. destruct a. unfold vsub, Zero. simpl. f_equal; lra. Qed.

(** Dividing a vector by its own non-zero norm gives a unit vector. *)
Lemma vdiv_norm_unit v :
  norm v <> 0 ->
  exists n, vdiv v (norm v) = Finite n /\ norm n = 1 /\ vscale n (norm v) = v.
Proof.
  intros Hn. unfold vdiv. destruct (Req_dec_T (norm v) 0) as [E|_]; [easy|].
  eexists. split; [reflexivity|]. split.
  - unfold norm at 1. unfold squaredNorm. simpl.
    replace (vx v / norm v * (vx v / norm v) + vy v / norm v * (vy v / norm v)
             + vz v / norm v * (vz v / norm v))
      with (squaredNorm v / (norm v * norm v)) by (unfold squaredNorm; field; exact Hn).
    assert (Hs : squaredNorm v <> 0).
    { rewrite <- norm_square. intros E. apply Hn. nra. }
    rewrite norm_square.
    replace (squaredNorm v / squaredNorm v) with 1 by (field; exact Hs).
    apply sqrt_1.
  - destruct v as [a b c]. unfold vscale. simpl. f_equal; field; exact Hn.
Qed.

(** A point at [r] times a unit vector from [c] lies on the sphere of radius
    [r] around [c]. *)
Lemma on_sphere c n r :
  norm n = 1 ->
  norm (vsub (vsub c (vscale n r)) c) = Rabs r
  /\ norm (vsub (vadd c (vscale n r)) c) = Rabs r.
Proof.
  intros Hn.
  assert (Hs : squaredNorm n = 1) by (rewrite <- norm_square, Hn; lra).
  unfold norm. split.
  - replace (squaredNorm (vsub (vsub c (vscale n r)) c)) with (Rsqr r).
    + apply sqrt_Rsqr_abs.
    + unfold Rsqr. rewrite <- (Rmult_1_r (r * r)), <- Hs.
      unfold squaredNorm, vsub, vscale. simpl. ring.
  - replace (squaredNorm (vsub (vadd c (vscale n r)) c)) with (Rsqr r).
    + apply sqrt_Rsqr_abs.
    + unfold Rsqr. rewrite <- (Rmult_1_r (r * r)), <- Hs.
      unfold squaredNorm, vsub, vadd, vscale. simpl. ring.
Qed.

Lemma vdiv_zero v : vdiv v 0 = NotANumber.
Proof. unfold vdiv. destruct (Req_dec_T 0 0); [reflexivity|easy]. Qed.

(** The model of [indexOfMinimum] answers the first axis that reaches the
    minimum. *)
Lemma indexOfMinimum_first a b c :
  let i := indexOfMinimum a b c in
  (i < 3)%nat
  /\ (forall j, (j < 3)%nat -> coeff (mkVector3d a b c) i <= coeff (mkVector3d a b c) j)
  /\ (forall j, (j < i)%nat -> coeff (mkVector3d a b c) i < coeff (mkVector3d a b c) j).
Proof.
  unfold indexOfMinimum.
  destruct (Rle_dec a b) as [Hab|Hab]; [destruct (Rle_dec a c) as [Hac|Hac]
                                        | destruct (Rle_dec b c) as [Hbc|Hbc]];
    simpl; (split; [lia|]); split; intros [|[|[|j]]] Hj; simpl; try lra; try lia.
Qed.

End MathFacts.

(** ** Sphere-sphere contacts *)

Module SphereSphereProofs.
Import Math Collision MathFacts.

(** Rewrites the norm of a concrete vector into its value [d]. *)
Ltac eval_norm d :=
  match goal with
  | |- context [norm ?v] =>
      let E := fresh "E" in
      assert (E : norm v = d)
        by (apply norm_eq; [lra | unfold squaredNorm, vsub; simpl; lra]);
      rewrite !E; clear E
  end.

Lemma sphere_overlap r1 r2 pose1 pose2 contacts :
  norm (vsub (translation pose1) (translation pose2)) < r1 + r2 ->
  SphereSphere.doCalculateContact (spherePair r1 r2 pose1 pose2 contacts) =
  Done (spherePair r1 r2 pose1 pose2
          (contacts ++
           [mkContact (r1 + r2 - norm (vsub (translation pose1) (translation pose2)))
              (normalize (vsub (translation pose1) (translation pose2)))
              (mkLocation (Some (fmap3 (fun n => vsub (translation pose1) (vscale n r1))
                                   (normalize (vsub (translation pose1) (translation pose2))))),
               mkLocation (Some (fmap3 (fun n => vadd (translation pose2) (vscale n r2))
                                   (normalize (vsub (translation pose1) (translation pose2))))))])).
Proof.
  intros Hlt. unfold SphereSphere.doCalculateContact, spherePair. simpl.
  destruct (Rlt_dec _ _) as [_|Hn]; [reflexivity | contradiction].
Qed.

Lemma sphere_apart r1 r2 pose1 pose2 contacts :
  ~ norm (vsub (translation pose1) (translation pose2)) < r1 + r2 ->
  SphereSphere.doCalculateContact (spherePair r1 r2 pose1 pose2 contacts) =
  Done (spherePair r1 r2 pose1 pose2 contacts).
Proof.
  intros Hge. unfold SphereSphere.doCalculateContact, spherePair. simpl.
  destruct (Rlt_dec _ _) as [Hlt|_]; [contradiction | reflexivity].
Qed.

(** With coinciding centres and a positive sum of radii a contact is added
    whose normal is the zero vector divided by its zero norm. *)
Lemma coincident_spheres_not_a_number r1 r2 pose1 pose2 contacts :
  translation pose1 = translation pose2 -> 0 < r1 + r2 ->
  SphereSphere.doCalculateContact (spherePair r1 r2 pose1 pose2 contacts) =
  Done (spherePair r1 r2 pose1 pose2
          (contacts ++ [mkContact (r1 + r2 - 0) NotANumber
                          (mkLocation (Some NotANumber), mkLocation (Some NotANumber))])).
Proof.
  intros Ec Hr.
  assert (Hn : norm (vsub (translation pose1) (translation pose2)) = 0).
  { rewrite Ec, vsub_diag. apply norm_Zero. }
  rewrite sphere_overlap by (rewrite Hn; exact Hr).
  unfold normalize. rewrite Hn, vdiv_zero. reflexivity.
Qed.

(** For every pair of spheres, [doCalculateContact] appends exactly one
    contact when the distance of the centres is below the sum of the radii
    and leaves the pair as it is otherwise.  The depth of the contact is the
    sum of the radii minus the distance; when the centres differ, so that
    there is a unit vector from the second centre toward the first, the
    normal is that vector and the penetration points lie on the two spheres
    along it (at the radius from each centre).  For unit spheres at (0,0,0) and (1.5,0,0) the depth is 0.5,
    the normal (-1,0,0) and the points (1,0,0) and (0.5,0,0); in the other
    order the normal is (1,0,0). *)
Lemma sphere_sphere_contact :
  forall (r1 r2 : R) (pose1 pose2 : RigidTransform3d) (contacts : list Contact),
    let c1 := translation pose1 in
    let c2 := translation pose2 in
    let dist := norm (vsub c1 c2) in
    (dist < r1 + r2 ->
     exists c,
       SphereSphere.doCalculateContact (spherePair r1 r2 pose1 pose2 contacts) =
         Done (spherePair r1 r2 pose1 pose2 (contacts ++ [c]))
       /\ depth c = r1 + r2 - dist
       /\ (c1 <> c2 ->
           exists n,
             normal c = Finite n /\ norm n = 1 /\ vscale n dist = vsub c1 c2
             /\ penetrationPoints c =
                  (mkLocation (Some (Finite (vsub c1 (vscale n r1)))),
                   mkLocation (Some (Finite (vadd c2 (vscale n r2)))))
             /\ norm (vsub (vsub c1 (vscale n r1)) c1) = Rabs r1
             /\ norm (vsub (vadd c2 (vscale n r2)) c2) = Rabs r2))
    /\ (~ dist < r1 + r2 ->
        SphereSphere.doCalculateContact (spherePair r1 r2 pose1 pose2 contacts) =
          Done (spherePair r1 r2 pose1 pose2 contacts))
    /\ SphereSphere.doCalculateContact
         (spherePair 1 1 (makeTranslation (mkVector3d 0 0 0))
                     (makeTranslation (mkVector3d 1.5 0 0)) []) =
       Done (spherePair 1 1 (makeTranslation (mkVector3d 0 0 0))
               (makeTranslation (mkVector3d 1.5 0 0))
               [mkContact 0.5 (Finite (mkVector3d (-1) 0 0))
                  (mkLocation (Some (Finite (mkVector3d 1.0 0 0))),
                   mkLocation (Some (Finite (mkVector3d 0.5 0 0))))])
    /\ SphereSphere.doCalculateContact
         (spherePair 1 1 (makeTranslation (mkVector3d 1.5 0 0))
                     (makeTranslation (mkVector3d 0 0 0)) []) =
       Done (spherePair 1 1 (makeTranslation (mkVector3d 1.5 0 0))
               (makeTranslation (mkVector3d 0 0 0))
               [mkContact 0.5 (Finite (mkVector3d 1 0 0))
                  (mkLocation (Some (Finite (mkVector3d 0.5 0 0))),
                   mkLocation (Some (Finite (mkVector3d 1.0 0 0))))]).
Proof.
  intros r1 r2 pose1 pose2 contacts c1 c2 dist. repeat split.
  - intros Hlt. eexists. split; [apply sphere_overlap; exact Hlt|].
    split; [reflexivity|]. intros Hne. simpl.
    assert (Hn : norm (vsub c1 c2) <> 0).
    { intros E. apply Hne, vsub_eq_Zero, norm_zero, E. }
    destruct (vdiv_norm_unit _ Hn) as (n & En & Hunit & Hscale).
    exists n. unfold normalize. fold c1 c2. rewrite En. simpl.
    destruct (on_sphere c1 n r1 Hunit) as [Hon1 _].
    destruct (on_sphere c2 n r2 Hunit) as [_ Hon2]. auto 10.
  - apply sphere_apart.
  - rewrite sphere_overlap; unfold normalize; eval_norm 1.5; [|lra].
    unfold vdiv. destruct (Req_dec_T 1.5 0) as [E|_]; [lra|].
    unfold spherePair, vsub, vadd, vscale; simpl.
    repeat (f_equal; try lra).
  - rewrite sphere_overlap; unfold normalize; eval_norm 1.5; [|lra].
    unfold vdiv. destruct (Req_dec_T 1.5 0) as [E|_]; [lra|].
    unfold spherePair, vsub, vadd, vscale; simpl.
    repeat (f_equal; try lra).
Qed.

(** The unit spheres at (0,0,0) and (1.5,0,0) overlap and their centres
    differ: the contact has a unit normal. *)
Lemma sphere_sphere_contact_witness :
  exists c n,
    SphereSphere.doCalculateContact
      (spherePair 1 1 Scene.atOrigin Scene.alongX []) =
      Done (spherePair 1 1 Scene.atOrigin Scene.alongX [c])
    /\ normal c = Finite n /\ norm n = 1.
Proof.
  destruct (sphere_sphere_contact 1 1 Scene.atOrigin Scene.alongX []) as (Hin & _).
  destruct Hin as (c & Hc & _ & Hn).
  { simpl. eval_norm 1.5. lra. }
  destruct Hn as (n & En & Hunit & _).
  { simpl. intros [= E]. lra. }
  exists c, n. auto.
Defined.

(** C1. Two unit spheres with the same centre: the distance 0 of the centres
    is below the sum 2 of the radii, so one contact is appended, and its
    depth is the sum of the radii minus the distance.  But the normal of
    that contact is no vector, hence not the unit vector from the second
    centre toward the first, and neither penetration point is a point. *)
Theorem sphere_sphere_contact_coincident :
  norm (vsub (translation Scene.atOrigin) (translation Scene.atOrigin)) < 1 + 1
  /\ exists c,
       SphereSphere.doCalculateContact
         (spherePair 1 1 Scene.atOrigin Scene.atOrigin []) =
       Done (spherePair 1 1 Scene.atOrigin Scene.atOrigin [c])
       /\ depth c =
          1 + 1 - norm (vsub (translation Scene.atOrigin) (translation Scene.atOrigin))
       /\ (forall n, normal c <> Finite n)
       /\ (forall p, fst (penetrationPoints c) <> mkLocation (Some (Finite p)))
       /\ (forall p, snd (penetrationPoints c) <> mkLocation (Some (Finite p))).
Proof.
  assert (Hn : norm (vsub (translation Scene.atOrigin) (translation Scene.atOrigin)) = 0).
  { rewrite vsub_diag. apply norm_Zero. }
  rewrite Hn. split; [lra|].
  eexists. split.
  - rewrite coincident_spheres_not_a_number by (reflexivity || lra). reflexivity.
  - simpl. repeat split; discriminate.
Qed.

(** C3. Two unit spheres with the same centre: the distance 0 is below the
    sum of the radii, no epsilon is consulted, the zero vector is normalized
    and the contact is added with a normal and penetration points that are
    not numbers. *)
Theorem sphere_sphere_coincident_centers :
  SphereSphere.doCalculateContact
    (spherePair 1 1 Scene.atOrigin Scene.atOrigin []) =
  Done (spherePair 1 1 Scene.atOrigin Scene.atOrigin
          [mkContact 2 NotANumber
             (mkLocation (Some NotANumber), mkLocation (Some NotANumber))]).
Proof.
  rewrite coincident_spheres_not_a_number by (reflexivity || lra).
  simpl. do 4 f_equal. lra.
Qed.

End SphereSphereProofs.

(** ** Box-sphere contacts *)

Module BoxSphereProofs.
Import Math Collision MathFacts.

Lemma local_center boxPose :
  transformPoint (inverse boxPose) (translation boxPose) = Zero.
Proof.
  unfold transformPoint, inverse, vadd, vopp, Zero. simpl. f_equal; lra.
Qed.

Lemma clamp_zero b : 0 <= b -> Rmax (- b) (Rmin b 0) = 0.
Proof.
  intros Hb. rewrite Rmin_right by lra. apply Rmax_right. lra.
Qed.

(** The normal of a box-sphere contact is never the result of a division by
    zero: outside the box the squared distance exceeds the epsilon. *)
Lemma box_sphere_normal_finite DistanceEpsilon SquaredDistanceEpsilon
    sizeX sizeY sizeZ radius boxPose spherePose contacts :
  0 <= SquaredDistanceEpsilon ->
  BoxSphere.doCalculateContact DistanceEpsilon SquaredDistanceEpsilon
    (boxSpherePair sizeX sizeY sizeZ radius boxPose spherePose contacts) =
    Done (boxSpherePair sizeX sizeY sizeZ radius boxPose spherePose contacts)
  \/ exists d n pts,
    BoxSphere.doCalculateContact DistanceEpsilon SquaredDistanceEpsilon
      (boxSpherePair sizeX sizeY sizeZ radius boxPose spherePose contacts) =
    Done (boxSpherePair sizeX sizeY sizeZ radius boxPose spherePose
            (contacts ++ [mkContact d (Finite n) pts])).
Proof.
  intros Heps. unfold BoxSphere.doCalculateContact, boxSpherePair.
  cbn [getFirst getSecond getShape getPose].
  destruct (Rgt_dec _ _) as [_|_]; [left; reflexivity|right].
  destruct (Rle_dec _ _) as [_|Hout].
  - do 3 eexists. reflexivity.
  - match goal with |- context [vdiv ?v (norm ?v)] =>
      assert (Hn : norm v <> 0)
        by (intros E; apply Hout; rewrite <- norm_square, E; lra);
      destruct (vdiv_norm_unit v Hn) as (n & En & _); rewrite En
    end.
    do 3 eexists. reflexivity.
Qed.

Section Epsilons.
Variables DistanceEpsilon SquaredDistanceEpsilon : R.
Hypothesis DistanceEpsilon_pos : 0 < DistanceEpsilon.
Hypothesis SquaredDistanceEpsilon_pos : 0 < SquaredDistanceEpsilon.

Lemma box_sphere_center_evaluation sizeX sizeY sizeZ radius boxPose sphereLinear contacts :
  0 <= sizeX -> 0 <= sizeY -> 0 <= sizeZ -> 0 <= radius ->
  let halfExtent := mkVector3d (sizeX * 0.5) (sizeY * 0.5) (sizeZ * 0.5) in
  let axis := indexOfMinimum (sizeX * 0.5) (sizeY * 0.5) (sizeZ * 0.5) in
  BoxSphere.doCalculateContact DistanceEpsilon SquaredDistanceEpsilon
    (boxSpherePair sizeX sizeY sizeZ radius boxPose
       (mkRigidTransform3d sphereLinear (translation boxPose)) contacts) =
  Done (boxSpherePair sizeX sizeY sizeZ radius boxPose
          (mkRigidTransform3d sphereLinear (translation boxPose))
          (contacts ++
           [mkContact (coeff halfExtent axis + radius)
              (Finite (mulMV (linear boxPose) (setCoeff Zero axis 1)))
              (mkLocation (Some (Finite (transformPoint boxPose
                                           (setCoeff Zero axis (coeff halfExtent axis))))),
               mkLocation (Some (Finite (vadd (translation boxPose)
                                           (vscale (mulMV (linear boxPose) (setCoeff Zero axis 1))
                                                   radius)))))])).
Proof using DistanceEpsilon_pos SquaredDistanceEpsilon_pos.
  intros Hx Hy Hz Hr halfExtent axis.
  unfold BoxSphere.doCalculateContact, boxSpherePair.
  cbn [getFirst getSecond getShape getPose translation].
  rewrite local_center. cbn [vx vy vz Zero].
  rewrite !clamp_zero by lra.
  change (mkVector3d 0 0 0) with Zero. rewrite vsub_diag.
  assert (Hs : squaredNorm Zero = 0) by (unfold squaredNorm, Zero; simpl; lra).
  rewrite Hs.
  destruct (Rgt_dec (0 - radius * radius) SquaredDistanceEpsilon) as [Hgt|_]; [nra|].
  destruct (Rle_dec 0 SquaredDistanceEpsilon) as [_|Hn]; [|lra].
  cbn [vx vy vz Zero]. rewrite Rabs_R0, !Rminus_0_r.
  fold axis.
  assert (Hc : coeff Zero axis = 0)
    by (destruct axis as [|[|?]]; reflexivity).
  rewrite Hc.
  destruct (Rgt_dec 0 (- DistanceEpsilon)) as [_|Hn]; [|lra].
  assert (Hh : 0 <= coeff halfExtent axis).
  { subst halfExtent. destruct axis as [|[|?]]; simpl; lra. }
  change {| vx := sizeX * 0.5; vy := sizeY * 0.5; vz := sizeZ * 0.5 |} with halfExtent.
  cbn [addContact getFirst getSecond getContacts linear translation fmap3].
  rewrite Rmult_1_r.
  replace (Rabs (- Rabs (coeff halfExtent axis) - radius))
    with (coeff halfExtent axis + radius).
  2:{ rewrite (Rabs_pos_eq _ Hh). rewrite Rabs_left1 by lra. lra. }
  reflexivity.
Qed.

End Epsilons.

(** C2. A sphere whose centre is the centre of the box: exactly one contact
    is appended; its normal is the box axis (in the pose of the box) of the
    nearest pair of faces, which is the first axis in the order x, y, z
    whose half-extent is minimal, and its depth is that half-extent plus the
    radius. *)
Theorem box_sphere_center_contact :
  forall (DistanceEpsilon SquaredDistanceEpsilon sizeX sizeY sizeZ radius : R)
         (boxPose : RigidTransform3d) (sphereLinear : Matrix33d)
         (contacts : list Contact),
    0 < DistanceEpsilon -> 0 < SquaredDistanceEpsilon ->
    0 <= sizeX -> 0 <= sizeY -> 0 <= sizeZ -> 0 <= radius ->
    let halfExtent := mkVector3d (sizeX * 0.5) (sizeY * 0.5) (sizeZ * 0.5) in
    exists (axis : nat) (c : Contact),
      BoxSphere.doCalculateContact DistanceEpsilon SquaredDistanceEpsilon
        (boxSpherePair sizeX sizeY sizeZ radius boxPose
           (mkRigidTransform3d sphereLinear (translation boxPose)) contacts) =
      Done (boxSpherePair sizeX sizeY sizeZ radius boxPose
              (mkRigidTransform3d sphereLinear (translation boxPose))
              (contacts ++ [c]))
      /\ (axis < 3)%nat
      /\ (forall j, (j < 3)%nat -> coeff halfExtent axis <= coeff halfExtent j)
      /\ (forall j, (j < axis)%nat -> coeff halfExtent axis < coeff halfExtent j)
      /\ normal c = Finite (mulMV (linear boxPose) (setCoeff Zero axis 1))
      /\ depth c = coeff halfExtent axis + radius.
Proof.
  intros eps eps2 sizeX sizeY sizeZ radius boxPose sphereLinear contacts
         He He2 Hx Hy Hz Hr halfExtent.
  destruct (indexOfMinimum_first (sizeX * 0.5) (sizeY * 0.5) (sizeZ * 0.5))
    as (Hlt & Hmin & Hfirst).
  exists (indexOfMinimum (sizeX * 0.5) (sizeY * 0.5) (sizeZ * 0.5)). eexists.
  split; [apply box_sphere_center_evaluation; assumption|].
  repeat split; assumption.
Qed.

(** A unit sphere in the middle of a 2 x 4 x 6 box: the x faces are nearest. *)
Lemma box_sphere_center_contact_witness :
  exists c,
    BoxSphere.doCalculateContact Scene.epsilon Scene.epsilon
      (boxSpherePair 2 4 6 1 Scene.alongX Scene.alongX []) =
    Done (boxSpherePair 2 4 6 1 Scene.alongX Scene.alongX [c])
    /\ normal c = Finite (mkVector3d 1 0 0) /\ depth c = 2.
Proof.
  destruct (box_sphere_center_contact Scene.epsilon Scene.epsilon 2 4 6 1
              Scene.alongX Identity33 [])
    as (axis & c & Hc & _ & Hmin & Hfirst & Hn & Hd);
    try (unfold Scene.epsilon; lra).
  assert (Haxis : axis = 0%nat).
  { destruct axis as [|[|axis]]; [reflexivity| |].
    - specialize (Hfirst 0%nat ltac:(lia)). simpl in Hfirst. lra.
    - specialize (Hmin 0%nat ltac:(lia)). simpl in Hmin. lra. }
  subst axis. exists c. split; [exact Hc|]. split.
  - rewrite Hn. unfold mulMV, dot. simpl. f_equal. f_equal; lra.
  - rewrite Hd. simpl. lra.
Defined.

End BoxSphereProofs.

(** ** calculateContact *)

Module ContactCalculationProofs.
Import Math Collision.

Lemma ShapeType_eqb_eq a b : ShapeType_eqb a b = true <-> a = b.
Proof. destruct a, b; simpl; split; intros; congruence. Qed.

Lemma ShapeType_eqb_neq a b : ShapeType_eqb a b = false <-> a <> b.
Proof.
  destruct (ShapeType_eqb a b) eqn:E.
  - apply ShapeType_eqb_eq in E. split; [discriminate | contradiction].
  - split; [|reflexivity]. intros _ Hab. apply ShapeType_eqb_eq in Hab. congruence.
Qed.

Lemma needsSwap_spec calc t1 t2 :
  needsSwap calc t1 t2 = true <->
  t1 <> t2 /\ t1 = snd (getShapeTypes calc) /\ t2 = fst (getShapeTypes calc).
Proof.
  unfold needsSwap. rewrite !andb_true_iff, negb_true_iff.
  rewrite ShapeType_eqb_neq, !ShapeType_eqb_eq. tauto.
Qed.

(** C9, as the code has it.  [calculateContact] delegates the pair after one
    test: a pair whose shape types are the declared (typeA, typeB) in
    reverse, with typeA different from typeB, is swapped first; every other
    pair is passed as it is.  Hence a pair made of the two declared types, in
    either order, reaches [doCalculateContact] in the declared order. *)
Theorem calculateContact_swaps_reversed :
  forall (calc : ContactCalculation) (pair : CollisionPair) (typeA typeB : ShapeType),
    getShapeTypes calc = (typeA, typeB) ->
    calculateContact calc pair = doCalculateContact calc (delegatedPair calc pair)
    /\ (shapeTypesOf pair = (typeB, typeA) -> typeA <> typeB ->
        delegatedPair calc pair = swapRepresentations pair)
    /\ (shapeTypesOf pair = (typeB, typeA) \/ shapeTypesOf pair = (typeA, typeB) ->
        shapeTypesOf (delegatedPair calc pair) = (typeA, typeB))
    /\ (~ (shapeTypesOf pair = (typeB, typeA) /\ typeA <> typeB) ->
        delegatedPair calc pair = pair).
Proof.
  intros calc pair typeA typeB Hdecl. unfold shapeTypesOf, delegatedPair.
  split; [reflexivity|].
  destruct (needsSwap calc _ _) eqn:Hswap.
  - apply needsSwap_spec in Hswap. rewrite Hdecl in Hswap. simpl in Hswap.
    destruct Hswap as (Hne & H1 & H2).
    split; [reflexivity|]. split.
    + intros _. simpl. congruence.
    + intros Hno. exfalso. apply Hno. split; congruence.
  - split.
    + intros [= H1 H2] Hne.
      assert (needsSwap calc (getShapeType (getFirst pair))
                (getShapeType (getSecond pair)) = true); [|congruence].
      apply needsSwap_spec. rewrite Hdecl. simpl. repeat split; congruence.
    + split; [|reflexivity]. intros [[= H1 H2]|E]; [|exact E].
      destruct (ShapeType_eqb typeA typeB) eqn:Eab;
        [apply ShapeType_eqb_eq in Eab; congruence | apply ShapeType_eqb_neq in Eab].
      assert (needsSwap calc (getShapeType (getFirst pair))
                (getShapeType (getSecond pair)) = true); [|congruence].
      apply needsSwap_spec. rewrite Hdecl. simpl. repeat split; congruence.
Qed.

(** A sphere and a box given to the box-sphere calculation are swapped. *)
Lemma calculateContact_swaps_reversed_witness :
  delegatedPair (BoxSphereDcdContact Scene.epsilon Scene.epsilon) Scene.sphereThenBox
    = swapRepresentations Scene.sphereThenBox
  /\ shapeTypesOf
       (delegatedPair (BoxSphereDcdContact Scene.epsilon Scene.epsilon)
          Scene.sphereThenBox)
     = (RIGID_SHAPE_TYPE_BOX, RIGID_SHAPE_TYPE_SPHERE).
Proof.
  destruct (calculateContact_swaps_reversed
              (BoxSphereDcdContact Scene.epsilon Scene.epsilon) Scene.sphereThenBox
              RIGID_SHAPE_TYPE_BOX RIGID_SHAPE_TYPE_SPHERE eq_refl)
    as (_ & Hswap & Horder & _).
  split.
  - apply Hswap; [reflexivity | discriminate].
  - apply Horder. left. reflexivity.
Defined.

(** Against C9 as the specification words it: the placeholder calculation
    declares (NONE, NONE); a sphere-box pair does not match that, is handed
    over without a swap, and its shape types are not the declared ones. *)
Lemma default_calculation_not_swapped :
  shapeTypesOf Scene.sphereThenBox <> getShapeTypes (DefaultContactCalculation false)
  /\ delegatedPair (DefaultContactCalculation false) Scene.sphereThenBox
     = Scene.sphereThenBox
  /\ delegatedPair (DefaultContactCalculation false) Scene.sphereThenBox
     <> swapRepresentations Scene.sphereThenBox
  /\ shapeTypesOf (delegatedPair (DefaultContactCalculation false) Scene.sphereThenBox)
     <> getShapeTypes (DefaultContactCalculation false).
Proof.
  repeat split; discriminate.
Qed.

End ContactCalculationProofs.

(** ** The constraint implementation factory *)

Module FactoryProofs.
Import Framework Factory.

Section Counts.
Variables REPRESENTATION_TYPE_COUNT MLCP_NUM_CONSTRAINT_TYPES : Z.

Local Abbreviation add := (addImplementation REPRESENTATION_TYPE_COUNT MLCP_NUM_CONSTRAINT_TYPES).
Local Abbreviation adds := (addImplementations REPRESENTATION_TYPE_COUNT MLCP_NUM_CONSTRAINT_TYPES).
Local Abbreviation get := (getImplementation REPRESENTATION_TYPE_COUNT MLCP_NUM_CONSTRAINT_TYPES).
Local Abbreviation empty := (emptyFactory REPRESENTATION_TYPE_COUNT MLCP_NUM_CONSTRAINT_TYPES).
Local Abbreviation dimensioned := (Factory.dimensioned REPRESENTATION_TYPE_COUNT MLCP_NUM_CONSTRAINT_TYPES).

Lemma inRange_spec i count : inRange i count = true <-> (0 <= i < count)%Z.
Proof. unfold inRange. rewrite andb_true_iff, Z.leb_le, Z.ltb_lt. tauto. Qed.

Lemma dimensioned_empty : dimensioned empty.
Proof.
  split; simpl.
  - apply length_replicate.
  - apply Forall_replicate. apply length_replicate.
Qed.

Lemma dimensioned_add impl f f' :
  dimensioned f -> add impl f = Some f' -> dimensioned f'.
Proof.
  intros [Hl Hrows]. unfold addImplementation.
  destruct (_ && _); [|discriminate]. intros [= <-]. split; simpl.
  - rewrite length_alter. exact Hl.
  - apply Forall_alter; [exact Hrows|].
    intros row _ Hrow. rewrite length_insert. exact Hrow.
Qed.

Lemma at2_add_same impl f f' :
  dimensioned f -> add impl f = Some f' ->
  inRange (getRepresentationType impl) REPRESENTATION_TYPE_COUNT = true
  /\ inRange (getMlcpConstraintType impl) MLCP_NUM_CONSTRAINT_TYPES = true
  /\ at2 f' (getRepresentationType impl) (getMlcpConstraintType impl) = Some impl.
Proof.
  intros [Hl Hrows]. unfold addImplementation.
  destruct (inRange _ _) eqn:Hr; [|discriminate].
  destruct (inRange (getMlcpConstraintType impl) _) eqn:Hc; [|discriminate].
  simpl. intros [= <-]. split; [reflexivity|]. split; [reflexivity|].
  apply inRange_spec in Hr, Hc. unfold at2. simpl.
  destruct (lookup_lt_is_Some_2 (m_implementations f)
              (Z.to_nat (getRepresentationType impl))) as [row Hrow]; [lia|].
  rewrite list_lookup_alter, Hrow. simpl.
  destruct (decide _) as [_|Hn]; [|contradiction].
  rewrite list_lookup_insert_eq; [reflexivity|].
  pose proof (Forall_lookup_1 _ _ _ _ Hrows Hrow) as Hlen. simpl in Hlen. lia.
Qed.

Lemma at2_add_other impl f f' r c :
  add impl f = Some f' -> (0 <= r)%Z -> (0 <= c)%Z ->
  typesOf impl <> (r, c) -> at2 f' r c = at2 f r c.
Proof.
  unfold addImplementation, typesOf.
  destruct (inRange _ _) eqn:Hr; [|discriminate].
  destruct (inRange (getMlcpConstraintType impl) _) eqn:Hc; [|discriminate].
  simpl. intros [= <-] Hr0 Hc0 Hne.
  apply inRange_spec in Hr, Hc. unfold at2. simpl.
  destruct (decide (Z.to_nat (getRepresentationType impl) = Z.to_nat r)) as [E|E].
  - rewrite E, list_lookup_alter.
    destruct (decide _) as [_|Hn]; [|contradiction].
    destruct (m_implementations f !! Z.to_nat r) as [row|]; [simpl|reflexivity].
    rewrite list_lookup_insert_ne; [reflexivity|].
    intros E'. apply Hne. f_equal; lia.
  - rewrite list_lookup_alter_ne by exact E. reflexivity.
Qed.

Lemma at2_empty r c : at2 empty r c = None.
Proof.
  unfold at2. simpl.
  destruct (replicate _ _ !! Z.to_nat r) as [row|] eqn:E; [|reflexivity].
  apply lookup_replicate in E as [-> _].
  destruct (replicate _ _ !! Z.to_nat c) as [p|] eqn:E'; [|reflexivity].
  apply lookup_replicate in E' as [-> _]. reflexivity.
Qed.

Lemma adds_dimensioned impls : forall f f',
  dimensioned f -> adds impls f = Some f' -> dimensioned f'.
Proof.
  induction impls as [|i rest IH]; simpl; intros f f' Hd.
  - now intros [= <-].
  - destruct (add i f) as [f1|] eqn:E; [|discriminate].
    apply IH. eapply dimensioned_add; eassumption.
Qed.

Lemma adds_other impls r c : forall f f',
  adds impls f = Some f' -> (0 <= r)%Z -> (0 <= c)%Z ->
  Forall (fun i => typesOf i <> (r, c)) impls ->
  at2 f' r c = at2 f r c.
Proof.
  induction impls as [|i rest IH]; simpl; intros f f' Hadds Hr Hc Hall.
  - now injection Hadds as <-.
  - destruct (add i f) as [f1|] eqn:E; [|discriminate].
    apply Forall_cons in Hall as [Hi Hrest].
    rewrite (IH _ _ Hadds Hr Hc Hrest).
    eapply at2_add_other; eassumption.
Qed.

Lemma adds_app before after : forall f f',
  adds (before ++ after) f = Some f' ->
  exists f1, adds before f = Some f1 /\ adds after f1 = Some f'.
Proof.
  induction before as [|i rest IH]; simpl; intros f f' Hadds.
  - eauto.
  - destruct (add i f) as [f1|]; [|discriminate]. now apply IH.
Qed.

Lemma get_in_range f r c :
  inRange r REPRESENTATION_TYPE_COUNT = true ->
  inRange c MLCP_NUM_CONSTRAINT_TYPES = true ->
  get f r c =
  Returns (at2 f r c)
    (match at2 f r c with
     | None => [mkLogEntry WARNING "No constraint implementation for representation type and constraint type" [r; c]]
     | Some _ => []
     end).
Proof. intros Hr Hc. unfold getImplementation. now rewrite Hr, Hc. Qed.

End Counts.

(** C4. A registered implementation is what [getImplementation] returns for
    its pair of types, without a warning, also after further registrations
    for other pairs; for a pair in range that no registration names,
    [getImplementation] returns [nullptr] and logs one warning.  In both
    cases the call returns: no assertion fails. *)
Theorem factory_round_trip :
  forall REPRESENTATION_TYPE_COUNT MLCP_NUM_CONSTRAINT_TYPES : Z,
  (forall before impl after f,
      addImplementations REPRESENTATION_TYPE_COUNT MLCP_NUM_CONSTRAINT_TYPES
        (before ++ impl :: after)
        (emptyFactory REPRESENTATION_TYPE_COUNT MLCP_NUM_CONSTRAINT_TYPES) = Some f ->
      Forall (fun i => typesOf i <> typesOf impl) after ->
      getImplementation REPRESENTATION_TYPE_COUNT MLCP_NUM_CONSTRAINT_TYPES f
        (getRepresentationType impl) (getMlcpConstraintType impl)
      = Returns (Some impl) [])
  /\ (forall impls f r c,
      addImplementations REPRESENTATION_TYPE_COUNT MLCP_NUM_CONSTRAINT_TYPES impls
        (emptyFactory REPRESENTATION_TYPE_COUNT MLCP_NUM_CONSTRAINT_TYPES) = Some f ->
      inRange r REPRESENTATION_TYPE_COUNT = true ->
      inRange c MLCP_NUM_CONSTRAINT_TYPES = true ->
      Forall (fun i => typesOf i <> (r, c)) impls ->
      getImplementation REPRESENTATION_TYPE_COUNT MLCP_NUM_CONSTRAINT_TYPES f r c =
      Returns None
        [mkLogEntry WARNING "No constraint implementation for representation type and constraint type" [r; c]]).
Proof.
  intros RC NC. split.
  - intros before impl after f Hadds Hafter.
    apply adds_app in Hadds as (f1 & H1 & H2). simpl in H2.
    destruct (addImplementation RC NC impl f1) as [f2|] eqn:E; [|discriminate].
    pose proof (adds_dimensioned _ _ _ _ _ (dimensioned_empty RC NC) H1) as Hd.
    destruct (at2_add_same _ _ _ _ _ Hd E) as (Hr & Hc & Hat).
    rewrite get_in_range by assumption.
    pose proof Hr as Hr'. pose proof Hc as Hc'.
    apply inRange_spec in Hr', Hc'.
    rewrite (adds_other _ _ _ _ _ _ _ H2) by (lia || exact Hafter).
    rewrite Hat. reflexivity.
  - intros impls f r c Hadds Hr Hc Hall.
    rewrite get_in_range by assumption.
    pose proof Hr as Hr'. pose proof Hc as Hc'.
    apply inRange_spec in Hr', Hc'.
    rewrite (adds_other _ _ _ _ _ _ _ Hadds) by (lia || exact Hall).
    rewrite at2_empty. reflexivity.
Qed.

(** Five representation types, seven constraint types, two registrations:
    the rigid contact is found again, the pair (4, 6) is not registered. *)
Lemma factory_round_trip_witness :
  (exists f,
     addImplementations 5 7 [Scene.rigidContact; Scene.fixedContact] (emptyFactory 5 7)
       = Some f
     /\ getImplementation 5 7 f 1 3 = Returns (Some Scene.rigidContact) []
     /\ getImplementation 5 7 f 4 6 =
        Returns None
          [mkLogEntry WARNING "No constraint implementation for representation type and constraint type" [4%Z; 6%Z]]).
Proof.
  destruct (factory_round_trip 5 7) as [Hfound Hmissing].
  eexists. split; [reflexivity|]. split.
  - apply (Hfound [] Scene.rigidContact [Scene.fixedContact]); [reflexivity|].
    repeat constructor. discriminate.
  - apply (Hmissing [Scene.rigidContact; Scene.fixedContact]);
      try reflexivity.
    repeat constructor; discriminate.
Defined.

End FactoryProofs.

(** ** Push-results and the correction of a mass-spring representation *)

Module PushResultsProofs.
Import Framework Eigen Physics.

(** C5. With an empty solution vector [x], [doUpdate] returns the state it
    was given: no correction is computed and no representation is touched. *)
Theorem push_results_empty_solution :
  forall (Rep : Type) (R_ops : Representation Rep) (dt : R)
         (state : PhysicsManagerState Rep),
    x (getMlcpSolution state) = [] ->
    doUpdate dt state = Returns state [].
Proof.
  intros Rep R_ops dt state Hx. unfold doUpdate. rewrite Hx. reflexivity.
Qed.

Lemma push_results_empty_solution_witness :
  doUpdate 0.001 Scene.noConstraints = Returns Scene.noConstraints [].
Proof.
  apply (push_results_empty_solution _ _ 0.001 Scene.noConstraints). reflexivity.
Defined.

(** C10. [MassSpringRepresentation::applyDofCorrection] returns the
    representation as it was, for every time step and correction, active or
    not. *)
Theorem applyDofCorrection_noop :
  forall (dt : R) (block : Vector) (s : MassSpring.MassSpringRepresentation),
    MassSpring.applyDofCorrection dt block s = s.
Proof.
  intros dt block s. unfold MassSpring.applyDofCorrection.
  destruct (MassSpring.isActive s); reflexivity.
Qed.

(** Hence the push-results loop hands mass-spring representations back as
    they were, whatever the solver found. *)
Lemma push_results_mass_spring dt dofCorrection mapping
    (representations : list MassSpring.MassSpringRepresentation) :
  forall pos representations' log,
    pushToRepresentations dt dofCorrection mapping pos representations
      = Returns representations' log ->
    representations' = representations.
Proof.
  induction representations as [|it rest IH]; intros pos representations' log; simpl.
  - now intros [= <- _].
  - destruct (getValue mapping pos <? 0)%Z; [discriminate|].
    destruct (pushToRepresentations dt dofCorrection mapping (S pos) rest)
      as [rest' log'|msg] eqn:E; [|discriminate].
    intros [= <- _]. f_equal.
    + unfold MassSpring.applyDofCorrection.
      destruct (MassSpring.isActive it); reflexivity.
    + now apply (IH (S pos) rest' log').
Qed.

End PushResultsProofs.

(** ** Dynamic vectors *)

Module EigenFacts.
Import Eigen.

Lemma length_plus a b : length (plus a b) = (length a `min` length b)%nat.
Proof. apply length_zip_with. Qed.

Lemma length_scale s v : length (scale s v) = length v.
Proof. apply length_fmap. Qed.

Lemma length_times v s : length (times v s) = length v.
Proof. apply length_fmap. Qed.








End EigenFacts.


(** ** The modified explicit Euler solvers *)

Module OdeProofs.
Import Eigen Ode EigenFacts.

Section Solvers.
Variable MT : Type.
Variable computeF : OdeState -> Vector.
Variable computeM : OdeState -> MT.
Variable scaleM : MT -> R -> MT.
Variable solveAndInverse : MT -> Vector -> Vector * Matrix.

Local Abbreviation modified :=
  (ModifiedExplicitEuler_solve MT computeF computeM scaleM solveAndInverse).
Local Abbreviation linear :=
  (LinearModifiedExplicitEuler_solve MT computeF computeM scaleM solveAndInverse).



Lemma run_snoc solve calls : forall this s dt buffer,
  run MT solve (calls ++ [(dt, buffer)]) this s =
  solve (fst (run MT solve calls this s)) dt (snd (run MT solve calls this s)) buffer.
Proof.
  induction calls as [|[dt0 b0] rest IH]; intros this s dt buffer; simpl.
  - destruct (solve this dt s buffer). reflexivity.
  - destruct (solve this dt0 s b0) as [this' s']. apply IH.
Qed.


(** Once initialised, the linear solver reuses [m_compliance]: with the
    compliance the full solve would compute, velocities and positions agree. *)
Lemma linear_matches_positions_velocities this dt currentState newState :
  SolvesByInverse MT solveAndInverse ->
  m_initialized this = true ->
  m_compliance this =
    snd (solveAndInverse (scaleM (computeM currentState) (1 / dt)) (computeF currentState)) ->
  getVelocities (snd (linear this dt currentState newState)) =
    getVelocities (snd (modified this dt currentState newState))
  /\ getPositions (snd (linear this dt currentState newState)) =
    getPositions (snd (modified this dt currentState newState)).
Proof.
  intros Hsolve Hinit Hc.
  unfold LinearModifiedExplicitEuler_solve, ModifiedExplicitEuler_solve.
  rewrite Hinit. simpl.
  destruct (solveAndInverse _ _) as [deltaV compliance] eqn:E. simpl in *.
  destruct (Hsolve _ _ _ _ E) as [-> _]. rewrite Hc. auto.
Qed.

(** What the initialised linear solver leaves in the accelerations: the
    buffer's old content over [dt], whatever the force is. *)
Lemma linear_accelerations this dt currentState newState :
  m_initialized this = true ->
  getAccelerations (snd (linear this dt currentState newState)) =
  divide (getAccelerations newState) dt.
Proof.
  intros Hinit. unfold LinearModifiedExplicitEuler_solve. now rewrite Hinit.
Qed.

Lemma linear_first_call this dt currentState newState :
  m_initialized this = false ->
  snd (linear this dt currentState newState) =
  snd (modified this dt currentState newState)
  /\ m_initialized (fst (linear this dt currentState newState)) = true
  /\ m_compliance (fst (linear this dt currentState newState)) =
     snd (solveAndInverse (scaleM (computeM currentState) (1 / dt)) (computeF currentState)).
Proof.
  intros Hinit. unfold LinearModifiedExplicitEuler_solve, ModifiedExplicitEuler_solve.
  rewrite Hinit. simpl.
  destruct (solveAndInverse _ _) as [deltaV compliance]. simpl. auto.
Qed.

Lemma linear_refines_positions_velocities dt M0 calls :
  SolvesByInverse MT solveAndInverse -> InverseOfMatrixOnly MT solveAndInverse ->
  ConstantMass MT computeM M0 -> ForceOfPositionsVelocities computeF ->
  Forall (fun c => fst c = dt) calls ->
  forall thisL thisM s,
    m_initialized thisL = false ->
    samePositionsVelocities (snd (run MT linear calls thisL s))
                            (snd (run MT modified calls thisM s))
    /\ (calls <> [] ->
        m_initialized (fst (run MT linear calls thisL s)) = true
        /\ forall s', m_compliance (fst (run MT linear calls thisL s)) =
                      snd (solveAndInverse (scaleM M0 (1 / dt)) (computeF s'))).
Proof.
  intros Hsolve Hinv HM [HF HFlen] Hdt thisL thisM s Hinit.
  induction calls as [|[dt' buffer] rest IH] using rev_ind.
  - split; [split; reflexivity | congruence].
  - apply Forall_app in Hdt as [Hrest Hlast].
    apply Forall_cons in Hlast as [Hdt' _]. simpl in Hdt'. subst dt'.
    destruct (IH Hrest) as [Hsame Hstate]. clear IH.
    rewrite !run_snoc.
    set (tL := fst (run MT linear rest thisL s)) in *.
    set (sL := snd (run MT linear rest thisL s)) in *.
    set (tM := fst (run MT modified rest thisM s)) in *.
    set (sM := snd (run MT modified rest thisM s)) in *.
    assert (Hfirst : m_initialized tL = false -> sL = sM).
    { destruct rest as [|c rest]; [intros _; reflexivity|].
      intros Hf. destruct Hstate as [Ht _]; [discriminate|]. congruence. }
    assert (Hne : m_initialized tL = true -> rest <> []).
    { intros Hi ->. subst tL. simpl in Hi. congruence. }
    assert (Hpv : samePositionsVelocities (snd (linear tL dt sL buffer))
                                          (snd (modified tM dt sM buffer))).
    { destruct (m_initialized tL) eqn:Hi.
      - destruct (Hstate (Hne eq_refl))
          as [_ Hc].
        destruct (linear_matches_positions_velocities tL dt sL buffer Hsolve Hi) as [Hv Hx].
        { rewrite HM. apply Hc. }
        unfold samePositionsVelocities. rewrite Hx, Hv.
        unfold ModifiedExplicitEuler_solve. rewrite !HM, (HF sL sM Hsame).
        destruct Hsame as [Ex Ev]. rewrite Ex, Ev.
        destruct (solveAndInverse _ _). simpl. auto.
      - destruct (linear_first_call tL dt sL buffer Hi) as (Hs & _ & _).
        rewrite Hs, (Hfirst eq_refl).
        unfold samePositionsVelocities, ModifiedExplicitEuler_solve.
        destruct (solveAndInverse _ _). simpl. auto. }
    split; [exact Hpv|]. intros _.
    destruct (m_initialized tL) eqn:Hi.
    + destruct (Hstate (Hne eq_refl))
        as [_ Hc].
      unfold LinearModifiedExplicitEuler_solve. rewrite Hi. simpl.
      split; [exact Hi | exact Hc].
    + destruct (linear_first_call tL dt sL buffer Hi) as (_ & Hi' & Hc).
      split; [exact Hi'|]. intros s'. rewrite Hc, HM. apply Hinv, HFlen.
Qed.

End Solvers.

(** The solver of equal point masses meets the contract. *)

Import PointMass.

Lemma dot_app l1 : forall p1 l2 p2,
  length l1 = length p1 -> dot (l1 ++ l2) (p1 ++ p2) = dot l1 p1 + dot l2 p2.
Proof.
  unfold dot. induction l1 as [|a l1 IH]; intros [|x p1] l2 p2 Hl; simpl in *;
    try discriminate; [lra|].
  rewrite IH by lia. lra.
Qed.

Lemma dot_zero_l n : forall p, dot (replicate n 0) p = 0.
Proof.
  unfold dot. induction n as [|n IH]; intros [|x p]; simpl; try reflexivity.
  rewrite IH. lra.
Qed.

Lemma mulMV_scalarRows a after : forall before pre b,
  length pre = before -> length b = after ->
  mulMV (scalarRows before after a) (pre ++ b) = (fun x => x * a) <$> b.
Proof.
  induction after as [|k IH]; intros before pre [|x b] Hpre Hb; simpl in *;
    try discriminate; [reflexivity|].
  f_equal.
  - rewrite dot_app by (rewrite length_replicate; lia).
    rewrite dot_zero_l. unfold dot. simpl.
    fold (dot (replicate k 0) b). rewrite dot_zero_l. lra.
  - replace (pre ++ x :: b) with ((pre ++ [x]) ++ b) by now rewrite <- app_assoc.
    apply IH; [rewrite length_app; simpl; lia | lia].
Qed.

Lemma solveAndInverse_contract : SolvesByInverse R PointMass.solveAndInverse.
Proof.
  intros A b x C [= <- <-]. split.
  - unfold scalarMatrix. rewrite (mulMV_scalarRows _ _ 0%nat [] b) by reflexivity.
    reflexivity.
  - unfold scalarMatrix. generalize 0%nat. induction (length b) as [|n IH]; intros k;
      simpl; [reflexivity|]. now rewrite IH.
Qed.

Lemma solveAndInverse_inverse : InverseOfMatrixOnly R PointMass.solveAndInverse.
Proof. intros A b b' Hl. unfold PointMass.solveAndInverse. simpl. now rewrite Hl. Qed.

(** The point mass under a constant force: over the two calls the linear
    solver and the full solve agree on positions and velocities. *)
Lemma point_mass_positions_velocities :
  samePositionsVelocities
    (snd (run R (LinearModifiedExplicitEuler_solve R PointMass.computeF
                   PointMass.computeM Rmult PointMass.solveAndInverse)
            twoCalls newSolver atOrigin))
    (snd (run R (ModifiedExplicitEuler_solve R PointMass.computeF
                   PointMass.computeM Rmult PointMass.solveAndInverse)
            twoCalls newSolver atOrigin)).
Proof.
  apply (linear_refines_positions_velocities R PointMass.computeF PointMass.computeM
           Rmult PointMass.solveAndInverse 0.5 2 twoCalls).
  - apply solveAndInverse_contract.
  - apply solveAndInverse_inverse.
  - intros s. reflexivity.
  - split; intros; reflexivity.
  - repeat constructor.
  - reflexivity.
Qed.

End OdeProofs.

(** ** The mass-spring representation *)

Module MassSpringProofs.
Import Framework Math Eigen MassSpring EigenFacts.

Lemma length_setCoeff v i a : length (setCoeff v i a) = length v.
Proof. unfold setCoeff. destruct (i <? 0)%Z; [reflexivity | apply length_insert]. Qed.

Lemma length_setSegment3 v i a : length (setSegment3 v i a) = length v.
Proof. unfold setSegment3. now rewrite !length_insert. Qed.

Lemma lookup_setCoeff_eq v i a :
  (0 <= i)%Z -> (Z.to_nat i < length v)%nat -> setCoeff v i a !! Z.to_nat i = Some a.
Proof.
  intros Hi Hl. unfold setCoeff.
  destruct (Z.ltb_spec i 0); [lia|]. now apply list_lookup_insert_eq.
Qed.

Lemma lookup_setCoeff_zero v i j : v !! j = Some 0 -> setCoeff v i 0 !! j = Some 0.
Proof.
  intros Hj. unfold setCoeff. destruct (i <? 0)%Z; [exact Hj|].
  destruct (decide (Z.to_nat i = j)) as [<-|Hne].
  - apply list_lookup_insert_eq. eapply lookup_lt_Some, Hj.
  - now rewrite list_lookup_insert_ne.
Qed.

Lemma coeff_setZero n i : coeff (setZero n) i = 0.
Proof.
  unfold coeff, setZero. destruct (replicate n 0 !! i) as [a|] eqn:E; [|reflexivity].
  apply lookup_replicate in E as [-> _]. reflexivity.
Qed.

Lemma setSegment3_setZero n i a :
  vx a = 0 -> vy a = 0 -> vz a = 0 -> setSegment3 (setZero n) i a = setZero n.
Proof.
  intros Ex Ey Ez. unfold setSegment3, setZero. rewrite Ex, Ey, Ez.
  now rewrite !insert_replicate.
Qed.




Lemma zeroBoundaryConditions_cons bc bcs v :
  zeroBoundaryConditions (bc :: bcs) v = zeroBoundaryConditions bcs (zeroNode v bc).
Proof. reflexivity. Qed.

Lemma length_zeroNode v bc : length (zeroNode v bc) = length v.
Proof. unfold zeroNode. now rewrite !length_setCoeff. Qed.

Lemma length_zeroBoundaryConditions bcs : forall v,
  length (zeroBoundaryConditions bcs v) = length v.
Proof.
  induction bcs as [|bc bcs IH]; intros v; [reflexivity|].
  rewrite zeroBoundaryConditions_cons, IH. apply length_zeroNode.
Qed.

Lemma zeroNode_keeps_zero v bc j : v !! j = Some 0 -> zeroNode v bc !! j = Some 0.
Proof. intros Hj. unfold zeroNode. now do 3 apply lookup_setCoeff_zero. Qed.

Lemma zeroBoundaryConditions_keeps_zero bcs : forall v j,
  v !! j = Some 0 -> zeroBoundaryConditions bcs v !! j = Some 0.
Proof.
  induction bcs as [|bc bcs IH]; intros v j Hj; [exact Hj|].
  rewrite zeroBoundaryConditions_cons. apply IH. now apply zeroNode_keeps_zero.
Qed.

Lemma zeroNode_zeroes v bc k :
  (0 <= bc)%Z -> (0 <= k < 3)%Z -> (dofIndex bc k < length v)%nat ->
  zeroNode v bc !! dofIndex bc k = Some 0.
Proof.
  intros Hbc Hk Hl. unfold zeroNode, dofIndex in *.
  assert (k = 0 \/ k = 1 \/ k = 2)%Z as [->|[->| ->]] by lia.
  - do 2 apply lookup_setCoeff_zero. apply lookup_setCoeff_eq; [lia|exact Hl].
  - apply lookup_setCoeff_zero. apply lookup_setCoeff_eq; [lia|].
    now rewrite length_setCoeff.
  - apply lookup_setCoeff_eq; [lia|]. now rewrite !length_setCoeff.
Qed.

Lemma zeroBoundaryConditions_zeroes bcs : forall v bc k,
  In bc bcs -> (0 <= bc)%Z -> (0 <= k < 3)%Z -> (dofIndex bc k < length v)%nat ->
  zeroBoundaryConditions bcs v !! dofIndex bc k = Some 0.
Proof.
  induction bcs as [|b0 bcs IH]; intros v bc k Hin Hbc Hk Hl; [destruct Hin|].
  rewrite zeroBoundaryConditions_cons. destruct Hin as [->|Hin].
  - apply zeroBoundaryConditions_keeps_zero. now apply zeroNode_zeroes.
  - apply IH; try assumption. now rewrite length_zeroNode.
Qed.

Lemma lookup_plus_times x v dt i a :
  x !! i = Some a -> v !! i = Some 0 -> plus x (times v dt) !! i = Some a.
Proof.
  intros Hx Hv. unfold plus, times.
  rewrite lookup_zip_with, Hx, list_lookup_fmap, Hv. simpl. f_equal. lra.
Qed.

Lemma foldl_length {B} (step : Vector -> B -> Vector) (l : list B) :
  (forall v b, length (step v b) = length v) ->
  forall v, length (foldl step v l) = length v.
Proof.
  intros Hstep. induction l as [|b l IH]; intros v; simpl; [reflexivity|].
  now rewrite IH.
Qed.

Section Update.
Variable getF : LinearSpringParameter -> Vector3d -> Vector3d -> Vector3d -> Vector3d -> Vector3d.

Lemma length_addRayleighDampingForce s f v scale :
  length (addRayleighDampingForce s f v scale) = length f.
Proof.
  unfold addRayleighDampingForce. destruct (Req_dec_T _ _); [reflexivity|].
  apply foldl_length. intros. apply length_setSegment3.
Qed.

Lemma length_forces s : length (forces getF s) = length (m_f s).
Proof.
  unfold forces. rewrite foldl_length.
  2:{ intros. unfold subSegment3, addSegment3. now rewrite !length_setSegment3. }
  rewrite length_addRayleighDampingForce.
  destruct (isGravityEnabled s).
  - rewrite foldl_length by (intros; apply length_setSegment3). apply length_replicate.
  - apply length_replicate.
Qed.

Lemma length_accelerations s : length (accelerations getF s) = length (m_f s).
Proof.
  unfold accelerations. rewrite foldl_length by (intros; apply length_setSegment3).
  apply length_forces.
Qed.

Lemma updateEulerExplicit_allocated dt modified s :
  allocated s -> allocated (updateEulerExplicit getF dt modified s).
Proof.
  intros [Hx Hf]. unfold allocated, updateEulerExplicit.
  destruct modified; simpl;
    rewrite ?length_plus, ?length_times, ?length_zeroBoundaryConditions,
      ?length_plus, ?length_times, ?length_zeroBoundaryConditions,
      ?length_accelerations; lia.
Qed.

Lemma updateEulerExplicit_boundary dt modified s bc k :
  allocated s -> In bc (m_boundaryConditions s) ->
  (0 <= bc)%Z -> (0 <= k < 3)%Z -> (dofIndex bc k < length (m_v s))%nat ->
  m_v (updateEulerExplicit getF dt modified s) !! dofIndex bc k = Some 0
  /\ m_x (updateEulerExplicit getF dt modified s) !! dofIndex bc k
     = m_x s !! dofIndex bc k
  /\ (modified = false ->
      m_f (updateEulerExplicit getF dt modified s) !! dofIndex bc k = Some 0).
Proof.
  intros [Hx Hf] Hin Hbc Hk Hl.
  destruct (lookup_lt_is_Some_2 (m_x s) (dofIndex bc k)) as [a Ha]; [lia|].
  unfold updateEulerExplicit. destruct modified; simpl.
  - assert (Hv : zeroBoundaryConditions (m_boundaryConditions s)
                   (plus (m_v s) (times (accelerations getF s) dt)) !! dofIndex bc k
                 = Some 0).
    { apply zeroBoundaryConditions_zeroes; try assumption.
      rewrite length_plus, length_times, length_accelerations. lia. }
    split; [exact Hv|]. split; [|discriminate].
    rewrite Ha. now apply lookup_plus_times.
  - assert (Hv : zeroBoundaryConditions (m_boundaryConditions s) (m_v s) !! dofIndex bc k
                 = Some 0) by now apply zeroBoundaryConditions_zeroes.
    assert (Hz : zeroBoundaryConditions (m_boundaryConditions s) (accelerations getF s)
                   !! dofIndex bc k = Some 0).
    { apply zeroBoundaryConditions_zeroes; try assumption.
      rewrite length_accelerations. lia. }
    split; [now apply lookup_plus_times|]. split; [|intros _; exact Hz].
    rewrite Ha. now apply lookup_plus_times.
Qed.

Lemma updateEulerExplicit_frame dt modified s :
  allocated s ->
  m_boundaryConditions (updateEulerExplicit getF dt modified s) = m_boundaryConditions s
  /\ length (m_v (updateEulerExplicit getF dt modified s)) = length (m_v s).
Proof.
  intros [Hx Hf]. unfold updateEulerExplicit. destruct modified; simpl;
    rewrite ?length_plus, ?length_times, ?length_zeroBoundaryConditions,
      ?length_plus, ?length_times, ?length_accelerations; (split; [reflexivity|lia]).
Qed.

Lemma call_frame c s :
  allocated s ->
  allocated (call getF c s)
  /\ m_boundaryConditions (call getF c s) = m_boundaryConditions s
  /\ length (m_v (call getF c s)) = length (m_v s).
Proof.
  intros Ha. destruct c as [dt|dt|dt block|dt]; cbn [call].
  - unfold beforeUpdate. destruct (isActive s); simpl; auto.
  - unfold update. destruct (isActive s); cbn [negb]; [|auto].
    destruct (m_integrationScheme s);
      (split; [now apply updateEulerExplicit_allocated
              | now apply updateEulerExplicit_frame]).
  - unfold applyDofCorrection. destruct (isActive s); simpl; auto.
  - unfold afterUpdate. destruct (isActive s); simpl; auto.
Qed.

Lemma call_boundary c s bc k :
  allocated s -> In bc (m_boundaryConditions s) ->
  (0 <= bc)%Z -> (0 <= k < 3)%Z -> (dofIndex bc k < length (m_v s))%nat ->
  m_v s !! dofIndex bc k = Some 0 ->
  m_v (call getF c s) !! dofIndex bc k = Some 0
  /\ m_x (call getF c s) !! dofIndex bc k = m_x s !! dofIndex bc k.
Proof.
  intros Ha Hin Hbc Hk Hl Hv0. destruct c as [dt|dt|dt block|dt]; cbn [call].
  - unfold beforeUpdate. destruct (isActive s); simpl; auto.
  - unfold update. destruct (isActive s); cbn [negb]; [|auto].
    destruct (m_integrationScheme s);
      [destruct (updateEulerExplicit_boundary dt false s bc k Ha Hin Hbc Hk Hl)
         as (H1 & H2 & _)
      |destruct (updateEulerExplicit_boundary dt true s bc k Ha Hin Hbc Hk Hl)
         as (H1 & H2 & _)]; auto.
  - unfold applyDofCorrection. destruct (isActive s); simpl; auto.
  - unfold afterUpdate. destruct (isActive s); simpl; auto.
Qed.

Lemma calls_boundary cs : forall s bc k,
  allocated s -> In bc (m_boundaryConditions s) ->
  (0 <= bc)%Z -> (0 <= k < 3)%Z -> (dofIndex bc k < length (m_v s))%nat ->
  m_v s !! dofIndex bc k = Some 0 ->
  m_v (calls getF cs s) !! dofIndex bc k = m_v s !! dofIndex bc k
  /\ m_x (calls getF cs s) !! dofIndex bc k = m_x s !! dofIndex bc k.
Proof.
  induction cs as [|c cs IH]; intros s bc k Ha Hin Hbc Hk Hl Hv0; [auto|].
  unfold calls. simpl. fold (calls getF cs (call getF c s)).
  destruct (call_frame c s Ha) as (Ha' & Hbcs & Hlen).
  destruct (call_boundary c s bc k Ha Hin Hbc Hk Hl Hv0) as [Hv1 Hx1].
  destruct (IH (call getF c s) bc k) as [Hv Hx]; try assumption.
  - now rewrite Hbcs.
  - now rewrite Hlen.
  - split; congruence.
Qed.

Lemma calls_frame cs : forall s,
  allocated s ->
  allocated (calls getF cs s)
  /\ m_boundaryConditions (calls getF cs s) = m_boundaryConditions s
  /\ length (m_v (calls getF cs s)) = length (m_v s).
Proof.
  induction cs as [|c cs IH]; intros s Ha; [auto|].
  unfold calls. simpl. fold (calls getF cs (call getF c s)).
  destruct (call_frame c s Ha) as (Ha' & Hbcs & Hlen).
  destruct (IH _ Ha') as (Ha'' & Hbcs' & Hlen').
  split; [exact Ha''|]. split; congruence.
Qed.




End Update.

(** *** init1D *)

Lemma addBoundaryConditions_frame nodeIds : forall s,
  m_x (addBoundaryConditions nodeIds s) = m_x s
  /\ m_v (addBoundaryConditions nodeIds s) = m_v s
  /\ m_f (addBoundaryConditions nodeIds s) = m_f s.
Proof.
  induction nodeIds as [|b nodeIds IH]; intros s; [auto|].
  unfold addBoundaryConditions. simpl.
  fold (addBoundaryConditions nodeIds (addBoundaryCondition b s)).
  destruct (IH (addBoundaryCondition b s)) as (Hx & Hv & Hf).
  rewrite Hx, Hv, Hf. auto.
Qed.

Lemma fill_setZero (get : nat -> Vector3d) nodes n :
  (forall i, get i = Zero) ->
  foldl (fun v nodeId => setSegment3 v (3 * nodeId) (get nodeId)) (setZero n) nodes
  = setZero n.
Proof.
  intros Hget. induction nodes as [|i nodes IH]; simpl; [reflexivity|].
  rewrite setSegment3_setZero; [exact IH| | |]; rewrite Hget; reflexivity.
Qed.

Lemma fill_length (get : nat -> Vector3d) nodes : forall v,
  length (foldl (fun v nodeId => setSegment3 v (3 * nodeId) (get nodeId)) v nodes)
  = length v.
Proof. apply foldl_length. intros. apply length_setSegment3. Qed.

Lemma addVertices_atRest (mk : nat -> Vertex) nodes : forall m,
  atRest m -> (forall i, getVelocity (data (mk i)) = Zero) ->
  atRest (foldl (fun m massId => addVertex m (mk massId)) m nodes).
Proof.
  induction nodes as [|i nodes IH]; intros m Hm Hmk; simpl; [exact Hm|].
  apply IH; [|exact Hmk]. unfold atRest, addVertex. simpl.
  apply Forall_app. split; [exact Hm|]. repeat constructor. apply Hmk.
Qed.

Lemma addEdges_vertices (mk : Mesh -> nat -> Edge) nodes : forall m,
  getVertices (foldl (fun m massId => addEdge m (mk m massId)) m nodes) = getVertices m.
Proof.
  induction nodes as [|i nodes IH]; intros m; simpl; [reflexivity|].
  now rewrite IH.
Qed.

Lemma init1D_initial_state extremities numNodes totalMass springStiffness springDamping s s' log :
  atRest (m_initialState s) ->
  init1D extremities numNodes totalMass springStiffness springDamping s = Returns s' log ->
  allocated s'
  /\ m_v s' = setZero (3 * Z.to_nat numNodes)
  /\ m_boundaryConditions s' = m_boundaryConditions s.
Proof.
  intros Hrest. unfold init1D. destruct (0 <? numNodes)%Z; simpl; [|discriminate].
  intros [= <- _]. unfold allocated. simpl.
  rewrite !fill_length. split; [auto|]. split; [|reflexivity].
  apply fill_setZero. intros i.
  match goal with |- context [getVertices ?m !! i] =>
    assert (Hm : atRest m)
  end.
  { unfold atRest.
    rewrite (addEdges_vertices
               (fun m massId =>
                  mkEdge (massId, (massId + 1)%nat)
                    (mkLinearSpringParameter springStiffness springDamping
                       (norm (vsub (getVertexPosition m (massId + 1))
                                   (getVertexPosition m massId)))))).
    apply (addVertices_atRest
             (fun massId =>
                mkVertex (transformPoint (m_initialPose s)
                            (vadd extremities.1
                               (vscale (vscale (vsub extremities.2 extremities.1)
                                          (/ IZR (numNodes - 1))) (INR massId))))
                         (mkMassParameter (totalMass / IZR numNodes) Zero)));
      [exact Hrest | reflexivity]. }
  destruct (_ !! i) as [v|] eqn:E; [|reflexivity].
  exact (Forall_lookup_1 _ _ _ _ Hm E).
Qed.


(** *** The two concrete systems *)

Import Chain.

Lemma initialisedChain_force :
  m_f (update linearSpring 1 initialisedChain) !! dofIndex 0 1 = Some (-9.81).
Proof.
  change (dofIndex 0 1) with 1%nat.
  unfold update, updateEulerExplicit, accelerations, forces, addRayleighDampingForce,
    initialisedChain, init1D, blank.
  change (0 <? 2)%Z with true. change (Z.to_nat 2) with 2%nat.
  cbn -[Rplus Rmult Rminus Ropp Rinv Rdiv Req_dec_T IZR INR norm].
  destruct (Req_dec_T 0 0) as [_|Hn]; [|contradiction].
  cbn -[Rplus Rmult Rminus Ropp Rinv Rdiv IZR INR norm]. f_equal.
  unfold Math.dot, vadd, vscale, vsub.
  cbn -[Rplus Rmult Rminus Ropp Rinv Rdiv]. lra.
Qed.


End MassSpringProofs.

(** ** The integration scheme, the linear solver and the boundary conditions *)

Module IntegrationProofs.
Import Framework Math Eigen Ode MassSpring.
Import EigenFacts OdeProofs MassSpringProofs.

Local Abbreviation modified :=
  (ModifiedExplicitEuler_solve R PointMass.computeF PointMass.computeM Rmult
     PointMass.solveAndInverse).
Local Abbreviation linear :=
  (LinearModifiedExplicitEuler_solve R PointMass.computeF PointMass.computeM Rmult
     PointMass.solveAndInverse).

Lemma state_eq x v a x' v' a' :
  x = x' -> v = v' -> a = a' -> mkOdeState [x] [v] [a] = mkOdeState [x'] [v'] [a'].
Proof. now intros -> -> ->. Qed.

(** C7. One degree of freedom, mass 2, constant force 4, two calls with
    dt = 0.5, each writing into a buffer that holds the state at rest: M, D
    and K never change.  [ModifiedExplicitEuler::solve] ends with position
    1.5, velocity 2 and acceleration 2 = F/m; [LinearModifiedExplicitEuler::solve]
    ends with the same position and velocity but with acceleration 0, the
    old content of the buffer divided by dt. *)
Theorem linear_second_call_accelerations :
  snd (run R modified PointMass.twoCalls newSolver PointMass.atOrigin)
    = mkOdeState [1.5] [2] [2]
  /\ snd (run R linear PointMass.twoCalls newSolver PointMass.atOrigin)
    = mkOdeState [1.5] [2] [0].
Proof.
  split.
  - cbn -[Rplus Rmult Rdiv Rinv]. apply state_eq; unfold PointMass.computeM; lra.
  - cbn -[Rplus Rmult Rdiv Rinv]. apply state_eq; unfold PointMass.computeM; lra.
Qed.

(** C8, as the code has it.  A representation is initialised by [init1D]
    and boundary conditions are added.  For a node listed as a boundary
    condition, after any sequence of [beforeUpdate], [update],
    [applyDofCorrection] and [afterUpdate] calls its velocity and position
    components are those of the start; every integration step zeroes its
    velocity components, and the explicit scheme zeroes its force components
    too. *)
Theorem boundary_conditions_hold :
  forall getF extremities numNodes totalMass springStiffness springDamping
         (s0 s1 : MassSpringRepresentation) log (added : list Z) (bc k : Z),
    getVertices (m_initialState s0) = [] ->
    init1D extremities numNodes totalMass springStiffness springDamping s0
      = Returns s1 log ->
    In bc (m_boundaryConditions (addBoundaryConditions added s1)) ->
    (0 <= bc < numNodes)%Z -> (0 <= k < 3)%Z ->
    forall cs,
      (m_v (calls getF cs (addBoundaryConditions added s1)) !! dofIndex bc k
         = m_v (addBoundaryConditions added s1) !! dofIndex bc k
       /\ m_x (calls getF cs (addBoundaryConditions added s1)) !! dofIndex bc k
         = m_x (addBoundaryConditions added s1) !! dofIndex bc k)
      /\ forall dt,
          m_v (updateEulerExplicit getF dt true
                 (calls getF cs (addBoundaryConditions added s1))) !! dofIndex bc k
            = Some 0
          /\ m_v (updateEulerExplicit getF dt false
                    (calls getF cs (addBoundaryConditions added s1))) !! dofIndex bc k
            = Some 0
          /\ m_f (updateEulerExplicit getF dt false
                    (calls getF cs (addBoundaryConditions added s1))) !! dofIndex bc k
            = Some 0.
Proof.
  intros getF extremities numNodes totalMass springStiffness springDamping
         s0 s1 log added bc k Hfresh Hinit Hin Hbc Hk cs.
  assert (Hrest : atRest (m_initialState s0)).
  { unfold atRest. rewrite Hfresh. constructor. }
  destruct (init1D_initial_state _ _ _ _ _ _ _ _ Hrest Hinit) as ([Hx Hf] & Hv & _).
  destruct (addBoundaryConditions_frame added s1) as (Ex & Ev & Ef).
  set (s := addBoundaryConditions added s1) in *.
  assert (Ha : allocated s) by (unfold allocated; rewrite Ex, Ev, Ef; auto).
  assert (Hl : (dofIndex bc k < length (m_v s))%nat).
  { rewrite Ev, Hv. unfold setZero, dofIndex. rewrite length_replicate. lia. }
  assert (Hv0 : m_v s !! dofIndex bc k = Some 0).
  { rewrite Ev, Hv. apply lookup_replicate. split; [reflexivity|].
    rewrite Ev, Hv in Hl. unfold setZero in Hl. now rewrite length_replicate in Hl. }
  split.
  - apply calls_boundary; try assumption; lia.
  - intros dt.
    destruct (calls_frame getF cs s Ha) as (Ha' & Hbcs & Hlen).
    assert (Hin' : In bc (m_boundaryConditions (calls getF cs s))) by now rewrite Hbcs.
    assert (Hl' : (dofIndex bc k < length (m_v (calls getF cs s)))%nat)
      by now rewrite Hlen.
    destruct (updateEulerExplicit_boundary getF dt true _ bc k Ha' Hin'
                ltac:(lia) Hk Hl') as (Hm & _ & _).
    destruct (updateEulerExplicit_boundary getF dt false _ bc k Ha' Hin'
                ltac:(lia) Hk Hl') as (He & _ & Hfe).
    auto.
Qed.

(** The fixed node of the chain through a tick with a correction. *)
Lemma boundary_conditions_hold_witness :
  m_v (calls Chain.linearSpring Chain.oneTick Chain.initialisedChain) !! dofIndex 0 1
    = m_v Chain.initialisedChain !! dofIndex 0 1
  /\ m_x (calls Chain.linearSpring Chain.oneTick Chain.initialisedChain) !! dofIndex 0 1
    = m_x Chain.initialisedChain !! dofIndex 0 1.
Proof.
  refine (proj1 (boundary_conditions_hold Chain.linearSpring
                   (mkVector3d 0 0 0, mkVector3d 1 0 0) 2 2 2 0 Chain.blank
                   _ _ [0%Z] 0 1 eq_refl eq_refl _ _ _ Chain.oneTick)).
  - left. reflexivity.
  - lia.
  - lia.
Defined.

(** Against C8 as the specification words it: in the modified scheme the
    force components of a fixed node are not zeroed.  After a step of the
    chain, whose node 0 is a boundary condition, the y component of node 0 in
    [m_f] is the gravity -9.81. *)
Lemma modified_scheme_keeps_force :
  In 0%Z (m_boundaryConditions Chain.initialisedChain)
  /\ m_integrationScheme Chain.initialisedChain
     = INTEGRATIONSCHEME_MODIFIED_EXPLICIT_EULER
  /\ m_f (update Chain.linearSpring 1 Chain.initialisedChain) !! dofIndex 0 1
     = Some (-9.81)
  /\ m_f (update Chain.linearSpring 1 Chain.initialisedChain) !! dofIndex 0 1
     <> Some 0.
Proof.
  split; [left; reflexivity|]. split; [reflexivity|].
  split; [apply initialisedChain_force|].
  rewrite initialisedChain_force. intros [= E]. lra.
Qed.

End IntegrationProofs.

(** ** More on the contact calculations *)

Module ContactProofs.
Import Math Collision MathFacts SphereSphereProofs BoxSphereProofs ContactCalculationProofs.

Lemma norm_vsub_sym a b : norm (vsub a b) = norm (vsub b a).
Proof.
  unfold norm. f_equal. unfold squaredNorm, vsub. simpl. ring.
Qed.

Lemma vdiv_vopp v d n : vdiv v d = Finite n -> vdiv (vopp v) d = Finite (vopp n).
Proof.
  unfold vdiv. destruct (Req_dec_T d 0) as [|Hd]; [discriminate|].
  intros [= <-]. unfold vopp. simpl. f_equal. f_equal; field; exact Hd.
Qed.

Lemma vopp_vsub a b : vopp (vsub a b) = vsub b a.
Proof. unfold vopp, vsub. simpl. f_equal; lra. Qed.

(** X1. Exchanging two overlapping spheres with distinct centres gives the same
    depth, the opposite normal and the two penetration points exchanged. *)
Theorem sphere_sphere_symmetric :
  forall (r1 r2 : R) (pose1 pose2 : RigidTransform3d),
    norm (vsub (translation pose1) (translation pose2)) < r1 + r2 ->
    translation pose1 <> translation pose2 ->
    exists d n p q,
      SphereSphere.doCalculateContact (spherePair r1 r2 pose1 pose2 []) =
        Done (spherePair r1 r2 pose1 pose2
                [mkContact d (Finite n)
                   (mkLocation (Some (Finite p)), mkLocation (Some (Finite q)))])
      /\ SphereSphere.doCalculateContact (spherePair r2 r1 pose2 pose1 []) =
        Done (spherePair r2 r1 pose2 pose1
                [mkContact d (Finite (vopp n))
                   (mkLocation (Some (Finite q)), mkLocation (Some (Finite p)))]).
Proof.
  intros r1 r2 pose1 pose2 Hlt Hne.
  set (c1 := translation pose1) in *. set (c2 := translation pose2) in *.
  assert (Hn : norm (vsub c1 c2) <> 0).
  { intros E. apply Hne, vsub_eq_Zero, norm_zero, E. }
  destruct (vdiv_norm_unit _ Hn) as (n & En & _ & _).
  exists (r1 + r2 - norm (vsub c1 c2)), n,
    (vsub c1 (vscale n r1)), (vadd c2 (vscale n r2)).
  split.
  - rewrite sphere_overlap by exact Hlt. fold c1 c2. unfold normalize.
    rewrite En. reflexivity.
  - rewrite sphere_overlap by (fold c1 c2; rewrite <- norm_vsub_sym; lra).
    fold c1 c2. unfold normalize. rewrite <- (norm_vsub_sym c1 c2).
    rewrite <- (vopp_vsub c1 c2), (vdiv_vopp _ _ _ En). simpl.
    unfold spherePair. do 3 f_equal. f_equal; [lra|].
    f_equal; do 3 f_equal; unfold vsub, vadd, vscale, vopp; simpl; f_equal; lra.
Qed.

Lemma sphere_sphere_symmetric_witness :
  exists d n p q,
    SphereSphere.doCalculateContact (spherePair 1 1 Scene.atOrigin Scene.alongX []) =
      Done (spherePair 1 1 Scene.atOrigin Scene.alongX
              [mkContact d (Finite n)
                 (mkLocation (Some (Finite p)), mkLocation (Some (Finite q)))])
    /\ SphereSphere.doCalculateContact (spherePair 1 1 Scene.alongX Scene.atOrigin []) =
      Done (spherePair 1 1 Scene.alongX Scene.atOrigin
              [mkContact d (Finite (vopp n))
                 (mkLocation (Some (Finite q)), mkLocation (Some (Finite p)))]).
Proof.
  apply (sphere_sphere_symmetric 1 1 Scene.atOrigin Scene.alongX).
  - simpl. eval_norm 1.5. lra.
  - simpl. intros [= E]. lra.
Defined.

(** X2. A sphere-sphere calculation keeps the two representations and the
    contacts the pair already holds, adds at most one contact, and the depth
    of the contact it adds is positive. *)
Theorem sphere_sphere_adds_positive_depth :
  forall (r1 r2 : R) (pose1 pose2 : RigidTransform3d) (contacts : list Contact),
  exists added,
    SphereSphere.doCalculateContact (spherePair r1 r2 pose1 pose2 contacts) =
      Done (spherePair r1 r2 pose1 pose2 (contacts ++ added))
    /\ (length added <= 1)%nat
    /\ Forall (fun c => 0 < depth c) added.
Proof.
  intros r1 r2 pose1 pose2 contacts.
  destruct (Rlt_dec (norm (vsub (translation pose1) (translation pose2))) (r1 + r2))
    as [Hlt|Hge].
  - eexists [_]. rewrite sphere_overlap by exact Hlt.
    split; [reflexivity|]. split; [simpl; lia|].
    apply Forall_cons; split; [|constructor]. simpl. lra.
  - exists []. rewrite sphere_apart by exact Hge. rewrite app_nil_r.
    split; [reflexivity|]. split; [simpl; lia | constructor].
Qed.

Lemma norm_axis i d : Rabs d = 1 -> norm (setCoeff Zero i d) = 1.
Proof.
  intros Hd. unfold norm.
  replace (squaredNorm (setCoeff Zero i d)) with (Rsqr d).
  - rewrite sqrt_Rsqr_abs. exact Hd.
  - unfold Rsqr, squaredNorm. destruct i as [|[|i]]; simpl; ring.
Qed.

(** X3. Every contact a box-sphere calculation adds has a depth that is not
    negative and a normal that is the rotation of the box applied to a unit
    vector: no division by zero reaches it. *)
Theorem box_sphere_unit_normal :
  forall (DistanceEpsilon SquaredDistanceEpsilon sizeX sizeY sizeZ radius : R)
         (boxPose spherePose : RigidTransform3d) (contacts : list Contact),
    0 <= SquaredDistanceEpsilon ->
    exists added,
      BoxSphere.doCalculateContact DistanceEpsilon SquaredDistanceEpsilon
        (boxSpherePair sizeX sizeY sizeZ radius boxPose spherePose contacts) =
      Done (boxSpherePair sizeX sizeY sizeZ radius boxPose spherePose
              (contacts ++ added))
      /\ (length added <= 1)%nat
      /\ Forall (fun c => 0 <= depth c
                          /\ exists n, normal c = Finite (mulMV (linear boxPose) n)
                                       /\ norm n = 1) added.
Proof.
  intros eps eps2 sizeX sizeY sizeZ radius boxPose spherePose contacts Heps.
  unfold BoxSphere.doCalculateContact, boxSpherePair.
  cbn [getFirst getSecond getShape getPose].
  destruct (Rgt_dec _ _) as [_|_].
  { exists []. rewrite app_nil_r. split; [reflexivity|].
    split; [simpl; lia | constructor]. }
  destruct (Rle_dec _ _) as [_|Hout].
  - eexists [_]. split; [reflexivity|]. split; [simpl; lia|].
    apply Forall_cons; split; [|constructor]. simpl. split; [apply Rabs_pos|].
    eexists. split; [reflexivity|]. apply norm_axis.
    destruct (Rgt_dec _ _); unfold Rabs; destruct (Rcase_abs _); lra.
  - match goal with |- context [vdiv ?v (norm ?v)] =>
      assert (Hn : norm v <> 0)
        by (intros E; apply Hout; rewrite <- norm_square, E; lra);
      destruct (vdiv_norm_unit v Hn) as (n & En & Hunit & _); rewrite En
    end.
    eexists [_]. split; [reflexivity|]. split; [simpl; lia|].
    apply Forall_cons; split; [|constructor]. simpl. split; [apply Rabs_pos|].
    exists n. split; [reflexivity | exact Hunit].
Qed.

Lemma box_sphere_unit_normal_witness :
  exists added,
    BoxSphere.doCalculateContact Scene.epsilon Scene.epsilon
      (boxSpherePair 2 4 6 1 Scene.atOrigin Scene.alongX []) =
    Done (boxSpherePair 2 4 6 1 Scene.atOrigin Scene.alongX ([] ++ added))
    /\ (length added <= 1)%nat
    /\ Forall (fun c => 0 <= depth c
                        /\ exists n, normal c = Finite (mulMV (linear Scene.atOrigin) n)
                                     /\ norm n = 1) added.
Proof.
  apply (box_sphere_unit_normal Scene.epsilon Scene.epsilon 2 4 6 1
           Scene.atOrigin Scene.alongX []).
  unfold Scene.epsilon. lra.
Defined.

Lemma Rabs_clamp h p : 0 <= h -> Rabs (Rmax (- h) (Rmin h p)) <= h.
Proof.
  intros Hh. unfold Rmax, Rmin.
  destruct (Rle_dec h p); destruct (Rle_dec _ _); unfold Rabs;
    destruct (Rcase_abs _); lra.
Qed.

Lemma Rabs_direction h d : 0 <= h -> d = 1 \/ d = -1 -> Rabs (h * d) = h.
Proof.
  intros Hh [-> | ->]; unfold Rabs; destruct (Rcase_abs _); lra.
Qed.

(** X4. The point a box-sphere contact records on the box is the image by the
    pose of the box of a point that lies in the box. *)
Theorem box_sphere_point_in_box :
  forall (DistanceEpsilon SquaredDistanceEpsilon sizeX sizeY sizeZ radius : R)
         (boxPose spherePose : RigidTransform3d) (contacts : list Contact),
    0 <= sizeX -> 0 <= sizeY -> 0 <= sizeZ ->
    exists added,
      BoxSphere.doCalculateContact DistanceEpsilon SquaredDistanceEpsilon
        (boxSpherePair sizeX sizeY sizeZ radius boxPose spherePose contacts) =
      Done (boxSpherePair sizeX sizeY sizeZ radius boxPose spherePose
              (contacts ++ added))
      /\ Forall (fun c => exists p,
                   fst (penetrationPoints c) =
                     mkLocation (Some (Finite (transformPoint boxPose p)))
                   /\ Rabs (vx p) <= sizeX * 0.5
                   /\ Rabs (vy p) <= sizeY * 0.5
                   /\ Rabs (vz p) <= sizeZ * 0.5) added.
Proof.
  intros eps eps2 sizeX sizeY sizeZ radius boxPose spherePose contacts HX HY HZ.
  unfold BoxSphere.doCalculateContact, boxSpherePair.
  cbn [getFirst getSecond getShape getPose].
  destruct (Rgt_dec _ _) as [_|_].
  { exists []. rewrite app_nil_r. split; [reflexivity | constructor]. }
  assert (Hx : 0 <= sizeX * 0.5) by lra.
  assert (Hy : 0 <= sizeY * 0.5) by lra.
  assert (Hz : 0 <= sizeZ * 0.5) by lra.
  destruct (Rle_dec _ _) as [_|_].
  - eexists [_]. split; [reflexivity|].
    apply Forall_cons; split; [|constructor]. simpl.
    eexists. split; [reflexivity|].
    set (i := indexOfMinimum _ _ _).
    set (d := if Rgt_dec _ _ then 1 else -1).
    assert (Hd : d = 1 \/ d = -1) by (unfold d; destruct (Rgt_dec _ _); auto).
    destruct i as [|[|i]]; simpl;
      repeat split; try (apply Rabs_clamp; assumption);
      rewrite Rabs_direction by assumption; lra.
  - eexists [_]. split; [reflexivity|].
    apply Forall_cons; split; [|constructor]. simpl.
    eexists. split; [reflexivity|]. simpl.
    repeat split; apply Rabs_clamp; assumption.
Qed.

Lemma box_sphere_point_in_box_witness :
  exists added,
    BoxSphere.doCalculateContact Scene.epsilon Scene.epsilon
      (boxSpherePair 2 4 6 1 Scene.atOrigin Scene.alongX []) =
    Done (boxSpherePair 2 4 6 1 Scene.atOrigin Scene.alongX ([] ++ added))
    /\ Forall (fun c => exists p,
                 fst (penetrationPoints c) =
                   mkLocation (Some (Finite (transformPoint Scene.atOrigin p)))
                 /\ Rabs (vx p) <= 2 * 0.5
                 /\ Rabs (vy p) <= 4 * 0.5
                 /\ Rabs (vz p) <= 6 * 0.5) added.
Proof.
  apply (box_sphere_point_in_box Scene.epsilon Scene.epsilon 2 4 6 1
           Scene.atOrigin Scene.alongX []); lra.
Defined.

(** X5. [calculateContact] hands a pair over swapped at most once: the pair it
    delegates is not swapped again, and the contacts of the pair are kept. *)
Theorem delegation_swaps_once :
  forall (calc : ContactCalculation) (pair : CollisionPair),
    delegatedPair calc (delegatedPair calc pair) = delegatedPair calc pair
    /\ getContacts (delegatedPair calc pair) = getContacts pair
    /\ calculateContact calc (delegatedPair calc pair) = calculateContact calc pair.
Proof.
  intros calc pair.
  assert (Hidem : delegatedPair calc (delegatedPair calc pair) = delegatedPair calc pair).
  { unfold delegatedPair at 2 3.
    destruct (needsSwap _ _ _) eqn:E; [|unfold delegatedPair; now rewrite E].
    unfold delegatedPair. simpl.
    destruct (needsSwap calc (getShapeType (getSecond pair)) _) eqn:E';
      [|reflexivity].
    apply needsSwap_spec in E as (Hne & H1 & H2).
    apply needsSwap_spec in E' as (_ & H3 & H4). congruence. }
  split; [exact Hidem|]. split.
  - unfold delegatedPair. destruct (needsSwap _ _ _); reflexivity.
  - unfold calculateContact. now rewrite Hidem.
Qed.

(** X6. A sphere and a box given in either order reach the box-sphere routine as
    the pair (box, sphere): the two calls answer alike. *)
Theorem box_sphere_either_order :
  forall (DistanceEpsilon SquaredDistanceEpsilon sizeX sizeY sizeZ radius : R)
         (boxPose spherePose : RigidTransform3d) (contacts : list Contact),
    let calc := BoxSphereDcdContact DistanceEpsilon SquaredDistanceEpsilon in
    let box := mkRepresentation (BoxShape sizeX sizeY sizeZ) boxPose in
    let sphere := mkRepresentation (SphereShape radius) spherePose in
    calculateContact calc (mkCollisionPair sphere box contacts) =
      calculateContact calc (mkCollisionPair box sphere contacts)
    /\ calculateContact calc (mkCollisionPair box sphere contacts) =
      BoxSphere.doCalculateContact DistanceEpsilon SquaredDistanceEpsilon
        (boxSpherePair sizeX sizeY sizeZ radius boxPose spherePose contacts).
Proof.
  intros. split; reflexivity.
Qed.

Lemma clamp_inside h p : Rabs p <= h -> Rmax (- h) (Rmin h p) = p.
Proof.
  intros Hp. assert (- h <= p <= h).
  { unfold Rabs in Hp. destruct (Rcase_abs p); lra. }
  rewrite Rmin_right by lra. apply Rmax_right. lra.
Qed.

(** X7. A sphere whose centre lies in the box gets one contact through the face
    [indexOfMinimum] selects among the distances of the centre to the three
    pairs of faces: the depth is the distance of the centre to that face
    plus the radius, the normal is the axis of the face (in the pose of the
    box), and the point on the box is the centre moved onto the face. *)
Theorem box_sphere_center_inside :
  forall (DistanceEpsilon SquaredDistanceEpsilon sizeX sizeY sizeZ radius : R)
         (boxPose spherePose : RigidTransform3d) (contacts : list Contact),
    0 <= SquaredDistanceEpsilon -> 0 <= radius ->
    let center := transformPoint (inverse boxPose) (translation spherePose) in
    let halfExtent := mkVector3d (sizeX * 0.5) (sizeY * 0.5) (sizeZ * 0.5) in
    Rabs (vx center) <= vx halfExtent ->
    Rabs (vy center) <= vy halfExtent ->
    Rabs (vz center) <= vz halfExtent ->
    let axis := indexOfMinimum (vx halfExtent - Rabs (vx center))
                               (vy halfExtent - Rabs (vy center))
                               (vz halfExtent - Rabs (vz center)) in
    let direction := if Rgt_dec (coeff center axis) (- DistanceEpsilon) then 1 else -1 in
    BoxSphere.doCalculateContact DistanceEpsilon SquaredDistanceEpsilon
      (boxSpherePair sizeX sizeY sizeZ radius boxPose spherePose contacts) =
    Done (boxSpherePair sizeX sizeY sizeZ radius boxPose spherePose
            (contacts ++
             [mkContact (coeff halfExtent axis - Rabs (coeff center axis) + radius)
                (Finite (mulMV (linear boxPose) (setCoeff Zero axis direction)))
                (mkLocation
                   (Some (Finite (transformPoint boxPose
                                    (setCoeff center axis
                                       (coeff halfExtent axis * direction))))),
                 mkLocation
                   (Some (Finite (vadd (translation spherePose)
                                    (vscale (mulMV (linear boxPose)
                                               (setCoeff Zero axis direction))
                                            radius)))))])).
Proof.
  intros eps eps2 sizeX sizeY sizeZ radius boxPose spherePose contacts Heps Hr
    center halfExtent Hx Hy Hz axis direction.
  unfold BoxSphere.doCalculateContact, boxSpherePair.
  cbn [getFirst getSecond getShape getPose].
  fold center. cbn [vx vy vz] in *.
  rewrite !clamp_inside by assumption.
  replace (mkVector3d (vx center) (vy center) (vz center)) with center
    by (destruct center; reflexivity).
  rewrite vsub_diag.
  assert (Hs : squaredNorm Zero = 0) by (unfold squaredNorm, Zero; simpl; lra).
  rewrite Hs.
  destruct (Rgt_dec (0 - radius * radius) eps2) as [Hgt|_]; [nra|].
  destruct (Rle_dec 0 eps2) as [_|Hn]; [|lra].
  cbn [vx vy vz].
  change (indexOfMinimum (sizeX * 0.5 - Rabs (vx center))
            (sizeY * 0.5 - Rabs (vy center)) (sizeZ * 0.5 - Rabs (vz center)))
    with axis.
  change (if Rgt_dec (coeff center axis) (- eps) then 1 else -1) with direction.
  change (mkVector3d (sizeX * 0.5) (sizeY * 0.5) (sizeZ * 0.5)) with halfExtent.
  cbn [addContact getFirst getSecond getContacts linear translation fmap3].
  assert (Hc : coeff (mkVector3d (sizeX * 0.5 - Rabs (vx center))
                        (sizeY * 0.5 - Rabs (vy center))
                        (sizeZ * 0.5 - Rabs (vz center))) axis
               = coeff halfExtent axis - Rabs (coeff center axis)).
  { destruct axis as [|[|?]]; reflexivity. }
  rewrite Hc.
  assert (Hpos : forall i, 0 <= coeff halfExtent i - Rabs (coeff center i)).
  { intros [|[|?]]; unfold halfExtent in *; simpl in *; lra. }
  specialize (Hpos axis).
  replace (Rabs (- Rabs (coeff halfExtent axis - Rabs (coeff center axis)) - radius))
    with (coeff halfExtent axis - Rabs (coeff center axis) + radius).
  2:{ rewrite (Rabs_pos_eq _ Hpos).
      rewrite (Rabs_left1 (- (coeff halfExtent axis - Rabs (coeff center axis)) - radius))
        by lra.
      lra. }
  reflexivity.
Qed.

Lemma box_sphere_center_inside_witness :
  exists axis direction,
    let center := transformPoint (inverse Scene.atOrigin) (translation Scene.alongX) in
    let halfExtent := mkVector3d (4 * 0.5) (4 * 0.5) (6 * 0.5) in
    BoxSphere.doCalculateContact Scene.epsilon Scene.epsilon
      (boxSpherePair 4 4 6 1 Scene.atOrigin Scene.alongX []) =
    Done (boxSpherePair 4 4 6 1 Scene.atOrigin Scene.alongX
            ([] ++
             [mkContact (coeff halfExtent axis - Rabs (coeff center axis) + 1)
                (Finite (mulMV (linear Scene.atOrigin) (setCoeff Zero axis direction)))
                (mkLocation
                   (Some (Finite (transformPoint Scene.atOrigin
                                    (setCoeff center axis
                                       (coeff halfExtent axis * direction))))),
                 mkLocation
                   (Some (Finite (vadd (translation Scene.alongX)
                                    (vscale (mulMV (linear Scene.atOrigin)
                                               (setCoeff Zero axis direction))
                                            1)))))])).
Proof.
  do 2 eexists.
  apply (box_sphere_center_inside Scene.epsilon Scene.epsilon 4 4 6 1
           Scene.atOrigin Scene.alongX []).
  - unfold Scene.epsilon. lra.
  - lra.
  - simpl. unfold Math.dot. simpl. unfold Rabs. destruct (Rcase_abs _); lra.
  - simpl. unfold Math.dot. simpl. unfold Rabs. destruct (Rcase_abs _); lra.
  - simpl. unfold Math.dot. simpl. unfold Rabs. destruct (Rcase_abs _); lra.
Defined.

(** X29. A sphere whose centre lies outside the box, further than the epsilon
    from it: with d the distance of the centre to the closest point of the
    box, no contact is added when d^2 - radius^2 exceeds the epsilon;
    otherwise one contact is added, with depth |d - radius|, with the unit
    vector from the centre toward the closest point (in the pose of the box)
    as normal, and with the closest point and the centre moved by the radius
    along the normal as penetration points. *)
Theorem box_sphere_center_outside :
  forall (DistanceEpsilon SquaredDistanceEpsilon sizeX sizeY sizeZ radius : R)
         (boxPose spherePose : RigidTransform3d) (contacts : list Contact),
    let center := transformPoint (inverse boxPose) (translation spherePose) in
    let closest :=
      mkVector3d (Rmax (- (sizeX * 0.5)) (Rmin (sizeX * 0.5) (vx center)))
                 (Rmax (- (sizeY * 0.5)) (Rmin (sizeY * 0.5) (vy center)))
                 (Rmax (- (sizeZ * 0.5)) (Rmin (sizeZ * 0.5) (vz center))) in
    let toBox := vsub closest center in
    0 <= SquaredDistanceEpsilon ->
    SquaredDistanceEpsilon < squaredNorm toBox ->
    (squaredNorm toBox - radius * radius > SquaredDistanceEpsilon ->
     BoxSphere.doCalculateContact DistanceEpsilon SquaredDistanceEpsilon
       (boxSpherePair sizeX sizeY sizeZ radius boxPose spherePose contacts) =
     Done (boxSpherePair sizeX sizeY sizeZ radius boxPose spherePose contacts))
    /\ (squaredNorm toBox - radius * radius <= SquaredDistanceEpsilon ->
        exists n,
          norm n = 1 /\ vscale n (norm toBox) = toBox
          /\ BoxSphere.doCalculateContact DistanceEpsilon SquaredDistanceEpsilon
               (boxSpherePair sizeX sizeY sizeZ radius boxPose spherePose contacts) =
             Done (boxSpherePair sizeX sizeY sizeZ radius boxPose spherePose
                     (contacts ++
                      [mkContact (Rabs (norm toBox - radius))
                         (Finite (mulMV (linear boxPose) n))
                         (mkLocation
                            (Some (Finite (transformPoint boxPose closest))),
                          mkLocation
                            (Some (Finite (vadd (translation spherePose)
                                             (vscale (mulMV (linear boxPose) n)
                                                     radius)))))]))).
Proof.
  intros eps eps2 sizeX sizeY sizeZ radius boxPose spherePose contacts
    center closest toBox Heps Hout.
  unfold BoxSphere.doCalculateContact, boxSpherePair.
  cbn [getFirst getSecond getShape getPose].
  fold center. cbn [vx vy vz]. fold closest. fold toBox.
  split.
  - intros Hfar. destruct (Rgt_dec _ _) as [_|Hn]; [reflexivity | contradiction].
  - intros Hnear. destruct (Rgt_dec _ _) as [Hgt|_]; [lra|].
    destruct (Rle_dec _ _) as [Hle|_]; [lra|].
    assert (Hn : norm toBox <> 0).
    { intros E. pose proof (norm_square toBox) as Hsq. rewrite E in Hsq. lra. }
    destruct (vdiv_norm_unit toBox Hn) as (n & En & Hunit & Hscale).
    exists n. split; [exact Hunit|]. split; [exact Hscale|].
    rewrite En. reflexivity.
Qed.

Lemma box_sphere_center_outside_witness :
  exists n,
    let center := transformPoint (inverse Scene.atOrigin) (translation Scene.alongX) in
    let closest :=
      mkVector3d (Rmax (- (2 * 0.5)) (Rmin (2 * 0.5) (vx center)))
                 (Rmax (- (4 * 0.5)) (Rmin (4 * 0.5) (vy center)))
                 (Rmax (- (6 * 0.5)) (Rmin (6 * 0.5) (vz center))) in
    norm n = 1
    /\ BoxSphere.doCalculateContact Scene.epsilon Scene.epsilon
         (boxSpherePair 2 4 6 1 Scene.atOrigin Scene.alongX []) =
       Done (boxSpherePair 2 4 6 1 Scene.atOrigin Scene.alongX
               ([] ++
                [mkContact (Rabs (norm (vsub closest center) - 1))
                   (Finite (mulMV (linear Scene.atOrigin) n))
                   (mkLocation
                      (Some (Finite (transformPoint Scene.atOrigin closest))),
                    mkLocation
                      (Some (Finite (vadd (translation Scene.alongX)
                                       (vscale (mulMV (linear Scene.atOrigin) n) 1)))))])).
Proof.
  assert (Ec : transformPoint (inverse Scene.atOrigin) (translation Scene.alongX)
               = mkVector3d 1.5 0 0).
  { unfold transformPoint, inverse, vadd, vopp, mulMV, dot. simpl. f_equal; lra. }
  assert (Ex : Rmax (- (2 * 0.5)) (Rmin (2 * 0.5) 1.5) = 1).
  { rewrite Rmin_left by lra. rewrite Rmax_right by lra. lra. }
  assert (Ey : forall h, 0 <= h -> Rmax (- h) (Rmin h 0) = 0).
  { intros h Hh. rewrite Rmin_right by lra. apply Rmax_right. lra. }
  destruct (box_sphere_center_outside Scene.epsilon Scene.epsilon 2 4 6 1
              Scene.atOrigin Scene.alongX []) as [_ Hnear].
  - unfold Scene.epsilon. lra.
  - rewrite Ec. cbn [vx vy vz]. rewrite Ex, !Ey by lra.
    unfold squaredNorm, vsub, Scene.epsilon. simpl. lra.
  - destruct Hnear as (n & Hunit & _ & E).
    + rewrite Ec. cbn [vx vy vz]. rewrite Ex, !Ey by lra.
      unfold squaredNorm, vsub, Scene.epsilon. simpl. lra.
    + exists n. split; [exact Hunit | exact E].
Defined.

End ContactProofs.

(** ** More on the constraint implementation factory *)

Module FactoryOrderProofs.
Import Framework Factory FactoryProofs.

Section Counts.
Variables REPRESENTATION_TYPE_COUNT MLCP_NUM_CONSTRAINT_TYPES : Z.

Local Abbreviation add := (addImplementation REPRESENTATION_TYPE_COUNT MLCP_NUM_CONSTRAINT_TYPES).
Local Abbreviation adds := (addImplementations REPRESENTATION_TYPE_COUNT MLCP_NUM_CONSTRAINT_TYPES).
Local Abbreviation get := (getImplementation REPRESENTATION_TYPE_COUNT MLCP_NUM_CONSTRAINT_TYPES).
Local Abbreviation empty := (emptyFactory REPRESENTATION_TYPE_COUNT MLCP_NUM_CONSTRAINT_TYPES).
Local Abbreviation dimensioned := (Factory.dimensioned REPRESENTATION_TYPE_COUNT MLCP_NUM_CONSTRAINT_TYPES).

Local Abbreviation typesInRange :=
  (FactoryRanges.typesInRange REPRESENTATION_TYPE_COUNT MLCP_NUM_CONSTRAINT_TYPES).

Lemma add_in_range impl f :
  typesInRange impl -> exists f', add impl f = Some f'.
Proof.
  intros [Hr Hc]. unfold addImplementation. rewrite Hr, Hc. simpl. eauto.
Qed.

Lemma add_some_in_range impl f f' : add impl f = Some f' -> typesInRange impl.
Proof.
  unfold addImplementation, FactoryRanges.typesInRange.
  destruct (inRange _ _); [|discriminate].
  destruct (inRange _ _); [|discriminate]. auto.
Qed.

Lemma adds_in_range impls : forall f,
  Forall typesInRange impls <-> exists f', adds impls f = Some f'.
Proof.
  induction impls as [|i rest IH]; simpl; intros f.
  - split; [eauto | constructor].
  - split.
    + intros Hall. apply Forall_cons in Hall as [Hi Hrest].
      destruct (add_in_range i f Hi) as [f1 ->]. now apply IH.
    + intros [f' Hf']. destruct (add i f) as [f1|] eqn:E; [|discriminate].
      apply Forall_cons. split; [eapply add_some_in_range; eassumption|].
      apply (IH f1). eauto.
Qed.

Lemma adds_lookup impls : forall f r c impl,
  NoDup (typesOf <$> impls) ->
  adds impls empty = Some f -> (0 <= r)%Z -> (0 <= c)%Z ->
  at2 f r c = Some impl <-> (In impl impls /\ typesOf impl = (r, c)).
Proof.
  induction impls as [|i rest IH] using rev_ind; intros f r c impl Hnd Hadds Hr Hc.
  - simpl in Hadds. injection Hadds as <-. rewrite at2_empty.
    split; [discriminate | intros [[] _]].
  - rewrite fmap_app in Hnd. apply NoDup_app in Hnd as (Hnd & Hdisj & _).
    apply adds_app in Hadds as (f1 & H1 & H2). simpl in H2.
    destruct (add i f1) as [f2|] eqn:E; [|discriminate]. injection H2 as <-.
    pose proof (adds_dimensioned _ _ _ _ _
                  (dimensioned_empty REPRESENTATION_TYPE_COUNT MLCP_NUM_CONSTRAINT_TYPES) H1)
      as Hd.
    destruct (decide (typesOf i = (r, c))) as [Hi|Hi].
    + destruct (at2_add_same _ _ _ _ _ Hd E) as (_ & _ & Hat).
      injection Hi as <- <-. rewrite Hat. split.
      * intros [= <-]. split; [apply in_or_app; right; now left | reflexivity].
      * intros [Hin Ht]. apply in_app_or in Hin as [Hin|[<-|[]]]; [|reflexivity].
        exfalso. apply (Hdisj (typesOf impl)).
        -- apply list_elem_of_fmap. exists impl. split; [reflexivity|].
           now apply list_elem_of_In.
        -- rewrite Ht. simpl. left.
    + rewrite (at2_add_other _ _ _ _ _ _ _ E Hr Hc Hi).
      rewrite (IH f1 r c impl Hnd H1 Hr Hc). split.
      * intros [Hin Ht]. split; [apply in_or_app; now left | exact Ht].
      * intros [Hin Ht]. apply in_app_or in Hin as [Hin|[<-|[]]]; [now split|].
        contradiction.
Qed.

End Counts.

(** X8. [getImplementation] fails its first assertion for a representation type
    outside the array, whatever the constraint type is, and its second one
    for a constraint type outside the array; it returns otherwise. *)
Theorem getImplementation_out_of_range :
  forall (REPRESENTATION_TYPE_COUNT MLCP_NUM_CONSTRAINT_TYPES : Z)
         (f : ConstraintImplementationFactory) (r c : Z),
    (~ (0 <= r < REPRESENTATION_TYPE_COUNT)%Z ->
     getImplementation REPRESENTATION_TYPE_COUNT MLCP_NUM_CONSTRAINT_TYPES f r c =
       AssertionFailure "Invalid representation type")
    /\ ((0 <= r < REPRESENTATION_TYPE_COUNT)%Z ->
        ~ (0 <= c < MLCP_NUM_CONSTRAINT_TYPES)%Z ->
        getImplementation REPRESENTATION_TYPE_COUNT MLCP_NUM_CONSTRAINT_TYPES f r c =
          AssertionFailure "Invalid constraint type")
    /\ ((0 <= r < REPRESENTATION_TYPE_COUNT)%Z ->
        (0 <= c < MLCP_NUM_CONSTRAINT_TYPES)%Z ->
        exists implementation log,
          getImplementation REPRESENTATION_TYPE_COUNT MLCP_NUM_CONSTRAINT_TYPES f r c =
            Returns implementation log).
Proof.
  intros RC NC f r c. unfold getImplementation.
  pose proof (inRange_spec r RC) as Hr. pose proof (inRange_spec c NC) as Hc.
  destruct (inRange r RC); destruct (inRange c NC); simpl;
    repeat split; intros; eauto;
    try (exfalso; intuition (discriminate || lia)).
Qed.

Lemma getImplementation_out_of_range_witness :
  getImplementation 5 7 (emptyFactory 5 7) 5 9 =
    AssertionFailure "Invalid representation type"
  /\ getImplementation 5 7 (emptyFactory 5 7) 4 7 =
    AssertionFailure "Invalid constraint type"
  /\ exists implementation log,
      getImplementation 5 7 (emptyFactory 5 7) 4 6 = Returns implementation log.
Proof.
  destruct (getImplementation_out_of_range 5 7 (emptyFactory 5 7) 5 9) as (H1 & _ & _).
  destruct (getImplementation_out_of_range 5 7 (emptyFactory 5 7) 4 7) as (_ & H2 & _).
  destruct (getImplementation_out_of_range 5 7 (emptyFactory 5 7) 4 6) as (_ & _ & H3).
  split; [apply H1; lia|]. split; [apply H2; lia|]. apply H3; lia.
Defined.

(** X9. Implementations registered for pairwise distinct pairs of types can be
    registered in any order: every lookup answers the same. *)
Theorem registration_order_irrelevant :
  forall (REPRESENTATION_TYPE_COUNT MLCP_NUM_CONSTRAINT_TYPES : Z)
         (impls impls' : list ConstraintImplementation)
         (f : ConstraintImplementationFactory),
    NoDup (typesOf <$> impls) ->
    Permutation impls impls' ->
    addImplementations REPRESENTATION_TYPE_COUNT MLCP_NUM_CONSTRAINT_TYPES impls
      (emptyFactory REPRESENTATION_TYPE_COUNT MLCP_NUM_CONSTRAINT_TYPES) = Some f ->
    exists f',
      addImplementations REPRESENTATION_TYPE_COUNT MLCP_NUM_CONSTRAINT_TYPES impls'
        (emptyFactory REPRESENTATION_TYPE_COUNT MLCP_NUM_CONSTRAINT_TYPES) = Some f'
      /\ forall r c,
          getImplementation REPRESENTATION_TYPE_COUNT MLCP_NUM_CONSTRAINT_TYPES f' r c =
          getImplementation REPRESENTATION_TYPE_COUNT MLCP_NUM_CONSTRAINT_TYPES f r c.
Proof.
  intros RC NC impls impls' f Hnd Hperm Hadds.
  assert (Hall : Forall (FactoryRanges.typesInRange RC NC) impls').
  { rewrite <- Hperm. apply (adds_in_range RC NC impls (emptyFactory RC NC)). eauto. }
  apply (adds_in_range RC NC impls' (emptyFactory RC NC)) in Hall as [f' Hf'].
  exists f'. split; [exact Hf'|]. intros r c.
  unfold getImplementation.
  destruct (inRange r RC) eqn:Hr; [|reflexivity].
  destruct (inRange c NC) eqn:Hc; [|reflexivity]. simpl.
  apply inRange_spec in Hr, Hc.
  assert (Hnd' : NoDup (typesOf <$> impls')) by now rewrite <- Hperm.
  assert (E : at2 f' r c = at2 f r c).
  { destruct (at2 f r c) as [impl|] eqn:E1.
    - apply (adds_lookup RC NC impls f r c impl Hnd Hadds) in E1 as [Hin Ht];
        [|lia|lia].
      apply (adds_lookup RC NC impls' f' r c impl Hnd' Hf'); [lia|lia|].
      split; [|exact Ht]. apply list_elem_of_In. rewrite <- Hperm.
      now apply list_elem_of_In.
    - destruct (at2 f' r c) as [impl|] eqn:E2; [|reflexivity].
      apply (adds_lookup RC NC impls' f' r c impl Hnd' Hf') in E2 as [Hin Ht];
        [|lia|lia].
      assert (E3 : at2 f r c = Some impl).
      { apply (adds_lookup RC NC impls f r c impl Hnd Hadds); [lia|lia|].
        split; [|exact Ht]. apply list_elem_of_In. rewrite Hperm.
        now apply list_elem_of_In. }
      congruence. }
  rewrite E. reflexivity.
Qed.

Lemma registration_order_irrelevant_witness :
  exists f f',
    addImplementations 5 7 [Scene.rigidContact; Scene.fixedContact] (emptyFactory 5 7)
      = Some f
    /\ addImplementations 5 7 [Scene.fixedContact; Scene.rigidContact] (emptyFactory 5 7)
      = Some f'
    /\ forall r c, getImplementation 5 7 f' r c = getImplementation 5 7 f r c.
Proof.
  assert (E : exists f,
             addImplementations 5 7 [Scene.rigidContact; Scene.fixedContact]
               (emptyFactory 5 7) = Some f) by (eexists; reflexivity).
  destruct E as [f E].
  destruct (registration_order_irrelevant 5 7
              [Scene.rigidContact; Scene.fixedContact]
              [Scene.fixedContact; Scene.rigidContact] f) as (f' & E' & Hsame).
  - simpl. apply NoDup_cons. split; [|apply NoDup_singleton].
    intros Hin%list_elem_of_singleton. discriminate.
  - apply perm_swap.
  - exact E.
  - exists f, f'. split; [exact E|]. split; [exact E' | exact Hsame].
Defined.

End FactoryOrderProofs.

(** ** More on push-results *)

Module PushResultsLoopProofs.
Import Framework Eigen Physics PushResultsProofs.

Section PushResults.
Context {Rep : Type} `{Representation Rep}.

Lemma push_all_mapped dt dofCorrection mapping (representations : list Rep) :
  forall pos,
    (forall k, (k < length representations)%nat ->
               (0 <= getValue mapping (pos + k))%Z) ->
    pushToRepresentations dt dofCorrection mapping pos representations =
    Returns
      (imap (fun k it =>
               applyDofCorrection dt
                 (block dofCorrection (Z.to_nat (getValue mapping (pos + k)))
                    (getNumDof it)) it)
            representations) [].
Proof.
  induction representations as [|it rest IH]; intros pos Hall; simpl.
  - reflexivity.
  - pose proof (Hall 0%nat ltac:(simpl; lia)) as Hhead.
    rewrite Nat.add_0_r in *.
    destruct (Z.ltb_spec (getValue mapping pos) 0); [lia|].
    rewrite (IH (S pos)).
    + do 2 f_equal. apply imap_ext. intros k it' _. simpl.
      now rewrite Nat.add_succ_r.
    + intros k Hk. replace (S pos + k)%nat with (pos + S k)%nat by lia.
      apply Hall. simpl. lia.
Qed.

Lemma push_unmapped dt dofCorrection mapping (representations : list Rep) :
  forall pos k,
    (k < length representations)%nat ->
    (getValue mapping (pos + k) < 0)%Z ->
    pushToRepresentations dt dofCorrection mapping pos representations =
    AssertionFailure "Bad index found for representation".
Proof.
  induction representations as [|it rest IH]; intros pos k Hk Hneg; simpl in *.
  - lia.
  - destruct (Z.ltb_spec (getValue mapping pos) 0); [reflexivity|].
    destruct k as [|k]; [rewrite Nat.add_0_r in Hneg; lia|].
    rewrite (IH (S pos) k); [reflexivity | lia |].
    replace (S pos + k)%nat with (pos + S k)%nat by lia. exact Hneg.
Qed.

End PushResults.

(** X10. With a solution that is not empty and every representation mapped to an
    index that is not negative, [doUpdate] returns: the correction CHt x is
    stored beside x, and the representation at position [pos] is given the
    block of the correction that starts at its index and has as many rows as
    it has degrees of freedom. *)
Theorem push_results_corrections :
  forall (Rep : Type) (R_ops : Representation Rep) (dt : R)
         (state : PhysicsManagerState Rep),
    x (getMlcpSolution state) <> [] ->
    (forall pos, (pos < length (getRepresentations state))%nat ->
                 (0 <= getValue (getRepresentationsMapping state) pos)%Z) ->
    let dofCorrection :=
      mulMV (CHt (getMlcpProblem state)) (x (getMlcpSolution state)) in
    doUpdate dt state =
    Returns
      (mkPhysicsManagerState
         (imap (fun pos it =>
                  applyDofCorrection dt
                    (block dofCorrection
                       (Z.to_nat (getValue (getRepresentationsMapping state) pos))
                       (getNumDof it)) it)
               (getRepresentations state))
         (getRepresentationsMapping state)
         (getMlcpProblem state)
         (mkMlcpSolution (x (getMlcpSolution state)) dofCorrection))
      [].
Proof.
  intros Rep R_ops dt state Hx Hall dofCorrection. unfold doUpdate.
  destruct (x (getMlcpSolution state)) as [|x0 xs] eqn:Ex; [congruence|].
  simpl length. cbn [Nat.eqb].
  rewrite push_all_mapped; [reflexivity|].
  intros k Hk. apply Hall, Hk.
Qed.

Lemma push_results_corrections_witness :
  doUpdate 0.001 Examples.oneConstraint =
  Returns
    (mkPhysicsManagerState
       (imap (fun pos it =>
                applyDofCorrection 0.001
                  (block (mulMV (replicate 12 [0.5]) [2])
                     (Z.to_nat (6 * Z.of_nat pos)) (getNumDof it)) it)
             [Chain.initialisedChain; Chain.freeParticles])
       (mkMlcpMapping (fun i => (6 * Z.of_nat i)%Z))
       (mkMlcpProblem [] [] [] (replicate 12 [0.5]))
       (mkMlcpSolution [2] (mulMV (replicate 12 [0.5]) [2])))
    [].
Proof.
  apply (push_results_corrections _ _ 0.001 Examples.oneConstraint).
  - discriminate.
  - intros pos _. simpl. lia.
Defined.

(** X11. With a solution that is not empty, a representation whose mapping index
    is negative makes [doUpdate] fail its assertion. *)
Theorem push_results_bad_index :
  forall (Rep : Type) (R_ops : Representation Rep) (dt : R)
         (state : PhysicsManagerState Rep) (pos : nat),
    x (getMlcpSolution state) <> [] ->
    (pos < length (getRepresentations state))%nat ->
    (getValue (getRepresentationsMapping state) pos < 0)%Z ->
    doUpdate dt state = AssertionFailure "Bad index found for representation".
Proof.
  intros Rep R_ops dt state pos Hx Hpos Hneg. unfold doUpdate.
  destruct (x (getMlcpSolution state)) as [|x0 xs] eqn:Ex; [congruence|].
  simpl length. cbn [Nat.eqb].
  rewrite (push_unmapped _ _ _ _ 0%nat pos Hpos Hneg). reflexivity.
Qed.

Lemma push_results_bad_index_witness :
  doUpdate 0.001 Examples.unmapped =
  AssertionFailure "Bad index found for representation".
Proof.
  apply (push_results_bad_index _ _ 0.001 Examples.unmapped 1%nat).
  - discriminate.
  - simpl. lia.
  - simpl. lia.
Defined.

(** X12. Whatever the solver found, a push-results step that returns hands the
    mass-spring representations back as they were; only the correction
    stored in the solution changes. *)
Theorem push_results_mass_spring_untouched :
  forall (dt : R) (state state' : PhysicsManagerState MassSpring.MassSpringRepresentation)
         (log : list LogEntry),
    doUpdate dt state = Returns state' log ->
    getRepresentations state' = getRepresentations state
    /\ getRepresentationsMapping state' = getRepresentationsMapping state
    /\ getMlcpProblem state' = getMlcpProblem state
    /\ x (getMlcpSolution state') = x (getMlcpSolution state).
Proof.
  intros dt state state' log. unfold doUpdate.
  destruct (length _ =? 0)%nat.
  - intros [= <- _]. auto.
  - destruct (pushToRepresentations _ _ _ _ _) as [representations log'|msg] eqn:E;
      [|discriminate].
    intros [= <- _]. simpl.
    apply push_results_mass_spring in E. subst representations. auto.
Qed.

Lemma push_results_mass_spring_untouched_witness :
  exists state',
    doUpdate 0.001 Examples.oneConstraint = Returns state' []
    /\ getRepresentations state' = getRepresentations Examples.oneConstraint
    /\ dofCorrection (getMlcpSolution state') = mulMV (replicate 12 [0.5]) [2].
Proof.
  eexists. split; [reflexivity|]. split; [|reflexivity].
  eapply (push_results_mass_spring_untouched 0.001 Examples.oneConstraint).
  reflexivity.
Defined.

End PushResultsLoopProofs.

(** ** More on the linear solver *)

Module LinearSolverProofs.
Import Eigen Ode EigenFacts OdeProofs.

Section Solvers.
Variable MT : Type.
Variable computeF : OdeState -> Vector.
Variable computeM : OdeState -> MT.
Variable scaleM : MT -> R -> MT.
Variable solveAndInverse : MT -> Vector -> Vector * Matrix.

Local Abbreviation modified :=
  (ModifiedExplicitEuler_solve MT computeF computeM scaleM solveAndInverse).
Local Abbreviation linear :=
  (LinearModifiedExplicitEuler_solve MT computeF computeM scaleM solveAndInverse).

Lemma linear_initialized_after this dt currentState newState :
  m_initialized (fst (linear this dt currentState newState)) = true.
Proof.
  unfold LinearModifiedExplicitEuler_solve, ModifiedExplicitEuler_solve.
  destruct (m_initialized this) eqn:E; simpl; [exact E|].
  destruct (solveAndInverse _ _). reflexivity.
Qed.

Lemma linear_initialized_fixed calls : forall this s,
  m_initialized this = true -> fst (run MT linear calls this s) = this.
Proof.
  induction calls as [|[dt buffer] rest IH]; intros this s Hinit; simpl.
  - reflexivity.
  - unfold LinearModifiedExplicitEuler_solve at 1. rewrite Hinit. simpl.
    apply IH, Hinit.
Qed.

End Solvers.

(** X13. The linear solver fills its members during the first call and never
    again: after any number of further calls, whatever their time steps and
    states, the solver object is what the first call left. *)
Theorem linear_solver_computes_once :
  forall (MT : Type) computeF computeM scaleM solveAndInverse
         (this : OdeSolver MT) (dt : R) (buffer s : OdeState)
         (calls : list (R * OdeState)),
    fst (run MT (LinearModifiedExplicitEuler_solve MT computeF computeM scaleM
                   solveAndInverse) ((dt, buffer) :: calls) this s) =
    fst (LinearModifiedExplicitEuler_solve MT computeF computeM scaleM
           solveAndInverse this dt s buffer).
Proof.
  intros MT computeF computeM scaleM solveAndInverse this dt buffer s calls.
  simpl.
  pose proof (linear_initialized_after MT computeF computeM scaleM solveAndInverse
                this dt s buffer) as Hinit.
  destruct (LinearModifiedExplicitEuler_solve _ _ _ _ _ _ _ _ _) as [this' s'].
  simpl in *. apply linear_initialized_fixed, Hinit.
Qed.

(** X14. While the mass matrix and the time step are constant and the force
    depends on positions and velocities only, the linear solver started
    uninitialised computes the positions and velocities of the modified
    explicit Euler solver, over any number of calls. *)
Theorem linear_solver_positions_velocities :
  forall (MT : Type) computeF computeM scaleM solveAndInverse
         (dt : R) (M0 : MT) (calls : list (R * OdeState))
         (thisL thisM : OdeSolver MT) (s : OdeState),
    SolvesByInverse MT solveAndInverse ->
    InverseOfMatrixOnly MT solveAndInverse ->
    ConstantMass MT computeM M0 ->
    ForceOfPositionsVelocities computeF ->
    Forall (fun c => fst c = dt) calls ->
    m_initialized thisL = false ->
    samePositionsVelocities
      (snd (run MT (LinearModifiedExplicitEuler_solve MT computeF computeM scaleM
                      solveAndInverse) calls thisL s))
      (snd (run MT (ModifiedExplicitEuler_solve MT computeF computeM scaleM
                      solveAndInverse) calls thisM s)).
Proof.
  intros MT computeF computeM scaleM solveAndInverse dt M0 calls thisL thisM s
    Hsolve Hinv HM HF Hdt Hinit.
  apply (linear_refines_positions_velocities MT computeF computeM scaleM
           solveAndInverse dt M0 calls Hsolve Hinv HM HF Hdt thisL thisM s Hinit).
Qed.

Lemma linear_solver_positions_velocities_witness :
  samePositionsVelocities
    (snd (run R (LinearModifiedExplicitEuler_solve R PointMass.computeF
                   PointMass.computeM Rmult PointMass.solveAndInverse)
            PointMass.twoCalls newSolver PointMass.drifting))
    (snd (run R (ModifiedExplicitEuler_solve R PointMass.computeF
                   PointMass.computeM Rmult PointMass.solveAndInverse)
            PointMass.twoCalls newSolver PointMass.drifting)).
Proof.
  apply (linear_solver_positions_velocities R PointMass.computeF PointMass.computeM
           Rmult PointMass.solveAndInverse 0.5 2 PointMass.twoCalls).
  - apply solveAndInverse_contract.
  - apply solveAndInverse_inverse.
  - intros s. reflexivity.
  - split; intros; reflexivity.
  - repeat constructor.
  - reflexivity.
Defined.

End LinearSolverProofs.

(** ** Segments of a state vector *)

Module SegmentFacts.
Import Math Eigen EigenFacts MassSpring MassSpringProofs.

Lemma coeff_insert_eq (v : Vector) i a : (i < length v)%nat -> coeff (<[i:=a]> v) i = a.
Proof. intros Hi. unfold coeff. now rewrite list_lookup_insert_eq. Qed.

Lemma coeff_insert_ne (v : Vector) i j a : i <> j -> coeff (<[i:=a]> v) j = coeff v j.
Proof. intros Hne. unfold coeff. now rewrite list_lookup_insert_ne. Qed.

Lemma coeff_setSegment3_other v i a j :
  (j < i \/ i + 3 <= j)%nat -> coeff (setSegment3 v i a) j = coeff v j.
Proof.
  intros Hj. unfold setSegment3. rewrite !coeff_insert_ne by lia. reflexivity.
Qed.

Lemma segment3_setSegment3_same v i a :
  (i + 3 <= length v)%nat -> segment3 (setSegment3 v i a) i = a.
Proof.
  intros Hl. unfold segment3, setSegment3. destruct a as [ax ay az]. simpl.
  f_equal.
  - rewrite !coeff_insert_ne by lia. apply coeff_insert_eq. lia.
  - rewrite coeff_insert_ne by lia. apply coeff_insert_eq.
    rewrite length_insert. lia.
  - apply coeff_insert_eq. rewrite !length_insert. lia.
Qed.

Lemma segment3_setSegment3_other v i a j :
  (j + 3 <= i \/ i + 3 <= j)%nat -> segment3 (setSegment3 v i a) j = segment3 v j.
Proof.
  intros Hj. unfold segment3. rewrite !coeff_setSegment3_other by lia. reflexivity.
Qed.

(** A loop that rewrites the segment of each node from what the segment
    holds: every node of the loop ends with its rewritten segment, and the
    rest of the vector is left alone.  [stride] is the number of degrees of
    freedom of a node. *)
Lemma fold_segments (stride : nat) (h : nat -> Vector3d -> Vector3d) nodes :
  (3 <= stride)%nat -> NoDup nodes ->
  forall v,
    (forall i, In i nodes -> (stride * i + 3 <= length v)%nat) ->
    let r := foldl (fun v i => setSegment3 v (stride * i)
                                 (h i (segment3 v (stride * i)))) v nodes in
    (forall i, In i nodes -> segment3 r (stride * i) = h i (segment3 v (stride * i)))
    /\ (forall j, (forall i, In i nodes -> (j < stride * i \/ stride * i + 3 <= j)%nat) ->
                  coeff r j = coeff v j).
Proof.
  intros Hs. induction nodes as [|a rest IH]; intros Hnd v Hl; simpl.
  - split; [intros i [] | reflexivity].
  - apply NoDup_cons in Hnd as [Ha Hnd]. rewrite list_elem_of_In in Ha.
    set (v1 := setSegment3 v (stride * a) (h a (segment3 v (stride * a)))).
    assert (Hl1 : forall i, In i rest -> (stride * i + 3 <= length v1)%nat).
    { intros i Hi. unfold v1. rewrite length_setSegment3. apply Hl. now right. }
    destruct (IH Hnd v1 Hl1) as [Hseg Hrest]. clear IH.
    assert (Hapart : forall i, In i rest ->
              (stride * a + 3 <= stride * i \/ stride * i + 3 <= stride * a)%nat).
    { intros i Hi. assert (i <> a) by (intros ->; contradiction). nia. }
    split.
    + intros i [<-|Hi].
      * assert (E : forall k, (k < 3)%nat ->
                  coeff (foldl (fun v i => setSegment3 v (stride * i)
                                  (h i (segment3 v (stride * i)))) v1 rest)
                        (stride * a + k) = coeff v1 (stride * a + k)).
        { intros k Hk. apply Hrest. intros i Hi.
          destruct (Hapart i Hi); lia. }
        unfold segment3 at 1.
        rewrite <- (Nat.add_0_r (stride * a)) at 1.
        rewrite !E by lia. rewrite Nat.add_0_r.
        change (segment3 v1 (stride * a) = h a (segment3 v (stride * a))).
        apply segment3_setSegment3_same. apply Hl. now left.
      * rewrite (Hseg i Hi). f_equal. unfold v1.
        apply segment3_setSegment3_other. destruct (Hapart i Hi); lia.
    + intros j Hj. rewrite Hrest.
      * unfold v1. apply coeff_setSegment3_other.
        destruct (Hj a ltac:(now left)); lia.
      * intros i Hi. apply Hj. now right.
Qed.

Lemma fold_segments_seq (stride : nat) (h : nat -> Vector3d -> Vector3d) n v i :
  (3 <= stride)%nat -> (stride * n <= length v)%nat -> (i < n)%nat ->
  segment3 (foldl (fun v i => setSegment3 v (stride * i)
                                (h i (segment3 v (stride * i)))) v (seq 0 n))
           (stride * i)
  = h i (segment3 v (stride * i)).
Proof.
  intros Hs Hl Hi.
  destruct (fold_segments stride h (seq 0 n) Hs (NoDup_seq 0 n) v) as [Hseg _].
  - intros j Hj. apply in_seq in Hj. nia.
  - apply Hseg. apply in_seq. lia.
Qed.

Lemma fold_segments_between (stride : nat) (h : nat -> Vector3d -> Vector3d) n v i k :
  (3 <= stride)%nat -> (stride * n <= length v)%nat -> (3 <= k < stride)%nat ->
  coeff (foldl (fun v i => setSegment3 v (stride * i)
                             (h i (segment3 v (stride * i)))) v (seq 0 n))
        (stride * i + k)
  = coeff v (stride * i + k).
Proof.
  intros Hs Hl Hk.
  destruct (fold_segments stride h (seq 0 n) Hs (NoDup_seq 0 n) v) as [_ Hrest].
  - intros j Hj. apply in_seq in Hj. nia.
  - apply Hrest. intros j _. destruct (Nat.lt_ge_cases i j); [left; nia | right].
    destruct (decide (i = j)) as [->|Hne]; [lia|]. nia.
Qed.

End SegmentFacts.

(** ** More on the mass-spring representation *)

Module MassSpringMeshProofs.
Import Framework Math Eigen MassSpring MassSpringAccessors.
Import EigenFacts MassSpringProofs SegmentFacts.

(** *** init1D *)

Lemma addVertices_vertices (mk : nat -> Vertex) nodes : forall m,
  getVertices (foldl (fun m massId => addVertex m (mk massId)) m nodes)
    = getVertices m ++ (mk <$> nodes)
  /\ getEdges (foldl (fun m massId => addVertex m (mk massId)) m nodes) = getEdges m.
Proof.
  induction nodes as [|i nodes IH]; intros m; simpl.
  - now rewrite app_nil_r.
  - destruct (IH (addVertex m (mk i))) as [Hv He]. rewrite Hv, He. simpl.
    now rewrite <- app_assoc.
Qed.

Lemma addEdges_edges (mk : Mesh -> nat -> Edge) nodes :
  (forall m m' i, getVertices m = getVertices m' -> mk m i = mk m' i) ->
  forall m,
    getEdges (foldl (fun m massId => addEdge m (mk m massId)) m nodes)
    = getEdges m ++ (mk m <$> nodes).
Proof.
  intros Hmk. induction nodes as [|i nodes IH]; intros m; simpl.
  - now rewrite app_nil_r.
  - rewrite IH. simpl. rewrite <- app_assoc. simpl. do 2 f_equal.
    apply list_fmap_ext. intros _ j _. now apply Hmk.
Qed.

Lemma total_mass_equal_masses (m : R) (vs : list Vertex) : forall acc,
  Forall (fun v => getMass (data v) = m) vs ->
  foldl (fun mass v => mass + getMass (data v)) acc vs = acc + INR (length vs) * m.
Proof.
  induction vs as [|v vs IH]; intros acc Hall.
  - simpl. lra.
  - apply Forall_cons in Hall as [Hv Hvs].
    cbn [foldl]. rewrite (IH _ Hvs), Hv.
    change (length (v :: vs)) with (S (length vs)). rewrite S_INR. lra.
Qed.

Lemma INR_to_nat z : (0 <= z)%Z -> INR (Z.to_nat z) = IZR z.
Proof. intros Hz. rewrite INR_IZR_INZ, Z2Nat.id by exact Hz. reflexivity. Qed.

Section Init1D.
Variables (extremities : Vector3d * Vector3d) (numNodes : Z).
Variables (totalMass springStiffness springDamping : R).
Variable s0 : MassSpringRepresentation.

Local Abbreviation n := (Z.to_nat numNodes).
Local Abbreviation delta :=
  (vscale (vsub (snd extremities) (fst extremities)) (/ IZR (numNodes - 1))).
Local Abbreviation vertexOf :=
  (fun massId : nat =>
     mkVertex (transformPoint (m_initialPose s0)
                 (vadd (fst extremities) (vscale delta (INR massId))))
              (mkMassParameter (totalMass / IZR numNodes) Zero)).
Local Abbreviation edgeOf :=
  (fun (m : Mesh) (massId : nat) =>
     mkEdge (massId, (massId + 1)%nat)
       (mkLinearSpringParameter springStiffness springDamping
          (norm (vsub (getVertexPosition m (massId + 1))
                      (getVertexPosition m massId))))).

Hypothesis no_vertices : getVertices (m_initialState s0) = [].
Hypothesis no_edges : getEdges (m_initialState s0) = [].

Lemma init1D_mesh s1 log :
  init1D extremities numNodes totalMass springStiffness springDamping s0
    = Returns s1 log ->
  (0 < numNodes)%Z /\ log = []
  /\ getVertices (m_finalState s1) = vertexOf <$> seq 0 n
  /\ getEdges (m_finalState s1) =
       edgeOf (mkMesh (vertexOf <$> seq 0 n) []) <$> seq 0 (n - 1)
  /\ m_initialState s1 = m_finalState s1
  /\ MassSpring.getNumDof s1 = (3 * n)%nat
  /\ m_x s1 =
       foldl (fun v nodeId =>
                setSegment3 v (3 * nodeId)
                  (getVertexPosition (m_finalState s1) nodeId))
             (setZero (3 * n)) (seq 0 n)
  /\ m_xPrevious s1 = m_x s1
  /\ m_f s1 = setZero (3 * n).
Proof using no_vertices no_edges.
  unfold init1D. destruct (Z.ltb_spec 0 numNodes) as [Hn|Hn]; simpl; [|discriminate].
  intros [= <- <-]. simpl.
  split; [exact Hn|]. split; [reflexivity|].
  destruct (addVertices_vertices vertexOf (seq 0 n) (m_initialState s0)) as [Hv He].
  rewrite no_vertices in Hv. rewrite no_edges in He. simpl in Hv.
  split.
  { rewrite (addEdges_vertices edgeOf). exact Hv. }
  split.
  { rewrite (addEdges_edges edgeOf).
    - rewrite He. simpl. apply list_fmap_ext. intros _ i _.
      unfold getVertexPosition. rewrite Hv. reflexivity.
    - intros m m' i E. unfold getVertexPosition. now rewrite E. }
  repeat split; reflexivity.
Qed.

End Init1D.

(** X15. [init1D] asserts a positive number of nodes.  On a representation whose
    mesh is still empty it then builds that many masses, one spring less and
    three degrees of freedom per mass; every mass is the same share of the
    total mass and at rest, and the masses add up to the total mass. *)
Theorem init1D_masses :
  forall (extremities : Vector3d * Vector3d) (numNodes : Z)
         (totalMass springStiffness springDamping : R)
         (s0 : MassSpringRepresentation),
    getVertices (m_initialState s0) = [] ->
    getEdges (m_initialState s0) = [] ->
    ((numNodes <= 0)%Z ->
     init1D extremities numNodes totalMass springStiffness springDamping s0
       = AssertionFailure "Number of nodes incorrect")
    /\ ((0 < numNodes)%Z ->
        exists s1,
          init1D extremities numNodes totalMass springStiffness springDamping s0
            = Returns s1 []
          /\ getNumMasses s1 = Z.to_nat numNodes
          /\ getNumSprings s1 = (Z.to_nat numNodes - 1)%nat
          /\ MassSpring.getNumDof s1 = (3 * Z.to_nat numNodes)%nat
          /\ length (m_x s1) = (3 * Z.to_nat numNodes)%nat
          /\ length (m_v s1) = (3 * Z.to_nat numNodes)%nat
          /\ length (m_f s1) = (3 * Z.to_nat numNodes)%nat
          /\ getTotalMass s1 = totalMass
          /\ forall nodeId, (nodeId < Z.to_nat numNodes)%nat ->
               getMassParameter nodeId s1 =
               Returns (mkMassParameter (totalMass / IZR numNodes) Zero) []).
Proof.
  intros extremities numNodes totalMass springStiffness springDamping s0 Hv0 He0.
  split.
  - intros Hn. unfold init1D. destruct (Z.ltb_spec 0 numNodes); [lia|reflexivity].
  - intros Hn.
    destruct (init1D extremities numNodes totalMass springStiffness springDamping s0)
      as [s1 log|msg] eqn:E.
    2:{ unfold init1D in E. destruct (Z.ltb_spec 0 numNodes); [discriminate|lia]. }
    destruct (init1D_mesh _ _ _ _ _ _ Hv0 He0 _ _ E)
      as (_ & -> & Hv & Hed & _ & Hdof & Hx & Hxp & Hf).
    assert (Hrest : atRest (m_initialState s0)) by (unfold atRest; rewrite Hv0; constructor).
    destruct (init1D_initial_state _ _ _ _ _ _ _ _ Hrest E) as ([Hlx Hlf] & Hvz & _).
    assert (Hlv : length (m_v s1) = (3 * Z.to_nat numNodes)%nat).
    { rewrite Hvz. apply length_replicate. }
    exists s1. split; [reflexivity|].
    unfold getNumMasses, getNumSprings, getTotalMass, getMassParameter, getNumMasses.
    rewrite Hv, Hed, !length_fmap, !length_seq.
    repeat split; try congruence.
    + rewrite (total_mass_equal_masses (totalMass / IZR numNodes)).
      * rewrite length_fmap, length_seq, INR_to_nat by lia.
        field. apply not_0_IZR. lia.
      * apply Forall_fmap, Forall_forall. intros i _. reflexivity.
    + intros nodeId Hnode. destruct (Nat.ltb_spec nodeId (Z.to_nat numNodes)); [|lia].
      rewrite list_lookup_fmap, lookup_seq_lt by exact Hnode. reflexivity.
Qed.

Lemma init1D_masses_witness :
  exists s1,
    init1D (mkVector3d 0 0 0, mkVector3d 1 0 0) 2 2 2 0 Chain.blank = Returns s1 []
    /\ getNumMasses s1 = 2%nat
    /\ getNumSprings s1 = 1%nat
    /\ getTotalMass s1 = 2.
Proof.
  destruct (init1D_masses (mkVector3d 0 0 0, mkVector3d 1 0 0) 2 2 2 0 Chain.blank
              eq_refl eq_refl) as [_ H].
  destruct (H ltac:(lia)) as (s1 & E & Hm & Hs & _ & _ & _ & _ & Ht & _).
  exists s1. repeat split; assumption.
Defined.


Lemma transformPoint_difference t a b :
  vsub (transformPoint t a) (transformPoint t b) = Math.mulMV (linear t) (vsub a b).
Proof.
  unfold transformPoint, vsub, vadd, Math.mulMV, Math.dot. simpl. f_equal; ring.
Qed.

(** X16. With two nodes or more, [init1D] on a representation whose mesh is still
    empty places the first node at the first extremity and the last node at
    the second one (both through the initial pose), copies the position of
    every node into its segment of the state vector, and chains the nodes by
    springs that all have the same rest length. *)
Theorem init1D_geometry :
  forall (extremities : Vector3d * Vector3d) (numNodes : Z)
         (totalMass springStiffness springDamping : R)
         (s0 s1 : MassSpringRepresentation) (log : list LogEntry),
    getVertices (m_initialState s0) = [] ->
    getEdges (m_initialState s0) = [] ->
    (2 <= numNodes)%Z ->
    init1D extremities numNodes totalMass springStiffness springDamping s0
      = Returns s1 log ->
    let n := Z.to_nat numNodes in
    let restLength :=
      norm (Math.mulMV (linear (m_initialPose s0))
              (vscale (vsub (snd extremities) (fst extremities))
                      (/ IZR (numNodes - 1)))) in
    getVertexPosition (m_finalState s1) 0
      = transformPoint (m_initialPose s0) (fst extremities)
    /\ getVertexPosition (m_finalState s1) (n - 1)
      = transformPoint (m_initialPose s0) (snd extremities)
    /\ (forall nodeId, (nodeId < n)%nat ->
        segment3 (m_x s1) (3 * nodeId) = getVertexPosition (m_finalState s1) nodeId
        /\ segment3 (m_xPrevious s1) (3 * nodeId)
           = getVertexPosition (m_finalState s1) nodeId)
    /\ (forall springId, (springId < n - 1)%nat ->
        getSpringParameter springId s1 =
          Returns (mkLinearSpringParameter springStiffness springDamping restLength) []
        /\ vertices <$> getEdges (m_finalState s1) !! springId
           = Some (springId, (springId + 1)%nat)).
Proof.
  intros extremities numNodes totalMass springStiffness springDamping s0 s1 log
    Hv0 He0 Hn E n restLength.
  destruct (init1D_mesh _ _ _ _ _ _ Hv0 He0 _ _ E)
    as (_ & -> & Hv & Hed & _ & Hdof & Hx & Hxp & Hf).
  assert (Hpos : forall i, (i < n)%nat ->
            getVertexPosition (m_finalState s1) i =
            transformPoint (m_initialPose s0)
              (vadd (fst extremities)
                 (vscale (vscale (vsub (snd extremities) (fst extremities))
                            (/ IZR (numNodes - 1))) (INR i)))).
  { intros i Hi. unfold getVertexPosition.
    rewrite Hv, list_lookup_fmap, lookup_seq_lt by exact Hi. reflexivity. }
  assert (Hc : IZR (numNodes - 1) <> 0) by (apply not_0_IZR; lia).
  split; [|split; [|split]].
  - rewrite Hpos by (unfold n; lia). f_equal.
    unfold vadd, vscale. destruct (fst extremities). simpl. f_equal; lra.
  - rewrite Hpos by (unfold n; lia). f_equal.
    replace (INR (n - 1)) with (IZR (numNodes - 1)).
    2:{ unfold n. rewrite <- INR_to_nat by lia. f_equal. lia. }
    unfold vadd, vscale, vsub.
    destruct (fst extremities), (snd extremities). simpl. f_equal; field; exact Hc.
  - intros nodeId Hnode. rewrite Hxp, Hx.
    assert (Es : segment3
              (foldl (fun v i => setSegment3 v (3 * i)
                                   (getVertexPosition (m_finalState s1) i))
                     (setZero (3 * Z.to_nat numNodes)) (seq 0 (Z.to_nat numNodes)))
              (3 * nodeId) = getVertexPosition (m_finalState s1) nodeId).
    { apply (fold_segments_seq 3 (fun i _ => getVertexPosition (m_finalState s1) i));
        [lia | | exact Hnode].
      unfold setZero. rewrite length_replicate. lia. }
    split; exact Es.
  - intros springId Hspring. unfold getSpringParameter, getNumSprings.
    rewrite Hed, length_fmap, length_seq.
    destruct (Nat.ltb_spec springId (Z.to_nat numNodes - 1)); [|unfold n in *; lia].
    rewrite !list_lookup_fmap, lookup_seq_lt by exact Hspring. simpl.
    split; [|reflexivity]. do 3 f_equal.
    unfold getVertexPosition. simpl.
    rewrite !list_lookup_fmap, !lookup_seq_lt by (unfold n in *; lia). simpl.
    rewrite transformPoint_difference. unfold restLength. do 2 f_equal.
    rewrite Nat.add_1_r, S_INR.
    unfold vsub, vadd, vscale. simpl. f_equal; ring.
Qed.

Lemma init1D_geometry_witness :
  exists s1,
    init1D (mkVector3d 0 0 0, mkVector3d 1 0 0) 2 2 2 0 Chain.blank = Returns s1 []
    /\ getVertexPosition (m_finalState s1) 0
       = transformPoint (makeTranslation Zero) (mkVector3d 0 0 0)
    /\ getVertexPosition (m_finalState s1) 1
       = transformPoint (makeTranslation Zero) (mkVector3d 1 0 0).
Proof.
  eexists. split; [reflexivity|].
  edestruct (init1D_geometry (mkVector3d 0 0 0, mkVector3d 1 0 0) 2 2 2 0 Chain.blank)
    as (H0 & H1 & _); [reflexivity | reflexivity | lia | reflexivity |].
  split; [exact H0 | exact H1].
Defined.


(** *** Boundary conditions *)

(** X17. [addBoundaryCondition] appends: the count grows by one, the new
    condition is read back at the last index, the earlier ones are read back
    as before, and an index that is not below the count fails the assertion. *)
Theorem boundary_condition_round_trip :
  forall (nodeId : Z) (s : MassSpringRepresentation),
    getNumBoundaryConditions (addBoundaryCondition nodeId s)
      = S (getNumBoundaryConditions s)
    /\ getBoundaryCondition (getNumBoundaryConditions s) (addBoundaryCondition nodeId s)
      = Returns nodeId []
    /\ (forall bcId, (bcId < getNumBoundaryConditions s)%nat ->
        getBoundaryCondition bcId (addBoundaryCondition nodeId s)
        = getBoundaryCondition bcId s)
    /\ (forall bcId, (getNumBoundaryConditions s <= bcId)%nat ->
        getBoundaryCondition bcId s = AssertionFailure "Invalid boundary condition").
Proof.
  intros nodeId s. unfold getNumBoundaryConditions, getBoundaryCondition. simpl.
  rewrite length_app. simpl. repeat split.
  - lia.
  - destruct (Nat.ltb_spec (length (m_boundaryConditions s))
                (length (m_boundaryConditions s) + 1)); [|lia].
    rewrite lookup_app_r by lia. rewrite Nat.sub_diag. reflexivity.
  - intros bcId Hbc.
    destruct (Nat.ltb_spec bcId (length (m_boundaryConditions s) + 1)); [|lia].
    destruct (Nat.ltb_spec bcId (length (m_boundaryConditions s))); [|lia].
    rewrite lookup_app_l by lia. reflexivity.
  - intros bcId Hbc.
    destruct (Nat.ltb_spec bcId (length (m_boundaryConditions s))); [lia|reflexivity].
Qed.

Lemma boundary_condition_round_trip_witness :
  getBoundaryCondition 0 (addBoundaryCondition 1 Chain.initialisedChain)
    = getBoundaryCondition 0 Chain.initialisedChain
  /\ getBoundaryCondition 1 (addBoundaryCondition 1 Chain.initialisedChain)
    = Returns 1%Z []
  /\ getBoundaryCondition 1 Chain.initialisedChain
    = AssertionFailure "Invalid boundary condition".
Proof.
  destruct (boundary_condition_round_trip 1 Chain.initialisedChain)
    as (_ & Hnew & Hold & Hout).
  assert (Hcount : getNumBoundaryConditions Chain.initialisedChain = 1%nat)
    by reflexivity.
  rewrite Hcount in Hnew, Hold, Hout.
  split; [apply Hold; lia|]. split; [exact Hnew|]. apply Hout. lia.
Defined.

(** *** The calls of a tick *)

Section Calls.
Variable getF : LinearSpringParameter -> Vector3d -> Vector3d -> Vector3d -> Vector3d -> Vector3d.

Lemma calls_snoc cs c s : calls getF (cs ++ [c]) s = call getF c (calls getF cs s).
Proof. unfold calls. now rewrite foldl_app. Qed.

Lemma calls_cons c cs s : calls getF (c :: cs) s = calls getF cs (call getF c s).
Proof. reflexivity. Qed.

Lemma call_inactive c s : isActive s = false -> call getF c s = s.
Proof.
  intros Hs. destruct c; simpl;
    unfold beforeUpdate, update, applyDofCorrection, afterUpdate;
    rewrite Hs; reflexivity.
Qed.

Lemma masses_imap (f : nat -> Vertex -> Vertex) vs :
  (forall i v, getMass (data (f i v)) = getMass (data v)) ->
  (fun v => getMass (data v)) <$> imap f vs = (fun v => getMass (data v)) <$> vs.
Proof.
  intros Hf. revert f Hf. induction vs as [|v vs IH]; intros f Hf; simpl.
  - reflexivity.
  - rewrite Hf. f_equal. apply IH. intros i w. apply Hf.
Qed.

Lemma updateEulerExplicit_mesh dt modified s :
  m_finalState (updateEulerExplicit getF dt modified s) = m_finalState s
  /\ m_initialState (updateEulerExplicit getF dt modified s) = m_initialState s
  /\ isActive (updateEulerExplicit getF dt modified s) = isActive s
  /\ m_xPrevious (updateEulerExplicit getF dt modified s) = m_xPrevious s.
Proof. unfold updateEulerExplicit. destruct modified; simpl; auto. Qed.

Lemma call_mesh c s :
  masses (m_finalState (call getF c s)) = masses (m_finalState s)
  /\ getEdges (m_finalState (call getF c s)) = getEdges (m_finalState s)
  /\ m_initialState (call getF c s) = m_initialState s
  /\ isActive (call getF c s) = isActive s.
Proof.
  destruct c as [dt|dt|dt block|dt]; simpl.
  - unfold beforeUpdate. destruct (isActive s) eqn:Ha; simpl; repeat split; auto.
  - unfold update. destruct (isActive s) eqn:Ha; cbn [negb]; [|repeat split; auto].
    destruct (m_integrationScheme s);
      [destruct (updateEulerExplicit_mesh dt false s) as (E1 & E2 & E3 & _)
      |destruct (updateEulerExplicit_mesh dt true s) as (E1 & E2 & E3 & _)];
      rewrite E1, E2, E3; repeat split; auto.
  - unfold applyDofCorrection.
    destruct (isActive s) eqn:Ha; simpl; repeat split; auto.
  - unfold afterUpdate. destruct (isActive s) eqn:Ha; simpl; [|repeat split; auto].
    repeat split; try assumption. unfold masses. simpl.
    apply masses_imap. reflexivity.
Qed.

Lemma calls_mesh cs : forall s,
  masses (m_finalState (calls getF cs s)) = masses (m_finalState s)
  /\ getEdges (m_finalState (calls getF cs s)) = getEdges (m_finalState s)
  /\ m_initialState (calls getF cs s) = m_initialState s
  /\ isActive (calls getF cs s) = isActive s.
Proof.
  induction cs as [|c cs IH]; intros s; [repeat split; auto|].
  rewrite calls_cons.
  destruct (IH (call getF c s)) as (E1 & E2 & E3 & E4).
  destruct (call_mesh c s) as (F1 & F2 & F3 & F4).
  rewrite E1, E2, E3, E4. repeat split; auto.
Qed.

Lemma calls_xPrevious cs : forall s,
  Forall (fun c => forall dt, c <> BeforeUpdate dt) cs ->
  m_xPrevious (calls getF cs s) = m_xPrevious s.
Proof.
  induction cs as [|c cs IH]; intros s Hcs; [reflexivity|].
  apply Forall_cons in Hcs as [Hc Hcs]. rewrite calls_cons, (IH _ Hcs).
  destruct c as [dt|dt|dt block|dt]; simpl.
  - exfalso. now apply (Hc dt).
  - unfold update. destruct (isActive s); [|reflexivity].
    destruct (m_integrationScheme s); apply updateEulerExplicit_mesh.
  - unfold applyDofCorrection. destruct (isActive s); reflexivity.
  - unfold afterUpdate. destruct (isActive s); reflexivity.
Qed.

Lemma getTotalMass_masses s : getTotalMass s = foldl Rplus 0 (masses (m_finalState s)).
Proof.
  unfold getTotalMass, masses. generalize 0.
  induction (getVertices (m_finalState s)) as [|v vs IH]; intros acc; simpl.
  - reflexivity.
  - apply IH.
Qed.

Lemma massOf_masses s i : massOf s i = default 0 (masses (m_finalState s) !! i).
Proof.
  unfold massOf, masses. rewrite list_lookup_fmap.
  destruct (_ !! i); reflexivity.
Qed.

End Calls.

(** X18. A representation that is not active is left as it is by every call of
    the physics manager. *)
Theorem inactive_representation_frozen :
  forall getF (cs : list Call) (s : MassSpringRepresentation),
    isActive s = false -> calls getF cs s = s.
Proof.
  intros getF cs. induction cs as [|c cs IH]; intros s Hs; [reflexivity|].
  rewrite calls_cons, call_inactive by exact Hs. apply IH, Hs.
Qed.

Lemma inactive_representation_frozen_witness :
  calls Chain.linearSpring Chain.oneTick Examples.asleep = Examples.asleep.
Proof.
  apply (inactive_representation_frozen Chain.linearSpring Chain.oneTick Examples.asleep).
  reflexivity.
Defined.

(** X19. No sequence of calls changes the masses, the springs or the initial
    state: the number of masses and of springs, the mass of every node and
    the total mass are what they were. *)
Theorem calls_keep_masses_and_springs :
  forall getF (cs : list Call) (s : MassSpringRepresentation),
    let s' := calls getF cs s in
    getNumMasses s' = getNumMasses s
    /\ getNumSprings s' = getNumSprings s
    /\ getEdges (m_finalState s') = getEdges (m_finalState s)
    /\ (forall nodeId, massOf s' nodeId = massOf s nodeId)
    /\ getTotalMass s' = getTotalMass s
    /\ m_initialState s' = m_initialState s.
Proof.
  intros getF cs s s'.
  destruct (calls_mesh getF cs s) as (Hm & He & Hi & _). fold s' in Hm, He, Hi.
  repeat split.
  - unfold getNumMasses. apply (f_equal length) in Hm. unfold masses in Hm.
    now rewrite !length_fmap in Hm.
  - unfold getNumSprings. now rewrite He.
  - exact He.
  - intros nodeId. now rewrite !massOf_masses, Hm.
  - now rewrite !getTotalMass_masses, Hm.
  - exact Hi.
Qed.

(** X20. After [beforeUpdate], whatever is called before the next [beforeUpdate],
    the previous positions of an active representation are the positions it
    had when [beforeUpdate] was called. *)
Theorem previous_positions_snapshot :
  forall getF (dt : R) (cs : list Call) (s : MassSpringRepresentation),
    isActive s = true ->
    Forall (fun c => forall dt', c <> BeforeUpdate dt') cs ->
    m_xPrevious (calls getF (BeforeUpdate dt :: cs) s) = m_x s.
Proof.
  intros getF dt cs s Hs Hcs.
  rewrite calls_cons, calls_xPrevious by exact Hcs.
  simpl. unfold beforeUpdate. rewrite Hs. reflexivity.
Qed.

Lemma previous_positions_snapshot_witness :
  m_xPrevious (calls Chain.linearSpring Chain.oneTick Chain.freeParticles)
  = m_x Chain.freeParticles.
Proof.
  apply (previous_positions_snapshot Chain.linearSpring 0.001
           [Update 0.001; ApplyDofCorrection 0.001 [1; 1; 1; 1; 1; 1];
            AfterUpdate 0.001] Chain.freeParticles).
  - reflexivity.
  - repeat constructor; discriminate.
Defined.

(** X21. When a sequence of calls on an active representation ends with
    [afterUpdate], the mesh agrees with the state vectors: every vertex
    holds the position and the velocity of its segments, and the mass it
    had. *)
Theorem afterUpdate_writes_state_back :
  forall getF (dt : R) (cs : list Call) (s : MassSpringRepresentation)
         (vertexId : nat),
    isActive s = true ->
    (vertexId < getNumMasses s)%nat ->
    let s' := calls getF (cs ++ [AfterUpdate dt]) s in
    getVertices (m_finalState s') !! vertexId =
      Some (mkVertex (segment3 (m_x s') (3 * vertexId))
              (mkMassParameter (massOf s vertexId)
                 (segment3 (m_v s') (3 * vertexId)))).
Proof.
  intros getF dt cs s vertexId Hs Hv s'. unfold s'. rewrite calls_snoc.
  destruct (calls_mesh getF cs s) as (Hm & _ & _ & Ha).
  set (s1 := calls getF cs s) in *. simpl. unfold afterUpdate.
  rewrite Ha, Hs. simpl.
  assert (Hl : (vertexId < length (getVertices (m_finalState s1)))%nat).
  { apply (f_equal length) in Hm. unfold masses in Hm.
    rewrite !length_fmap in Hm. unfold getNumMasses in Hv. lia. }
  destruct (lookup_lt_is_Some_2 _ _ Hl) as [v Ev].
  rewrite list_lookup_imap, Ev. simpl. do 3 f_equal.
  rewrite massOf_masses, <- Hm. unfold masses.
  rewrite list_lookup_fmap, Ev. reflexivity.
Qed.

Lemma afterUpdate_writes_state_back_witness :
  getVertices (m_finalState (calls Chain.linearSpring Chain.oneTick Chain.freeParticles))
    !! 0%nat =
  Some (mkVertex
          (segment3 (m_x (calls Chain.linearSpring Chain.oneTick Chain.freeParticles))
             (3 * 0))
          (mkMassParameter (massOf Chain.freeParticles 0)
             (segment3 (m_v (calls Chain.linearSpring Chain.oneTick Chain.freeParticles))
                (3 * 0)))).
Proof.
  apply (afterUpdate_writes_state_back Chain.linearSpring 0.001
           [BeforeUpdate 0.001; Update 0.001;
            ApplyDofCorrection 0.001 [1; 1; 1; 1; 1; 1]]
           Chain.freeParticles 0).
  - reflexivity.
  - change (0 < 2)%nat. lia.
Defined.

End MassSpringMeshProofs.

(** ** The forces of the mass-spring representation *)

Module MassSpringForceProofs.
Import Framework Math Eigen MassSpring MassSpringAccessors.
Import EigenFacts MassSpringProofs SegmentFacts.

(** *** The two integration schemes *)

Lemma setCoeff_plus a b i :
  setCoeff (plus a b) i 0 = plus (setCoeff a i 0) (setCoeff b i 0).
Proof.
  unfold setCoeff, plus. destruct (i <? 0)%Z; [reflexivity|].
  rewrite <- insert_zip_with. f_equal. lra.
Qed.

Lemma setCoeff_times v dt i : setCoeff (times v dt) i 0 = times (setCoeff v i 0) dt.
Proof.
  unfold setCoeff, times. destruct (i <? 0)%Z; [reflexivity|].
  rewrite list_fmap_insert. f_equal. lra.
Qed.

Lemma zeroBoundaryConditions_plus bcs : forall a b,
  zeroBoundaryConditions bcs (plus a b)
  = plus (zeroBoundaryConditions bcs a) (zeroBoundaryConditions bcs b).
Proof.
  induction bcs as [|bc bcs IH]; intros a b; [reflexivity|].
  rewrite !zeroBoundaryConditions_cons, <- IH. f_equal.
  unfold zeroNode. now rewrite !setCoeff_plus.
Qed.

Lemma zeroBoundaryConditions_times bcs dt : forall v,
  zeroBoundaryConditions bcs (times v dt) = times (zeroBoundaryConditions bcs v) dt.
Proof.
  induction bcs as [|bc bcs IH]; intros v; [reflexivity|].
  rewrite !zeroBoundaryConditions_cons, <- IH. f_equal.
  unfold zeroNode. now rewrite !setCoeff_times.
Qed.

Lemma plus_times_plus x : forall a b dt,
  plus x (times (plus a b) dt) = plus (plus x (times a dt)) (times b dt).
Proof.
  unfold plus, times.
  induction x as [|c x IH]; intros [|a0 a] [|b0 b] dt; simpl; try reflexivity.
  f_equal; [lra | apply IH].
Qed.

(** X22. The explicit and the modified explicit Euler scheme compute the same
    velocities from the same state; the modified scheme moves every node
    further by the step of the velocity, dt (dt a), where a is the
    acceleration with the boundary conditions applied. *)
Theorem explicit_and_modified_schemes :
  forall getF (dt : R) (s : MassSpringRepresentation),
    let explicit := updateEulerExplicit getF dt false s in
    let modified := updateEulerExplicit getF dt true s in
    m_v modified = m_v explicit
    /\ m_x modified = plus (m_x explicit) (times (times (m_f explicit) dt) dt)
    /\ m_f explicit = zeroBoundaryConditions (m_boundaryConditions s) (m_f modified).
Proof.
  intros getF dt s. unfold updateEulerExplicit. simpl.
  rewrite zeroBoundaryConditions_plus, zeroBoundaryConditions_times.
  split; [reflexivity|]. split; [|reflexivity].
  apply plus_times_plus.
Qed.

(** *** Forces and accelerations *)

Lemma coeff_segment3 v j k :
  (k < 3)%nat -> Math.coeff (segment3 v j) k = coeff v (j + k).
Proof.
  intros Hk. unfold segment3.
  destruct k as [|[|[|k]]]; simpl; try lia; [now rewrite Nat.add_0_r|reflexivity|reflexivity].
Qed.

Lemma sum_update (g g' : nat -> R) node l :
  NoDup l ->
  (forall i, In i l -> i <> node -> g' i = g i) ->
  (~ In node l -> foldr Rplus 0 (g' <$> l) = foldr Rplus 0 (g <$> l))
  /\ (In node l ->
      foldr Rplus 0 (g' <$> l) = foldr Rplus 0 (g <$> l) - g node + g' node).
Proof.
  induction l as [|a l IH]; intros Hnd Hsame.
  - split; [reflexivity | intros []].
  - rewrite !fmap_cons. cbn [foldr].
    apply NoDup_cons in Hnd as [Ha Hnd]. rewrite list_elem_of_In in Ha.
    destruct (IH Hnd) as [Hout Hin]; [intros i Hi; apply Hsame; now right|].
    split.
    + intros Hnot. rewrite Hout by (intros Hl; apply Hnot; now right).
      rewrite (Hsame a); [reflexivity | now left |].
      intros ->. apply Hnot. now left.
    + intros [->|Hl].
      * rewrite Hout by exact Ha. lra.
      * rewrite (Hin Hl).
        rewrite (Hsame a); [lra | now left |].
        intros ->. contradiction.
Qed.

Lemma axisSum_setSegment3 k n f node a :
  (k < 3)%nat -> (node < n)%nat -> (3 * n <= length f)%nat ->
  axisSum k n (setSegment3 f (3 * node) a)
  = axisSum k n f - Math.coeff (segment3 f (3 * node)) k + Math.coeff a k.
Proof.
  intros Hk Hnode Hl. unfold axisSum.
  destruct (sum_update (fun i => coeff f (3 * i + k))
              (fun i => coeff (setSegment3 f (3 * node) a) (3 * i + k))
              node (seq 0 n) (NoDup_seq 0 n)) as [_ Hin].
  - intros i _ Hne. apply coeff_setSegment3_other. lia.
  - rewrite Hin by (apply in_seq; lia).
    rewrite <- !coeff_segment3 by exact Hk.
    rewrite segment3_setSegment3_same by lia. reflexivity.
Qed.

Lemma coeff_vadd a b k : Math.coeff (vadd a b) k = Math.coeff a k + Math.coeff b k.
Proof. destruct k as [|[|k]]; reflexivity. Qed.

Lemma coeff_vsub a b k : Math.coeff (vsub a b) k = Math.coeff a k - Math.coeff b k.
Proof. destruct k as [|[|k]]; reflexivity. Qed.

Lemma axisSum_spring k n f nodeId0 nodeId1 force :
  (k < 3)%nat -> (nodeId0 < n)%nat -> (nodeId1 < n)%nat -> (3 * n <= length f)%nat ->
  axisSum k n (subSegment3 (addSegment3 f nodeId0 force) nodeId1 force) = axisSum k n f.
Proof.
  intros Hk H0 H1 Hl. unfold subSegment3, addSegment3.
  rewrite axisSum_setSegment3; [|exact Hk|exact H1|now rewrite length_setSegment3].
  rewrite axisSum_setSegment3 by assumption.
  rewrite coeff_vsub, coeff_vadd. lra.
Qed.

Lemma axisSum_setZero k n m : axisSum k n (setZero m) = 0.
Proof.
  unfold axisSum. induction (seq 0 n) as [|i l IH]; [reflexivity|].
  rewrite fmap_cons. cbn [foldr]. rewrite IH, coeff_setZero. lra.
Qed.

Section Update.
Variable getF : LinearSpringParameter -> Vector3d -> Vector3d -> Vector3d -> Vector3d -> Vector3d.

Lemma axisSum_springs k n (state : MassSpringRepresentation) (edges : list Edge) :
  (k < 3)%nat ->
  Forall (fun e => (fst (vertices e) < n)%nat /\ (snd (vertices e) < n)%nat) edges ->
  forall f, (3 * n <= length f)%nat ->
    axisSum k n
      (foldl (fun f e =>
                let nodeId0 := fst (vertices e) in
                let nodeId1 := snd (vertices e) in
                let force :=
                  getF (edgeData e)
                    (segment3 (m_x state) (3 * nodeId0)) (segment3 (m_x state) (3 * nodeId1))
                    (segment3 (m_v state) (3 * nodeId0)) (segment3 (m_v state) (3 * nodeId1)) in
                subSegment3 (addSegment3 f nodeId0 force) nodeId1 force)
             f edges)
    = axisSum k n f.
Proof.
  intros Hk Hall. induction edges as [|e edges IH]; intros f Hl; [reflexivity|].
  apply Forall_cons in Hall as [[H0 H1] Hall]. cbn [foldl].
  rewrite (IH Hall).
  - apply axisSum_spring; assumption.
  - unfold subSegment3, addSegment3. now rewrite !length_setSegment3.
Qed.

Lemma forces_without_springs s nodeId :
  getEdges (m_finalState s) = [] ->
  (3 * getNumMasses s <= length (m_f s))%nat ->
  (nodeId < getNumMasses s)%nat ->
  segment3 (forces getF s) (3 * nodeId) =
  vscale (vsub (if isGravityEnabled s then getGravity s else Zero)
               (vscale (segment3 (m_v s) (3 * nodeId))
                       (massCoefficient (m_rayleighDamping s))))
         (massOf s nodeId).
Proof.
  intros He Hl Hnode. unfold forces. rewrite He. cbn [foldl].
  set (f0 := if isGravityEnabled s then _ else _).
  assert (Hl0 : length f0 = length (m_f s)).
  { unfold f0. destruct (isGravityEnabled s).
    - rewrite foldl_length by (intros; apply length_setSegment3).
      apply length_replicate.
    - apply length_replicate. }
  assert (E0 : segment3 f0 (3 * nodeId) =
               vscale (if isGravityEnabled s then getGravity s else Zero)
                      (massOf s nodeId)).
  { unfold f0. destruct (isGravityEnabled s).
    - apply (fold_segments_seq 3 (fun i _ => vscale (getGravity s) (massOf s i)));
        [lia | | exact Hnode].
      unfold setZero. rewrite length_replicate. exact Hl.
    - unfold segment3. rewrite !coeff_setZero. unfold vscale, Zero. simpl.
      f_equal; lra. }
  unfold addRayleighDampingForce.
  destruct (Req_dec_T _ _) as [Ec|Ec].
  - rewrite E0, Ec. unfold vscale, vsub. simpl. f_equal; lra.
  - unfold subSegment3.
    rewrite (fold_segments_seq 3
               (fun i seg =>
                  vsub seg (vscale (segment3 (m_v s) (3 * i))
                              (1.0 * massCoefficient (m_rayleighDamping s) * massOf s i))));
      [|lia|lia|exact Hnode].
    rewrite E0. unfold vscale, vsub. simpl. f_equal; lra.
Qed.

Lemma accelerations_segment s nodeId :
  (3 * getNumMasses s <= length (m_f s))%nat ->
  (nodeId < getNumMasses s)%nat ->
  segment3 (accelerations getF s) (3 * nodeId) =
  vscale (segment3 (forces getF s) (3 * nodeId)) (/ massOf s nodeId).
Proof.
  intros Hl Hnode. unfold accelerations.
  apply (fold_segments_seq 3 (fun i seg => vscale seg (/ massOf s i)));
    [lia | | exact Hnode].
  now rewrite length_forces.
Qed.

End Update.

(** X23. Without gravity and damping the forces gathered in a step are the
    spring forces alone, and they cancel: along each axis the forces of all
    the nodes add up to zero. *)
Theorem spring_forces_cancel :
  forall getF (s : MassSpringRepresentation) (k : nat),
    isGravityEnabled s = false ->
    massCoefficient (m_rayleighDamping s) = 0 ->
    springsInRange s ->
    (3 * getNumMasses s <= length (m_f s))%nat ->
    (k < 3)%nat ->
    axisSum k (getNumMasses s) (forces getF s) = 0.
Proof.
  intros getF s k Hg Hc Hsprings Hl Hk. unfold forces, addRayleighDampingForce.
  rewrite Hg. destruct (Req_dec_T _ _) as [_|Hne]; [|contradiction].
  rewrite (axisSum_springs getF k (getNumMasses s) s) ;
    [apply axisSum_setZero | exact Hk | exact Hsprings |].
  unfold setZero. now rewrite length_replicate.
Qed.

Lemma spring_forces_cancel_witness :
  axisSum 0 (getNumMasses Examples.springPair)
    (forces Chain.linearSpring Examples.springPair) = 0.
Proof.
  apply (spring_forces_cancel Chain.linearSpring Examples.springPair 0).
  - reflexivity.
  - reflexivity.
  - repeat constructor.
  - change (3 * 2 <= 6)%nat. lia.
  - lia.
Defined.

(** X24. A node that no spring holds accelerates with the gravity (when it is
    enabled) less the mass damping coefficient times its velocity, whatever
    its mass is, as long as that mass is not zero. *)
Theorem free_node_acceleration :
  forall getF (s : MassSpringRepresentation) (nodeId : nat),
    getEdges (m_finalState s) = [] ->
    (3 * getNumMasses s <= length (m_f s))%nat ->
    (nodeId < getNumMasses s)%nat ->
    massOf s nodeId <> 0 ->
    segment3 (accelerations getF s) (3 * nodeId) =
    vsub (if isGravityEnabled s then getGravity s else Zero)
         (vscale (segment3 (m_v s) (3 * nodeId))
                 (massCoefficient (m_rayleighDamping s))).
Proof.
  intros getF s nodeId He Hl Hnode Hm.
  rewrite accelerations_segment, forces_without_springs by assumption.
  unfold vscale, vsub. simpl. f_equal; field; exact Hm.
Qed.

Lemma free_node_acceleration_witness :
  segment3 (accelerations Chain.linearSpring Examples.falling) (3 * 0) =
  vsub (mkVector3d 0 (-9.81) 0) (vscale (mkVector3d 1 0 0) 0.5).
Proof.
  apply (free_node_acceleration Chain.linearSpring Examples.falling 0).
  - reflexivity.
  - change (3 * 2 <= 6)%nat. lia.
  - change (0 < 2)%nat. lia.
  - change (1 <> 0). lra.
Defined.

End MassSpringForceProofs.

(** ** The names of the constraint types *)

Module MlcpNamesProofs.
Import Framework MlcpNames.

(** X25. [getMlcpConstraintTypeName] names the seven constraint types of its
    [switch] without logging, and [getMlcpConstraintTypeValue] maps each of
    these names back to its type; for every other value the name is empty, a
    severe entry is logged, and the empty name maps to
    [MLCP_INVALID_CONSTRAINT] with a warning. *)
Theorem constraint_type_name_round_trip :
  forall t : MlcpConstraintType,
    (In t named ->
     snd (getMlcpConstraintTypeName t) = []
     /\ getMlcpConstraintTypeValue (fst (getMlcpConstraintTypeName t)) = (t, []))
    /\ (~ In t named ->
        getMlcpConstraintTypeName t =
          (EmptyString, [mkLogEntry SEVERE "bad MLCP constraint type value" []])
        /\ getMlcpConstraintTypeValue (fst (getMlcpConstraintTypeName t)) =
          (MLCP_INVALID_CONSTRAINT,
           [mkLogEntry WARNING "bad MLCP constraint type name" []])).
Proof.
  intros t. split.
  - intros Hin. unfold named in Hin. simpl in Hin.
    repeat (destruct Hin as [<-|Hin]; [split; reflexivity|]). destruct Hin.
  - intros Hnot. unfold named in Hnot. simpl in Hnot.
    destruct t; try (split; reflexivity); exfalso; tauto.
Qed.

Lemma constraint_type_name_round_trip_witness :
  getMlcpConstraintTypeValue
    (fst (getMlcpConstraintTypeName MLCP_UNILATERAL_3D_FRICTIONLESS_CONSTRAINT))
    = (MLCP_UNILATERAL_3D_FRICTIONLESS_CONSTRAINT, [])
  /\ getMlcpConstraintTypeName MLCP_NUM_CONSTRAINT_TYPES =
       (EmptyString, [mkLogEntry SEVERE "bad MLCP constraint type value" []]).
Proof.
  split.
  - apply (constraint_type_name_round_trip MLCP_UNILATERAL_3D_FRICTIONLESS_CONSTRAINT).
    unfold named. simpl. tauto.
  - apply (constraint_type_name_round_trip MLCP_NUM_CONSTRAINT_TYPES).
    unfold named. simpl. intros H.
    repeat (destruct H as [H|H]; [discriminate|]). exact H.
Defined.

(** X26. [getMlcpConstraintTypeValue] answers one of the seven named types, without
    logging, exactly for the name [getMlcpConstraintTypeName] gives to that
    type; for every other string it logs a warning and answers
    [MLCP_INVALID_CONSTRAINT]. *)
Theorem constraint_type_value_round_trip :
  forall (typeName : string),
    (snd (getMlcpConstraintTypeValue typeName) = [] ->
     In (fst (getMlcpConstraintTypeValue typeName)) named
     /\ getMlcpConstraintTypeName (fst (getMlcpConstraintTypeValue typeName))
        = (typeName, []))
    /\ (snd (getMlcpConstraintTypeValue typeName) <> [] ->
        getMlcpConstraintTypeValue typeName =
          (MLCP_INVALID_CONSTRAINT,
           [mkLogEntry WARNING "bad MLCP constraint type name" []])
        /\ forall t, In t named -> fst (getMlcpConstraintTypeName t) <> typeName).
Proof.
  intros typeName. unfold getMlcpConstraintTypeValue.
  repeat match goal with
         | |- context [String.eqb typeName ?name] =>
             destruct (String.eqb_spec typeName name) as [->|?];
             [split; [intros _; split; [unfold named; simpl; tauto | reflexivity]
                     | intros H; exfalso; apply H; reflexivity]|]
         end.
  split; [simpl; discriminate|]. intros _. split; [reflexivity|].
  intros t Hin. unfold named in Hin. simpl in Hin.
  repeat (destruct Hin as [<-|Hin]; [simpl; congruence|]). destruct Hin.
Qed.

Lemma constraint_type_value_round_trip_witness :
  getMlcpConstraintTypeName
    (fst (getMlcpConstraintTypeValue "MLCP_BILATERAL_3D_CONSTRAINT"))
    = ("MLCP_BILATERAL_3D_CONSTRAINT"%string, [])
  /\ getMlcpConstraintTypeValue "MLCP_BILATERAL_4D_CONSTRAINT" =
       (MLCP_INVALID_CONSTRAINT,
        [mkLogEntry WARNING "bad MLCP constraint type name" []]).
Proof.
  split.
  - apply (constraint_type_value_round_trip "MLCP_BILATERAL_3D_CONSTRAINT").
    reflexivity.
  - apply (constraint_type_value_round_trip "MLCP_BILATERAL_4D_CONSTRAINT").
    discriminate.
Defined.

End MlcpNamesProofs.

(** ** The transformation of a Fem1D state *)

Module Fem1DProofs.
Import Framework Math Eigen Ode Fem1D.
Import EigenFacts MassSpringProofs SegmentFacts.

Lemma multiple_of_6 (x : Vector) :
  (length x / 6 * 6 =? length x)%nat = true <-> (length x mod 6 = 0)%nat.
Proof.
  rewrite Nat.eqb_eq. pose proof (Nat.div_mod_eq (length x) 6). lia.
Qed.

Lemma transformVectorByBlockOf3_returns transform x rotationOnly :
  (length x mod 6 = 0)%nat ->
  transformVectorByBlockOf3 transform x rotationOnly =
  Returns
    (foldl (fun x nodeId =>
              setSegment3 x (6 * nodeId)
                ((fun (_ : nat) xi =>
                    if rotationOnly then Math.mulMV (linear transform) xi
                    else transformPoint transform xi)
                   nodeId (segment3 x (6 * nodeId))))
           x (seq 0 (length x / 6)))
    [].
Proof.
  intros Hx. unfold transformVectorByBlockOf3.
  apply multiple_of_6 in Hx. rewrite Hx. reflexivity.
Qed.

Lemma setSegment3_id v i : (i + 3 <= length v)%nat -> setSegment3 v i (segment3 v i) = v.
Proof.
  intros Hl. unfold setSegment3, segment3, coeff. simpl.
  destruct (lookup_lt_is_Some_2 v i) as [a Ea]; [lia|].
  destruct (lookup_lt_is_Some_2 v (i + 1)) as [b Eb]; [lia|].
  destruct (lookup_lt_is_Some_2 v (i + 2)) as [c Ec]; [lia|].
  rewrite Ea, Eb, Ec. simpl.
  rewrite (list_insert_id v i a Ea), (list_insert_id v (i + 1) b Eb).
  apply list_insert_id, Ec.
Qed.

Lemma mulMV_Identity33 v : Math.mulMV Identity33 v = v.
Proof.
  destruct v as [a b c]. unfold Math.mulMV, Math.dot. simpl. f_equal; lra.
Qed.

Lemma rotation_by_identity nodes : forall x,
  (forall i, In i nodes -> (6 * i + 3 <= length x)%nat) ->
  foldl (fun x nodeId =>
           setSegment3 x (6 * nodeId)
             (Math.mulMV Identity33 (segment3 x (6 * nodeId)))) x nodes = x.
Proof.
  induction nodes as [|i nodes IH]; intros x Hl; [reflexivity|].
  cbn [foldl]. rewrite mulMV_Identity33, setSegment3_id by (apply Hl; now left).
  apply IH. intros j Hj. apply Hl. now right.
Qed.

(** X27. [transformVectorByBlockOf3] asserts a size that is a multiple of 6.  It
    then keeps the size, transforms the three translational degrees of
    freedom of every node (by the rotation alone when asked so) and leaves
    the three rotational ones as they are. *)
Theorem transformVectorByBlockOf3_blocks :
  forall (transform : RigidTransform3d) (x : Vector) (rotationOnly : bool),
    ((length x mod 6 <> 0)%nat ->
     transformVectorByBlockOf3 transform x rotationOnly =
       AssertionFailure
         "Unexpected number of dof in a Fem1D state vector (not a multiple of 6)")
    /\ ((length x mod 6 = 0)%nat ->
        exists y,
          transformVectorByBlockOf3 transform x rotationOnly = Returns y []
          /\ length y = length x
          /\ forall nodeId, (nodeId < length x / 6)%nat ->
               segment3 y (6 * nodeId) =
                 (if rotationOnly
                  then Math.mulMV (linear transform) (segment3 x (6 * nodeId))
                  else transformPoint transform (segment3 x (6 * nodeId)))
               /\ segment3 y (6 * nodeId + 3) = segment3 x (6 * nodeId + 3)).
Proof.
  intros transform x rotationOnly. split.
  - intros Hx. unfold transformVectorByBlockOf3.
    destruct (length x / 6 * 6 =? length x)%nat eqn:E; [|reflexivity].
    apply multiple_of_6 in E. contradiction.
  - intros Hx. rewrite transformVectorByBlockOf3_returns by exact Hx.
    eexists. split; [reflexivity|].
    assert (Hl : (6 * (length x / 6) <= length x)%nat).
    { pose proof (Nat.div_mod_eq (length x) 6). lia. }
    split; [apply foldl_length; intros; apply length_setSegment3|].
    set (h := fun (_ : nat) xi =>
                if rotationOnly then Math.mulMV (linear transform) xi
                else transformPoint transform xi).
    intros nodeId Hnode. split.
    + apply (fold_segments_seq 6 h); [lia | exact Hl | exact Hnode].
    + unfold segment3. rewrite <- !Nat.add_assoc.
      rewrite !(fold_segments_between 6 h) by (lia || assumption). reflexivity.
Qed.

Lemma transformVectorByBlockOf3_blocks_witness :
  exists y,
    transformVectorByBlockOf3 Scene.alongX [1; 2; 3; 0; 0; 0] false = Returns y []
    /\ segment3 y (6 * 0) = transformPoint Scene.alongX (mkVector3d 1 2 3)
    /\ segment3 y (6 * 0 + 3) = mkVector3d 0 0 0.
Proof.
  destruct (transformVectorByBlockOf3_blocks Scene.alongX [1; 2; 3; 0; 0; 0] false)
    as [_ H].
  destruct (H eq_refl) as (y & E & _ & Hy).
  exists y. split; [exact E|]. apply (Hy 0%nat). simpl. lia.
Defined.

(** X28. [transformState] by a pure translation moves the position of every node
    by that translation and returns the velocities, the accelerations and
    the rotational degrees of freedom as they were. *)
Theorem translation_keeps_velocities :
  forall (state : OdeState) (transform : RigidTransform3d),
    linear transform = Identity33 ->
    (length (getPositions state) mod 6 = 0)%nat ->
    (length (getVelocities state) mod 6 = 0)%nat ->
    (length (getAccelerations state) mod 6 = 0)%nat ->
    exists positions,
      transformState state transform =
        Returns (mkOdeState positions (getVelocities state) (getAccelerations state)) []
      /\ length positions = length (getPositions state)
      /\ forall nodeId, (nodeId < length (getPositions state) / 6)%nat ->
           segment3 positions (6 * nodeId) =
             vadd (segment3 (getPositions state) (6 * nodeId)) (translation transform)
           /\ segment3 positions (6 * nodeId + 3)
              = segment3 (getPositions state) (6 * nodeId + 3).
Proof.
  intros state transform Hlin Hx Hv Ha. unfold transformState.
  assert (Hid : forall v, (length v mod 6 = 0)%nat ->
            transformVectorByBlockOf3 transform v true = Returns v []).
  { intros v Hm. rewrite transformVectorByBlockOf3_returns by exact Hm.
    cbv beta iota. rewrite Hlin, rotation_by_identity; [reflexivity|].
    intros i Hi. apply in_seq in Hi.
    pose proof (Nat.div_mod_eq (length v) 6). lia. }
  rewrite (Hid _ Hv), (Hid _ Ha).
  destruct (transformVectorByBlockOf3_blocks transform (getPositions state) false)
    as [_ H].
  destruct (H Hx) as (positions & E & Hl & Hseg). rewrite E.
  exists positions. split; [reflexivity|]. split; [exact Hl|].
  intros nodeId Hnode. destruct (Hseg nodeId Hnode) as [Ht Hr].
  split; [|exact Hr]. rewrite Ht. unfold transformPoint.
  now rewrite Hlin, mulMV_Identity33.
Qed.

Lemma translation_keeps_velocities_witness :
  exists positions,
    transformState Examples.beamNode Scene.alongX =
      Returns (mkOdeState positions [1; 0; 0; 0; 0; 1] [0; 0; 0; 0; 0; 0]) []
    /\ segment3 positions (6 * 0) = vadd (mkVector3d 1 2 3) (mkVector3d 1.5 0 0).
Proof.
  destruct (translation_keeps_velocities Examples.beamNode Scene.alongX
              eq_refl eq_refl eq_refl eq_refl) as (positions & E & _ & Hp).
  exists positions. split; [exact E|]. apply (Hp 0%nat). simpl. lia.
Defined.

End Fem1DProofs.

(** ** The modified explicit Euler step *)

Module ModifiedEulerProofs.
Import Framework Math Eigen Ode OdeContract MassSpring.
Import EigenFacts OdeProofs MassSpringProofs SegmentFacts MassSpringForceProofs.











End ModifiedEulerProofs.
